(** * The YouTube-storage codec of [convert]: packets, checksum, pixels,
      metadata and the fountain code, embedded from the TypeScript sources.

    Numbers are modelled as [Z]; every place where JavaScript coerces a
    number to a 32-bit integer, rounds a product to a double or clamps a
    typed-array store is written out.  Typed arrays are lists of byte values.
    Loops that may not terminate carry a fuel argument and return [Diverge]
    when it runs out. *)

From Stdlib Require Import ZArith List Lia Bool String Znumtheory.
Import ListNotations.
Local Open Scope Z_scope.

(* ================================================================== *)
(** ** Outcomes of a call: a value, a thrown exception, or no return *)

Inductive exn : Type :=
| RangeError
| TypeError
| Thrown (msg : string).

Inductive outcome (A : Type) : Type :=
| Ok (a : A)
| Throw (e : exn)
| Diverge.
Arguments Ok {A} a.
Arguments Throw {A} e.
Arguments Diverge {A}.

Definition bind {A B : Type} (m : outcome A) (k : A -> outcome B) : outcome B :=
  match m with
  | Ok a => k a
  | Throw e => Throw e
  | Diverge => Diverge
  end.

Notation "x <- m ;; k" := (bind m (fun x => k))
  (at level 61, m at next level, right associativity).

(* ================================================================== *)
(** ** JavaScript number coercions and operators *)

Module JS.

(** ToUint32 and ToInt32 of an integral number. *)
Definition toUint32 (x : Z) : Z := x mod 2 ^ 32.
Definition toInt32 (x : Z) : Z := (x + 2 ^ 31) mod 2 ^ 32 - 2 ^ 31.

(** The bitwise operators coerce both operands with ToInt32 and yield an
    int32; on sign-extended [Z] values [Z.lxor], [Z.lor] and [Z.land] are
    the two's complement operations. *)
Definition xor32 (a b : Z) : Z := Z.lxor (toInt32 a) (toInt32 b).
Definition or32 (a b : Z) : Z := Z.lor (toInt32 a) (toInt32 b).
Definition and32 (a b : Z) : Z := Z.land (toInt32 a) (toInt32 b).

(** [a << k], [a >> k] (sign-propagating) and [a >>> k] (zero-fill). *)
Definition shl32 (a k : Z) : Z := toInt32 (Z.shiftl (toInt32 a) (k mod 32)).
Definition sar32 (a k : Z) : Z := Z.shiftr (toInt32 a) (k mod 32).
Definition shr32 (a k : Z) : Z := Z.shiftr (toUint32 a) (k mod 32).

(** A number that may be NaN (the result of [x % 0]). *)
Inductive number : Type :=
| Int (z : Z)
| NaN.

Definition number_eqb (a b : number) : bool :=
  match a, b with
  | Int x, Int y => x =? y
  | NaN, NaN => true
  | _, _ => false
  end.

(** [a % b] on integral numbers: the sign follows the dividend, a zero
    divisor gives NaN. *)
Definition rem (a b : Z) : number :=
  if b =? 0 then NaN else Int (Z.rem a b).

(** [2 + x]. *)
Definition add_int (k : Z) (x : number) : number :=
  match x with
  | Int z => Int (k + z)
  | NaN => NaN
  end.

(** [k < x] for an integer [k]; any comparison with NaN is false. *)
Definition lt_number (k : Z) (x : number) : bool :=
  match x with
  | Int z => k <? z
  | NaN => false
  end.

(** The double nearest to a non-negative integer (round to nearest, ties
    to even, 53-bit significand, exponent unbounded). *)
Definition roundToDouble (x : Z) : Z :=
  if x <? 2 ^ 53 then x
  else
    let e := Z.log2 x - 52 in
    let q := x / 2 ^ e in
    let r := x mod 2 ^ e in
    let half := 2 ^ (e - 1) in
    let q' := if r <? half then q
              else if half <? r then q + 1
              else if Z.even q then q else q + 1 in
    q' * 2 ^ e.

(** ToInt32 of a non-negative double given by its exact value; values
    from [2 ^ 1024] on stand for an overflow to [Infinity], which
    ToInt32 maps to [0]. *)
Definition doubleToInt32 (x : Z) : Z :=
  if 2 ^ 1024 <=? x then 0 else toInt32 x.

(** A positive double [mant / 2 ^ expo], as for a literal such as [0.3]. *)
Record double : Type := { mant : Z; expo : Z }.

(** [Math.ceil(n * d)] for a non-negative integer [n]. *)
Definition ceil_mul (n : Z) (d : double) : Z :=
  - ((- roundToDouble (n * mant d)) / 2 ^ expo d).

(** The literal [0.3]: [0x13333333333333 / 2 ^ 54]. *)
Definition d0_3 : double := {| mant := 5404319552844595; expo := 54 |}.

End JS.

(* ================================================================== *)
(** ** Typed arrays and DataView accessors *)

Module TypedArray.

(** A [Uint8Array] (or [Uint8ClampedArray]): its elements, each a byte. *)
Definition Uint8Array : Type := list Z.

Definition is_byte (b : Z) : bool := (0 <=? b) && (b <? 256).
Definition bytes_ok (a : Uint8Array) : Prop := forallb is_byte a = true.

(** [new Uint8Array(n)]: zero-filled. *)
Definition alloc (n : Z) : Uint8Array := repeat 0 (Z.to_nat n).

Definition len (a : Uint8Array) : Z := Z.of_nat (List.length a).

(** [a[i] || 0]: an absent element and a zero both read as [0]. *)
Definition get0 (a : Uint8Array) (i : nat) : Z := nth i a 0.

(** Overwrite [a] from offset [off] with [bs] (the caller checks bounds). *)
Definition write_at (a : Uint8Array) (off : Z) (bs : list Z) : Uint8Array :=
  firstn (Z.to_nat off) a ++ bs ++ skipn (Z.to_nat off + List.length bs) a.

(** [a.set(src, off)]: RangeError when [src] does not fit. *)
Definition set (a src : Uint8Array) (off : Z) : outcome Uint8Array :=
  if len a <? off + len src then Throw RangeError
  else Ok (write_at a off src).

(** [a[i] = v] on a [Uint8Array]: stored modulo 256, ignored out of range. *)
Definition store (a : Uint8Array) (i v : Z) : Uint8Array :=
  if (0 <=? i) && (i <? len a) then write_at a i [v mod 256] else a.

(** [a.slice(s, e)] for non-negative [s] and [e]: both ends are clamped to
    the length. *)
Definition slice (a : Uint8Array) (s e : Z) : Uint8Array :=
  firstn (Z.to_nat (e - s)) (skipn (Z.to_nat s) a).

(** Little-endian bytes of the low [8 * n] bits of [v], and back. *)
Definition le_bytes (n : nat) (v : Z) : list Z :=
  map (fun k => (v / 2 ^ (8 * Z.of_nat k)) mod 256) (seq 0 n).

Definition le_value (bs : list Z) : Z :=
  fold_right (fun b acc => b + 256 * acc) 0 bs.

(** [view.setUintN(off, v, true)] and [view.getUintN(off, true)] with
    [N = 8 * n]: RangeError when the access leaves the view. *)
Definition setUint (n : nat) (a : Uint8Array) (off v : Z) : outcome Uint8Array :=
  if (off <? 0) || (len a <? off + Z.of_nat n) then Throw RangeError
  else Ok (write_at a off (le_bytes n v)).

Definition getUint (n : nat) (a : Uint8Array) (off : Z) : outcome Z :=
  if (off <? 0) || (len a <? off + Z.of_nat n) then Throw RangeError
  else Ok (le_value (firstn n (skipn (Z.to_nat off) a))).

(** A store into a [Uint8ClampedArray]. *)
Definition clamp8 (v : Z) : Z := Z.max 0 (Z.min 255 v).

End TypedArray.

(* ================================================================== *)
(** ** crc32.ts *)

Module Crc32.
Import JS.

(** One round of the table loop:
    [crc = (crc & 1) ? (0xEDB88320 ^ (crc >>> 1)) : (crc >>> 1)]. *)
Definition table_round (crc : Z) : Z :=
  if and32 crc 1 =? 0 then shr32 crc 1 else xor32 0xEDB88320 (shr32 crc 1).

(** [CRC32_TABLE[i]]: eight rounds from [i], stored in a [Uint32Array]. *)
Definition table_entry (i : Z) : Z := toUint32 (Nat.iter 8 table_round i).

Definition CRC32_TABLE : list Z :=
  map (fun i => table_entry (Z.of_nat i)) (seq 0 256).

(** [crc = CRC32_TABLE[(crc ^ data[i]) & 0xFF] ^ (crc >>> 8)]. *)
Definition crc32_update (crc b : Z) : Z :=
  xor32 (nth (Z.to_nat (and32 (xor32 crc b) 0xFF)) CRC32_TABLE 0) (shr32 crc 8).

Definition crc32 (data : list Z) : Z :=
  shr32 (xor32 (fold_left crc32_update data 0xFFFFFFFF) 0xFFFFFFFF) 0.

End Crc32.

(** The checksum as the specification words it: the reflected CRC-32 computed
    bit by bit on unsigned 32-bit words, polynomial [0xEDB88320], initial value
    and final XOR [0xFFFFFFFF]. *)
Module Crc32Spec.

Definition bit_round (crc : Z) : Z :=
  if Z.odd crc then Z.lxor (Z.shiftr crc 1) 0xEDB88320 else Z.shiftr crc 1.

Definition byte_round (crc b : Z) : Z := Nat.iter 8 bit_round (Z.lxor crc b).

Definition crc32_bitwise (data : list Z) : Z :=
  Z.lxor (fold_left byte_round data 0xFFFFFFFF) 0xFFFFFFFF.

End Crc32Spec.

(* ================================================================== *)
(** ** TextEncoder and TextDecoder (UTF-8) *)

(** A string is the sequence of its code points.  A well-formed string holds
    scalar values only; a surrogate code point stands for an unpaired
    surrogate code unit. *)
Module Text.

Definition jsstring : Type := list Z.

Definition is_surrogate (c : Z) : bool := (0xD800 <=? c) && (c <=? 0xDFFF).

Definition is_scalar (c : Z) : bool :=
  (0 <=? c) && (c <=? 0x10FFFF) && negb (is_surrogate c).

Definition well_formed (s : jsstring) : Prop := forallb is_scalar s = true.

(** UTF-8 bytes of one code point; the encoder first replaces an unpaired
    surrogate by U+FFFD. *)
Definition encode_scalar (c : Z) : list Z :=
  if c <=? 0x7F then [c]
  else if c <=? 0x7FF then
    [Z.lor 0xC0 (Z.shiftr c 6); Z.lor 0x80 (Z.land c 0x3F)]
  else if c <=? 0xFFFF then
    [Z.lor 0xE0 (Z.shiftr c 12);
     Z.lor 0x80 (Z.land (Z.shiftr c 6) 0x3F);
     Z.lor 0x80 (Z.land c 0x3F)]
  else
    [Z.lor 0xF0 (Z.shiftr c 18);
     Z.lor 0x80 (Z.land (Z.shiftr c 12) 0x3F);
     Z.lor 0x80 (Z.land (Z.shiftr c 6) 0x3F);
     Z.lor 0x80 (Z.land c 0x3F)].

Definition encode_code_point (c : Z) : list Z :=
  encode_scalar (if is_surrogate c then 0xFFFD else c).

(** [new TextEncoder().encode(s)]. *)
Definition encode (s : jsstring) : list Z := flat_map encode_code_point s.

(** State of the UTF-8 decoder between bytes. *)
Record decoder : Type := {
  code_point : Z;
  bytes_seen : Z;
  bytes_needed : Z;
  lower : Z;
  upper : Z
}.

Definition idle : decoder :=
  {| code_point := 0; bytes_seen := 0; bytes_needed := 0;
     lower := 0x80; upper := 0xBF |}.

Definition expect (cp needed lo hi : Z) : decoder :=
  {| code_point := cp; bytes_seen := 0; bytes_needed := needed;
     lower := lo; upper := hi |}.

(** What one byte does: the next state, the code points emitted (U+FFFD
    for an error) and whether the byte is put back to be read again. *)
Definition decode_byte (d : decoder) (b : Z) : decoder * list Z * bool :=
  if bytes_needed d =? 0 then
    if b <=? 0x7F then (idle, [b], false)
    else if (0xC2 <=? b) && (b <=? 0xDF) then
      (expect (Z.land b 0x1F) 1 0x80 0xBF, [], false)
    else if (0xE0 <=? b) && (b <=? 0xEF) then
      (expect (Z.land b 0xF) 2
         (if b =? 0xE0 then 0xA0 else 0x80)
         (if b =? 0xED then 0x9F else 0xBF), [], false)
    else if (0xF0 <=? b) && (b <=? 0xF4) then
      (expect (Z.land b 0x7) 3
         (if b =? 0xF0 then 0x90 else 0x80)
         (if b =? 0xF4 then 0x8F else 0xBF), [], false)
    else (idle, [0xFFFD], false)
  else if (b <? lower d) || (upper d <? b) then
    (idle, [0xFFFD], true)
  else
    let cp := Z.lor (Z.shiftl (code_point d) 6) (Z.land b 0x3F) in
    if bytes_seen d + 1 =? bytes_needed d then (idle, [cp], false)
    else ({| code_point := cp; bytes_seen := bytes_seen d + 1;
             bytes_needed := bytes_needed d;
             lower := 0x80; upper := 0xBF |}, [], false).

(** Run the decoder over the bytes; at the end of input an unfinished
    sequence is an error.  A byte that is put back is read again in the
    idle state, where nothing is put back. *)
Fixpoint decode_from (d : decoder) (bs : list Z) : list Z :=
  match bs with
  | [] => if bytes_needed d =? 0 then [] else [0xFFFD]
  | b :: rest =>
      let '(d1, out1, again) := decode_byte d b in
      if again then
        let '(d2, out2, _) := decode_byte d1 b in
        out1 ++ out2 ++ decode_from d2 rest
      else out1 ++ decode_from d1 rest
  end.

(** [new TextDecoder().decode(bytes)]: not fatal, and a leading byte order
    mark is dropped ([ignoreBOM] is false). *)
Definition decode (bs : list Z) : jsstring :=
  match decode_from idle bs with
  | c :: rest => if c =? 0xFEFF then rest else c :: rest
  | [] => []
  end.

End Text.

(* ================================================================== *)
(** ** packets.ts *)

Module Packets.
Import JS TypedArray.

Definition MAGIC : Z := 0xDB02.
Definition FRAME_WIDTH : Z := 1920.
Definition FRAME_HEIGHT : Z := 1080.
Definition FRAME_BYTES : Z := FRAME_WIDTH * FRAME_HEIGHT * 3.
Definition HEADER_SIZE : Z := 19.
Definition MAX_PAYLOAD : Z := FRAME_BYTES - HEADER_SIZE.
Definition FLAG_ENCRYPTED : Z := 0x01.
Definition FLAG_REPAIR : Z := 0x02.

Record PacketHeader : Type := {
  magic : Z;
  flags : Z;
  packetIndex : Z;
  totalPackets : Z;
  payloadLength : Z;
  checksum : Z
}.

Definition encodePacket (packetIndex totalPackets : Z) (payload : Uint8Array)
    (flags : Z) : outcome Uint8Array :=
  let payloadLength := len payload in
  let checksum := Crc32.crc32 payload in
  let packet := alloc FRAME_BYTES in
  packet <- setUint 2 packet 0 MAGIC ;;
  packet <- setUint 1 packet 2 flags ;;
  packet <- setUint 4 packet 3 packetIndex ;;
  packet <- setUint 4 packet 7 totalPackets ;;
  packet <- setUint 4 packet 11 payloadLength ;;
  packet <- setUint 4 packet 15 checksum ;;
  set packet payload HEADER_SIZE.

(** [None] is the source's [null]. *)
Definition decodePacket (raw : Uint8Array)
    : outcome (option (PacketHeader * Uint8Array)) :=
  if len raw <? HEADER_SIZE then Ok None
  else
    magic <- getUint 2 raw 0 ;;
    if negb (magic =? MAGIC) then Ok None
    else
      flags <- getUint 1 raw 2 ;;
      packetIndex <- getUint 4 raw 3 ;;
      totalPackets <- getUint 4 raw 7 ;;
      payloadLength <- getUint 4 raw 11 ;;
      checksum <- getUint 4 raw 15 ;;
      let payload := slice raw HEADER_SIZE (HEADER_SIZE + payloadLength) in
      Ok (Some ({| magic := magic; flags := flags; packetIndex := packetIndex;
                   totalPackets := totalPackets; payloadLength := payloadLength;
                   checksum := checksum |}, payload)).

Definition verifyPacket (payload : Uint8Array) (expectedChecksum : Z) : bool :=
  Crc32.crc32 payload =? expectedChecksum.

Record Metadata : Type := {
  filename : Text.jsstring;
  fileSize : Z;
  mimeType : Text.jsstring;
  isEncrypted : bool
}.

Definition encodeMetadata (filename : Text.jsstring) (fileSize : Z)
    (mimeType : Text.jsstring) (isEncrypted : bool) : outcome Uint8Array :=
  let nameBytes := Text.encode filename in
  let mimeBytes := Text.encode mimeType in
  let total := 4 + len nameBytes + 4 + 4 + len mimeBytes + 1 in
  let buf := alloc total in
  let offset := 0 in
  buf <- setUint 4 buf offset (len nameBytes) ;;
  let offset := offset + 4 in
  buf <- set buf nameBytes offset ;;
  let offset := offset + len nameBytes in
  buf <- setUint 4 buf offset fileSize ;;
  let offset := offset + 4 in
  buf <- setUint 4 buf offset (len mimeBytes) ;;
  let offset := offset + 4 in
  buf <- set buf mimeBytes offset ;;
  let offset := offset + len mimeBytes in
  Ok (store buf offset (if isEncrypted then 1 else 0)).

Definition decodeMetadata (payload : Uint8Array) : outcome Metadata :=
  let offset := 0 in
  nameLen <- getUint 4 payload offset ;;
  let offset := offset + 4 in
  let filename := Text.decode (slice payload offset (offset + nameLen)) in
  let offset := offset + nameLen in
  fileSize <- getUint 4 payload offset ;;
  let offset := offset + 4 in
  mimeLen <- getUint 4 payload offset ;;
  let offset := offset + 4 in
  let mimeType := Text.decode (slice payload offset (offset + mimeLen)) in
  let offset := offset + mimeLen in
  let isEncrypted :=
    match nth_error payload (Z.to_nat offset) with
    | Some b => b =? 1
    | None => false
    end in
  Ok {| filename := filename; fileSize := fileSize;
        mimeType := mimeType; isEncrypted := isEncrypted |}.

(** [bytesToPixels]: pixel [i] takes bytes [3i .. 3i+2] and alpha 255. *)
Definition bytesToPixels (data : Uint8Array) : Uint8Array :=
  let pixelCount := FRAME_WIDTH * FRAME_HEIGHT in
  flat_map
    (fun i => [clamp8 (get0 data (i * 3));
               clamp8 (get0 data (i * 3 + 1));
               clamp8 (get0 data (i * 3 + 2));
               clamp8 255])
    (seq 0 (Z.to_nat pixelCount)).

(** [pixelsToBytes]: [pixelCount = pixels.length / 4] need not be integral;
    the loop runs while [i < pixelCount], the array allocated has
    [floor (pixelCount * 3)] elements, stores beyond it are dropped and an
    absent pixel component is stored as [0]. *)
Definition pixelsToBytes (pixels : Uint8Array) : Uint8Array :=
  let n := List.length pixels in
  firstn (n * 3 / 4)%nat
    (flat_map
       (fun i => [get0 pixels (i * 4) mod 256;
                  get0 pixels (i * 4 + 1) mod 256;
                  get0 pixels (i * 4 + 2) mod 256])
       (seq 0 ((n + 3) / 4)%nat)).

End Packets.

(* ================================================================== *)
(** ** fountain.ts *)

Module Fountain.
Import JS TypedArray.

(** [xorshift32(seed)] returns a closure over [state]; the closure is
    modelled by its state.  [xorshift32 seed] is the initial state
    [seed | 1] and [xorshift32_next] the state after one call, whose
    return value is [state >>> 0]. *)
Definition xorshift32 (seed : Z) : Z := or32 seed 1.

Definition xorshift32_next (state : Z) : Z :=
  let state := xor32 state (shl32 state 13) in
  let state := xor32 state (sar32 state 17) in
  let state := xor32 state (shl32 state 5) in
  state.

Definition xorshift32_out (state : Z) : Z := shr32 state 0.

(** [repairIndex * 2654435761 + 1] in double arithmetic, then the
    ToInt32 that [seed | 1] applies to it. *)
Definition seedOf (repairIndex : Z) : Z :=
  doubleToInt32 (roundToDouble (roundToDouble (repairIndex * 2654435761) + 1)).

(** [selected.add(x)] on a [Set<number>]: insertion order is kept and an
    element already present (NaN included) is not added again. *)
Definition set_add (x : number) (selected : list number) : list number :=
  if existsb (number_eqb x) selected then selected else selected ++ [x].

Definition size (selected : list number) : Z := Z.of_nat (List.length selected).

(** [while (selected.size < degree) selected.add(rng() % sourceCount)]. *)
Fixpoint select (fuel : nat) (state : Z) (degree : number) (sourceCount : Z)
    (selected : list number) : outcome (list number) :=
  if lt_number (size selected) degree then
    match fuel with
    | O => Diverge
    | S fuel' =>
        let state := xorshift32_next state in
        select fuel' state degree sourceCount
          (set_add (rem (xorshift32_out state) sourceCount) selected)
    end
  else Ok selected.

Definition getRepairSources (fuel : nat) (repairIndex sourceCount : Z)
    : outcome (list number) :=
  let state := xorshift32 (seedOf repairIndex) in
  let state := xorshift32_next state in
  let degree :=
    add_int 2 (rem (xorshift32_out state) (Z.min 4 (sourceCount - 1))) in
  select fuel state degree sourceCount [].

(** [xorBytes]: the longer length, an absent byte reads as [0]. *)
Definition xorBytes (a b : Uint8Array) : Uint8Array :=
  map (fun i => xor32 (get0 a i) (get0 b i) mod 256)
    (seq 0 (Nat.max (List.length a) (List.length b))).

Record RepairPacket : Type := {
  repairIndex : Z;
  sourceIndices : list nat;
  data : Uint8Array
}.

(** The body of [for (const idx of sourceIndices)] in
    [generateRepairPackets]: [sourcePackets[idx]] is [undefined] for NaN
    and out of range, and [xorBytes] then throws a TypeError. *)
Fixpoint xorSources (sourcePackets : list Uint8Array) (indices : list number)
    (data : Uint8Array) : outcome (Uint8Array * list nat) :=
  match indices with
  | [] => Ok (data, [])
  | Int z :: rest =>
      if z <? 0 then Throw TypeError
      else match nth_error sourcePackets (Z.to_nat z) with
           | Some pkt =>
               r <- xorSources sourcePackets rest (xorBytes data pkt) ;;
               Ok (fst r, Z.to_nat z :: snd r)
           | None => Throw TypeError
           end
  | NaN :: _ => Throw TypeError
  end.

(** One round of the outer loop, for repair [r]. *)
Definition generateRepair (fuel : nat) (sourcePackets : list Uint8Array) (r : Z)
    : outcome RepairPacket :=
  indices <- getRepairSources fuel r (Z.of_nat (List.length sourcePackets)) ;;
  match sourcePackets with
  | [] => Throw TypeError
  | first :: _ =>
      d <- xorSources sourcePackets indices (alloc (len first)) ;;
      Ok {| repairIndex := r; sourceIndices := snd d; data := fst d |}
  end.

Fixpoint generateRepairs (fuel : nat) (sourcePackets : list Uint8Array)
    (rs : list nat) : outcome (list RepairPacket) :=
  match rs with
  | [] => Ok []
  | r :: rest =>
      p <- generateRepair fuel sourcePackets (Z.of_nat r) ;;
      ps <- generateRepairs fuel sourcePackets rest ;;
      Ok (p :: ps)
  end.

Definition generateRepairPackets (fuel : nat) (sourcePackets : list Uint8Array)
    (redundancyRatio : double) : outcome (list RepairPacket) :=
  let n := Z.of_nat (List.length sourcePackets) in
  let repairCount := Z.max 1 (ceil_mul n redundancyRatio) in
  generateRepairs fuel sourcePackets (seq 0 (Z.to_nat repairCount)).

(** The array [recovered]: [None] is [null] or a hole. *)
Definition slots : Type := list (option Uint8Array).

Definition present (recovered : slots) (idx : nat) : option Uint8Array :=
  match nth_error recovered idx with
  | Some (Some p) => Some p
  | _ => None
  end.

Definition absent (recovered : slots) (idx : nat) : bool :=
  match present recovered idx with
  | Some _ => false
  | None => true
  end.

(** [recovered[idx] = data]: an index past the end extends the array. *)
Definition assign (recovered : slots) (idx : nat) (d : Uint8Array) : slots :=
  if (idx <? List.length recovered)%nat
  then firstn idx recovered ++ Some d :: skipn (S idx) recovered
  else recovered ++ repeat None (idx - List.length recovered) ++ [Some d].

(** The body of the [for (const repair of repairPackets)] loop. *)
Definition peel (st : slots * bool) (repair : RepairPacket) : slots * bool :=
  let (recovered, changed) := st in
  let missing := filter (absent recovered) (sourceIndices repair) in
  match missing with
  | [missingIdx] =>
      let d :=
        fold_left
          (fun d idx =>
             if negb (idx =? missingIdx)%nat then
               match present recovered idx with
               | Some p => xorBytes d p
               | None => d
               end
             else d)
          (sourceIndices repair) (data repair) in
      (assign recovered missingIdx d, true)
  | _ => (recovered, changed)
  end.

(** [while (changed) { changed = false; for (...) ... }]. *)
Fixpoint peelLoop (fuel : nat) (recovered : slots)
    (repairPackets : list RepairPacket) : outcome slots :=
  match fuel with
  | O => Diverge
  | S fuel' =>
      let (recovered, changed) := fold_left peel repairPackets (recovered, false) in
      if changed then peelLoop fuel' recovered repairPackets
      else Ok recovered
  end.

Definition recoverPackets (fuel : nat) (sourcePackets : slots)
    (repairPackets : list RepairPacket) (packetSize : Z) : outcome slots :=
  peelLoop fuel sourcePackets repairPackets.

(** [deriveRepairSources]: the indices as the decoder stores them in a
    repair packet. *)
Definition deriveRepairSources (fuel : nat) (repairIndex sourceCount : Z)
    : outcome (list number) :=
  getRepairSources fuel repairIndex sourceCount.

End Fountain.

(** The generator as the specification words it: a xorshift32 on unsigned
    32-bit words with zero-fill shifts, seeded with a multiplication that
    wraps modulo [2 ^ 32]. *)
Module FountainSpec.

Definition u32 (x : Z) : Z := x mod 2 ^ 32.

Definition seed (r : Z) : Z := Z.lor (u32 (u32 (r * 2654435761) + 1)) 1.

Definition next (x : Z) : Z :=
  let x := Z.lxor x (u32 (Z.shiftl x 13)) in
  let x := Z.lxor x (Z.shiftr x 17) in
  let x := Z.lxor x (u32 (Z.shiftl x 5)) in
  x.

(** The value returned by the [k]-th call (counting from 1). *)
Definition output (r : Z) (k : nat) : Z := Nat.iter k next (seed r).

End FountainSpec.

(* ================================================================== *)
(** ** ytStorage.ts: the parts of the handler that decide what is emitted *)

Module Handler.
Import JS TypedArray Packets Fountain.

(** The chunk loop of [#encode]:
    [for (offset = 0; offset < fileBytes.length; offset += chunkSize)]. *)
Definition chunkAt (fileBytes : Uint8Array) (chunkSize : Z) (k : nat)
    : outcome Uint8Array :=
  let offset := Z.of_nat k * chunkSize in
  let e := Z.min (offset + chunkSize) (len fileBytes) in
  set (alloc chunkSize) (slice fileBytes offset e) 0.

Fixpoint collect {A : Type} (ms : list (outcome A)) : outcome (list A) :=
  match ms with
  | [] => Ok []
  | m :: rest => a <- m ;; l <- collect rest ;; Ok (a :: l)
  end.

Definition sourceChunksOf (fileBytes : Uint8Array) : outcome (list Uint8Array) :=
  let chunkSize := MAX_PAYLOAD in
  let count := (len fileBytes + chunkSize - 1) / chunkSize in
  collect (map (chunkAt fileBytes chunkSize) (seq 0 (Z.to_nat count))).

(** The packets [#encode] hands to [#writeFramePNG], in order, when no
    encryption is asked for: the metadata frame, the source frames and the
    repair frames. *)
Definition encodeFrames (fuel : nat) (originalName : Text.jsstring)
    (fileBytes : Uint8Array) (originalMime : Text.jsstring)
    : outcome (list Uint8Array) :=
  let originalSize := len fileBytes in
  let isEncrypted := false in
  let chunkSize := MAX_PAYLOAD in
  sourceChunks <- sourceChunksOf fileBytes ;;
  repairPackets <- generateRepairPackets fuel sourceChunks d0_3 ;;
  let totalSourcePackets := Z.of_nat (List.length sourceChunks) in
  let totalRepairPackets := Z.of_nat (List.length repairPackets) in
  let totalFrames := 1 + totalSourcePackets + totalRepairPackets in
  metaPayload <- encodeMetadata originalName originalSize originalMime isEncrypted ;;
  let metaFlags := if isEncrypted then FLAG_ENCRYPTED else 0 in
  metaPacketBytes <- encodePacket 0 totalFrames metaPayload metaFlags ;;
  sourceFrames <-
    collect
      (map (fun i =>
              let actualLength :=
                Z.min chunkSize (len fileBytes - Z.of_nat i * chunkSize) in
              let payload := slice (nth i sourceChunks []) 0 actualLength in
              encodePacket (Z.of_nat i + 1) totalFrames payload 0)
         (seq 0 (List.length sourceChunks))) ;;
  repairFrames <-
    collect
      (map (fun r =>
              match nth_error repairPackets r with
              | Some repair =>
                  encodePacket (totalSourcePackets + Z.of_nat r + 1) totalFrames
                    (data repair) FLAG_REPAIR
              | None => Throw TypeError
              end)
         (seq 0 (List.length repairPackets))) ;;
  Ok (metaPacketBytes :: sourceFrames ++ repairFrames).

Record DecodedFrame : Type := {
  header : PacketHeader;
  payload : Uint8Array;
  isValid : bool
}.

(** [#decode], from the lookup of frame 0 to the decoded metadata. *)
Definition readMetadata (metaEntry : option DecodedFrame) : outcome Metadata :=
  match metaEntry with
  | Some entry =>
      if isValid entry then decodeMetadata (payload entry)
      else Throw (Thrown "Metadata frame is missing or corrupted.")
  | None => Throw (Thrown "Metadata frame is missing or corrupted.")
  end.

End Handler.

(* ================================================================== *)
(** ** ytStorage.ts: the decode side of the handler *)

From Stdlib Require Import DecimalString.

Module Decoder.
Import JS TypedArray Packets Fountain Handler.

(** What the frame loop of [#decode] stores for one extracted frame:
    [None] when the frame could not be turned into pixels or does not hold a
    packet, else the packet with the result of its checksum test. *)
Definition decodeFrame (pixelData : option Uint8Array)
    : outcome (option DecodedFrame) :=
  match pixelData with
  | None => Ok None
  | Some pixels =>
      decoded <- decodePacket (pixelsToBytes pixels) ;;
      match decoded with
      | Some (h, p) =>
          Ok (Some {| header := h; payload := p;
                      isValid := verifyPacket p (checksum h) |})
      | None => Ok None
      end
  end.

(** [decodedPackets]: the entry of frame [i] is the [i]-th element. *)
Definition entries : Type := list (option DecodedFrame).

Definition getEntry (decodedPackets : entries) (i : nat) : option DecodedFrame :=
  match nth_error decodedPackets i with
  | Some (Some e) => Some e
  | _ => None
  end.

(** [entry.header.flags & FLAG_REPAIR] as a condition. *)
Definition isRepair (e : DecodedFrame) : bool :=
  negb (and32 (flags (header e)) FLAG_REPAIR =? 0).

(** The counting loop over frames [1 .. totalFrames - 1]. *)
Definition countFrames (decodedPackets : entries) (totalFrames : Z) : Z * Z :=
  fold_left
    (fun (c : Z * Z) i =>
       let (sourceCount, repairCount) := c in
       match getEntry decodedPackets i with
       | Some e =>
           if isRepair e then (sourceCount, repairCount + 1)
           else (sourceCount + 1, repairCount)
       | None => (sourceCount + 1, repairCount)
       end)
    (seq 1 (Z.to_nat (totalFrames - 1))) (0, 0).

(** The indices of a repair packet as array indices;
    [deriveRepairSources] returns integers only. *)
Definition asIndex (x : number) : nat :=
  match x with
  | Int z => Z.to_nat z
  | NaN => 0%nat
  end.

Record population : Type := {
  sourcePackets : slots;
  repairPacketsDecoded : list RepairPacket;
  sourceIdx : Z;
  repairIdx : Z
}.

(** One round of the loop that fills [sourcePackets] and
    [repairPacketsDecoded]. *)
Definition populateStep (fuel : nat) (decodedPackets : entries) (sourceCount : Z)
    (st : population) (i : nat) : outcome population :=
  match getEntry decodedPackets i with
  | None =>
      if sourceIdx st <? sourceCount
      then Ok {| sourcePackets := sourcePackets st;
                 repairPacketsDecoded := repairPacketsDecoded st;
                 sourceIdx := sourceIdx st + 1; repairIdx := repairIdx st |}
      else Ok {| sourcePackets := sourcePackets st;
                 repairPacketsDecoded := repairPacketsDecoded st;
                 sourceIdx := sourceIdx st; repairIdx := repairIdx st + 1 |}
  | Some e =>
      if isRepair e then
        indices <- deriveRepairSources fuel (repairIdx st) sourceCount ;;
        Ok {| sourcePackets := sourcePackets st;
              repairPacketsDecoded :=
                if isValid e
                then repairPacketsDecoded st ++
                     [{| repairIndex := repairIdx st;
                         sourceIndices := map asIndex indices;
                         data := payload e |}]
                else repairPacketsDecoded st;
              sourceIdx := sourceIdx st; repairIdx := repairIdx st + 1 |}
      else
        Ok {| sourcePackets :=
                if isValid e
                then assign (sourcePackets st) (Z.to_nat (sourceIdx st)) (payload e)
                else sourcePackets st;
              repairPacketsDecoded := repairPacketsDecoded st;
              sourceIdx := sourceIdx st + 1; repairIdx := repairIdx st |}
  end.

Fixpoint populate (fuel : nat) (decodedPackets : entries) (sourceCount : Z)
    (st : population) (ixs : list nat) : outcome population :=
  match ixs with
  | [] => Ok st
  | i :: rest =>
      st' <- populateStep fuel decodedPackets sourceCount st i ;;
      populate fuel decodedPackets sourceCount st' rest
  end.

(** [sourcePackets.find(p => p !== null)?.length || MAX_PAYLOAD]. *)
Definition packetSizeOf (sourcePackets : slots) : Z :=
  match find (fun p => match p with Some _ => true | None => false end)
          sourcePackets with
  | Some (Some p) => if len p =? 0 then MAX_PAYLOAD else len p
  | _ => MAX_PAYLOAD
  end.

(** The check that every source was recovered; the message names the first
    one that was not. *)
Fixpoint checkRecovered (recovered : slots) (ixs : list nat) : outcome unit :=
  match ixs with
  | [] => Ok tt
  | i :: rest =>
      match present recovered i with
      | Some _ => checkRecovered recovered rest
      | None =>
          Throw (Thrown ("Failed to recover source packet "
                           ++ NilEmpty.string_of_uint (Nat.to_uint i)
                           ++ ". Too many corrupted frames."))
      end
  end.

(** [for (const pkt of recovered) ... pkt!.length]: a null entry is a
    TypeError. *)
Fixpoint packetsOf (recovered : slots) : outcome (list Uint8Array) :=
  match recovered with
  | [] => Ok []
  | Some p :: rest => ps <- packetsOf rest ;; Ok (p :: ps)
  | None :: _ => Throw TypeError
  end.

(** The copy loop of the unencrypted path, with its [break]. *)
Fixpoint copyOut (recovered : list Uint8Array) (fileBytes : Uint8Array)
    (fileSize offset : Z) : outcome Uint8Array :=
  match recovered with
  | [] => Ok fileBytes
  | pkt :: rest =>
      let copyLen := Z.min (len pkt) (fileSize - offset) in
      fileBytes <- set fileBytes (slice pkt 0 copyLen) offset ;;
      let offset := offset + copyLen in
      if fileSize <=? offset then Ok fileBytes
      else copyOut rest fileBytes fileSize offset
  end.

Section WithCrypto.

(** [decrypt] of crypto.ts, which rests on the platform's Web Crypto. *)
Variable decrypt : Uint8Array -> Text.jsstring -> outcome Uint8Array.

(** [#decode] for one input file, from the extracted frames on: [frames]
    holds the pixel data of each frame file in order ([None] where the PNG
    could not be read into pixels).  [fuel] bounds the draws of each
    [deriveRepairSources] call and [passes] the rounds of [recoverPackets]. *)
Definition decodeFrames (fuel passes : nat) (frames : list (option Uint8Array))
    (password : option Text.jsstring) : outcome (Text.jsstring * Uint8Array) :=
  decodedPackets <- collect (map decodeFrame frames) ;;
  if forallb (fun e => match e with Some _ => false | None => true end)
       decodedPackets
  then Throw (Thrown "No valid YouTube Storage frames found in video.")
  else
    metadata <- readMetadata (getEntry decodedPackets 0) ;;
    let totalFrames :=
      match getEntry decodedPackets 0 with
      | Some metaEntry => totalPackets (header metaEntry)
      | None => 0
      end in
    let (sourceCount, repairCount) := countFrames decodedPackets totalFrames in
    st <- populate fuel decodedPackets sourceCount
            {| sourcePackets := repeat None (Z.to_nat sourceCount);
               repairPacketsDecoded := [];
               sourceIdx := 0; repairIdx := 0 |}
            (seq 1 (Z.to_nat (totalFrames - 1))) ;;
    let packetSize := packetSizeOf (sourcePackets st) in
    recovered <- recoverPackets passes (sourcePackets st)
                   (repairPacketsDecoded st) packetSize ;;
    _ <- checkRecovered recovered (seq 0 (Z.to_nat sourceCount)) ;;
    pkts <- packetsOf recovered ;;
    if isEncrypted metadata then
      let encryptedBuf := List.concat pkts in
      let expectedEncSize := fileSize metadata + 44 in
      let encryptedData := slice encryptedBuf 0 expectedEncSize in
      match password with
      | None => Throw (Thrown "File is encrypted. Provide --password argument.")
      | Some pw =>
          fileBytes <- decrypt encryptedData pw ;;
          Ok (filename metadata, fileBytes)
      end
    else
      fileBytes <- copyOut pkts (alloc (fileSize metadata)) (fileSize metadata) 0 ;;
      Ok (filename metadata, fileBytes).

End WithCrypto.

End Decoder.

(* ================================================================== *)
(** ** Notions used to state and prove the properties *)

Module Aux.
Import JS TypedArray Packets.

(** The 19 header bytes that [encodePacket] writes. *)
Definition header_bytes (i t n c f : Z) : list Z :=
  le_bytes 2 MAGIC ++ le_bytes 1 f ++ le_bytes 4 i ++ le_bytes 4 t
    ++ le_bytes 4 n ++ le_bytes 4 c.

(** The number of pixels of a frame. *)
Definition pixelCount : nat := Z.to_nat (FRAME_WIDTH * FRAME_HEIGHT).

(** The layout of the metadata payload: length-prefixed name, file size,
    length-prefixed media type, encrypted flag. *)
Definition metadata_bytes (nameBytes : list Z) (size : Z) (mimeBytes : list Z)
    (enc : bool) : list Z :=
  le_bytes 4 (len nameBytes) ++ nameBytes ++ le_bytes 4 size
    ++ le_bytes 4 (len mimeBytes) ++ mimeBytes ++ [if enc then 1 else 0].

(** What a string becomes on its way through [TextEncoder] and
    [TextDecoder]: unpaired surrogates are replaced by U+FFFD, and a leading
    U+FEFF is dropped. *)
Definition sanitize (s : Text.jsstring) : Text.jsstring :=
  map (fun c => if Text.is_surrogate c then 0xFFFD else c) s.

Definition strip_bom (s : Text.jsstring) : Text.jsstring :=
  match s with
  | c :: rest => if c =? 0xFEFF then rest else c :: rest
  | [] => []
  end.

(** Every element is a code point. *)
Definition code_points (s : Text.jsstring) : Prop :=
  forallb (fun c => (0 <=? c) && (c <=? 0x10FFFF)) s = true.

(** An element of a repair's source set that is an index below [n]. *)
Definition index_in (n : Z) (x : JS.number) : Prop :=
  exists z, x = JS.Int z /\ 0 <= z < n.

(** The array index an element of the source set stands for. *)
Definition toIndex (x : JS.number) : nat :=
  match x with
  | JS.Int z => Z.to_nat z
  | JS.NaN => 0%nat
  end.

(** A repair packet built over [sources]: distinct indices in range, and
    the XOR of the sources they name as data. *)
Definition repair_of (sources : list Uint8Array) (p : Fountain.RepairPacket) : Prop :=
  NoDup (Fountain.sourceIndices p) /\
  Forall (fun j => (j < List.length sources)%nat) (Fountain.sourceIndices p) /\
  Fountain.data p =
    fold_left Fountain.xorBytes
      (map (fun j => nth j sources []) (Fountain.sourceIndices p))
      (repeat 0 (List.length (hd [] sources))).

(** The source list with slot [i] lost. *)
Definition withLoss (i : nat) (sources : list Uint8Array) : Fountain.slots :=
  map Some (firstn i sources) ++ None :: map Some (skipn (S i) sources).

(** Some repair packet has [i] in its source set. *)
Definition covers (i : nat) (repairs : list Fountain.RepairPacket) : bool :=
  existsb (fun p => existsb (Nat.eqb i) (Fountain.sourceIndices p)) repairs.

(** The source sets of the repair packets made for [n] sources at the
    default ratio: [getRepairSources r n] for each repair index [r]. *)
Definition sourceSets (fuel : nat) (n : Z) : outcome (list (list JS.number)) :=
  Handler.collect
    (map (fun r => Fountain.getRepairSources fuel (Z.of_nat r) n)
       (seq 0 (Z.to_nat (Z.max 1 (JS.ceil_mul n JS.d0_3))))).

(** The sources that no repair packet covers, for 4, 16 and 64 sources. *)
Definition uncovered (n : nat) : list nat :=
  if (n =? 4)%nat then []
  else if (n =? 16)%nat then [0; 11; 12]%nat
  else [7; 10; 14; 16; 17; 19; 20; 24; 27; 35; 37; 39; 41; 42; 44; 47; 53; 63]%nat.

(** All chunks have [L] bytes. *)
Definition chunks_ok (L : nat) (sources : list Uint8Array) : Prop :=
  Forall (fun p => List.length p = L /\ bytes_ok p) sources.

(** The frame buffer [encodePacket] returns for a payload that fits. *)
Definition frameOf (i t : Z) (p : Uint8Array) (f : Z) : Uint8Array :=
  header_bytes i t (len p) (Crc32.crc32 p) f ++ p
    ++ repeat 0 (Z.to_nat (MAX_PAYLOAD - len p)).

(** The entry the frame loop of [#decode] stores for such a frame. *)
Definition entryOf (i t : Z) (p : Uint8Array) (f : Z) : Handler.DecodedFrame :=
  {| Handler.header :=
       {| magic := MAGIC; flags := f mod 256;
          packetIndex := i mod 2 ^ 32; totalPackets := t mod 2 ^ 32;
          payloadLength := len p; checksum := Crc32.crc32 p |};
     Handler.payload := p;
     Handler.isValid := true |}.

(** What frame entry [e] puts in a slot of [sourcePackets]: a valid source
    entry puts its payload there; a missing entry and a source entry that
    fails its checksum test leave the slot empty. *)
Definition delivers (e : option Handler.DecodedFrame) (slot : option Uint8Array)
    : Prop :=
  match slot with
  | Some p =>
      exists d, e = Some d /\ Decoder.isRepair d = false /\
                Handler.isValid d = true /\ Handler.payload d = p
  | None =>
      match e with
      | None => True
      | Some d => Decoder.isRepair d = false /\ Handler.isValid d = false
      end
  end.

(** The sources as the decoder holds them ([ps], cut to their length) and as
    the encoder combined them ([cs], padded with zeros). *)
Definition padded_view (ps cs : list Uint8Array) : Prop :=
  List.length ps = List.length cs /\
  forall j, (j < List.length cs)%nat ->
    exists k, nth j cs [] = nth j ps [] ++ repeat 0 k.

(** The part of the file that source chunk [k] carries, the chunk itself
    (the part padded with zeros), and the number of chunks. *)
Definition piece (fileBytes : Uint8Array) (k : nat) : Uint8Array :=
  slice fileBytes (Z.of_nat k * MAX_PAYLOAD)
    (Z.min (Z.of_nat k * MAX_PAYLOAD + MAX_PAYLOAD) (len fileBytes)).

Definition chunkOf (fileBytes : Uint8Array) (k : nat) : Uint8Array :=
  piece fileBytes k
    ++ repeat 0 (Z.to_nat MAX_PAYLOAD - List.length (piece fileBytes k)).

Definition chunkCount (fileBytes : Uint8Array) : nat :=
  Z.to_nat ((len fileBytes + MAX_PAYLOAD - 1) / MAX_PAYLOAD).

End Aux.

(* ================================================================== *)
(** * Properties *)

(** ** Typed arrays *)

Section TypedArrayFacts.
Import TypedArray.

Lemma len_nonneg (a : Uint8Array) : 0 <= len a.
Proof. unfold len. lia. Qed.

Lemma len_app (a b : Uint8Array) : len (a ++ b) = len a + len b.
Proof. unfold len. rewrite length_app. lia. Qed.

Lemma len_alloc (n : Z) : 0 <= n -> len (alloc n) = n.
Proof. intros H. unfold len, alloc. rewrite repeat_length. lia. Qed.

Lemma le_bytes_1 (v : Z) : le_bytes 1 v = [v mod 256].
Proof. unfold le_bytes. simpl. now rewrite Z.div_1_r. Qed.

Lemma le_bytes_2 (v : Z) : le_bytes 2 v = [v mod 256; (v / 256) mod 256].
Proof. unfold le_bytes. simpl. now rewrite Z.div_1_r. Qed.

Lemma le_bytes_4 (v : Z) :
  le_bytes 4 v =
  [v mod 256; (v / 256) mod 256; (v / 65536) mod 256; (v / 16777216) mod 256].
Proof. unfold le_bytes. simpl. now rewrite Z.div_1_r. Qed.

Lemma length_le_bytes (n : nat) (v : Z) : List.length (le_bytes n v) = n.
Proof. unfold le_bytes. now rewrite length_map, length_seq. Qed.

Lemma le_value_1 (v : Z) : 0 <= v < 256 -> le_value [v mod 256] = v.
Proof. intros H. unfold le_value. cbn [fold_right]. rewrite Z.mod_small; lia. Qed.

Lemma le_value_2 (v : Z) :
  0 <= v < 65536 -> le_value [v mod 256; (v / 256) mod 256] = v.
Proof.
  intros H. unfold le_value. cbn [fold_right].
  Z.div_mod_to_equations. lia.
Qed.

Lemma le_value_4 (v : Z) :
  0 <= v < 2 ^ 32 ->
  le_value [v mod 256; (v / 256) mod 256; (v / 65536) mod 256;
            (v / 16777216) mod 256] = v.
Proof.
  intros H. change (2 ^ 32) with 4294967296 in H. unfold le_value.
  cbn [fold_right]. Z.div_mod_to_equations. lia.
Qed.

Lemma skipn_repeat {A : Type} (x : A) (k n : nat) :
  skipn k (repeat x n) = repeat x (n - k).
Proof.
  revert n. induction k as [|k IH]; intros n.
  - now rewrite Nat.sub_0_r.
  - destruct n as [|n]; [reflexivity|]. simpl. apply IH.
Qed.

Lemma write_at_app_l (a b : Uint8Array) (off : Z) (bs : list Z) :
  (Z.to_nat off + List.length bs <= List.length a)%nat ->
  write_at (a ++ b) off bs = write_at a off bs ++ b.
Proof.
  intros H. unfold write_at.
  rewrite firstn_app, skipn_app.
  replace (Z.to_nat off - List.length a)%nat with 0%nat by lia.
  replace (Z.to_nat off + List.length bs - List.length a)%nat with 0%nat by lia.
  simpl. now rewrite app_nil_r, <- !app_assoc.
Qed.

Lemma length_write_at (a : Uint8Array) (off : Z) (bs : list Z) :
  (Z.to_nat off + List.length bs <= List.length a)%nat ->
  List.length (write_at a off bs) = List.length a.
Proof.
  intros H. unfold write_at.
  rewrite !length_app, length_firstn, length_skipn. lia.
Qed.

Lemma setUint_app_l (n : nat) (a b : Uint8Array) (off v : Z) :
  0 <= off -> off + Z.of_nat n <= len a ->
  setUint n (a ++ b) off v = Ok (write_at a off (le_bytes n v) ++ b).
Proof.
  intros H0 H1. unfold setUint.
  pose proof (len_nonneg b). rewrite len_app.
  destruct (off <? 0) eqn:E0; [apply Z.ltb_lt in E0; lia|].
  destruct (len a + len b <? off + Z.of_nat n) eqn:E1; [apply Z.ltb_lt in E1; lia|].
  simpl. f_equal. apply write_at_app_l.
  rewrite length_le_bytes. unfold len in H1. lia.
Qed.

Lemma getUint_app_l (n : nat) (a b : Uint8Array) (off : Z) :
  0 <= off -> off + Z.of_nat n <= len a ->
  getUint n (a ++ b) off = Ok (le_value (firstn n (skipn (Z.to_nat off) a))).
Proof.
  intros H0 H1. unfold getUint.
  pose proof (len_nonneg b). rewrite len_app.
  destruct (off <? 0) eqn:E0; [apply Z.ltb_lt in E0; lia|].
  destruct (len a + len b <? off + Z.of_nat n) eqn:E1; [apply Z.ltb_lt in E1; lia|].
  simpl. f_equal. f_equal. unfold len in H1.
  rewrite skipn_app, firstn_app, length_skipn.
  replace (Z.to_nat off - List.length a)%nat with 0%nat by lia.
  replace (n - (List.length a - Z.to_nat off))%nat with 0%nat by lia.
  simpl. now rewrite app_nil_r.
Qed.

Lemma slice_app_mid (a b c : Uint8Array) :
  slice (a ++ b ++ c) (len a) (len a + len b) = b.
Proof.
  unfold slice, len.
  replace (Z.to_nat (Z.of_nat (List.length a) + Z.of_nat (List.length b)
                     - Z.of_nat (List.length a))) with (List.length b) by lia.
  rewrite Nat2Z.id, skipn_app, skipn_all, Nat.sub_diag. simpl.
  rewrite firstn_app, Nat.sub_diag, firstn_all. simpl. now rewrite app_nil_r.
Qed.

Lemma length_slice (a : Uint8Array) (s e : Z) :
  0 <= s ->
  len (slice a s e) = Z.max 0 (Z.min (e - s) (len a - s)).
Proof.
  intros H. unfold slice, len. rewrite length_firstn, length_skipn. lia.
Qed.
End TypedArrayFacts.

(** ** 32-bit coercions *)

Section NumberFacts.
Import JS.

Lemma toUint32_range (x : Z) : 0 <= toUint32 x < 2 ^ 32.
Proof. unfold toUint32. apply Z.mod_pos_bound. lia. Qed.

Lemma toInt32_range (x : Z) : - 2 ^ 31 <= toInt32 x < 2 ^ 31.
Proof.
  unfold toInt32. pose proof (Z.mod_pos_bound (x + 2 ^ 31) (2 ^ 32)). lia.
Qed.

Lemma toUint32_small (x : Z) : 0 <= x < 2 ^ 32 -> toUint32 x = x.
Proof. intros H. unfold toUint32. now apply Z.mod_small. Qed.

Lemma toInt32_small (x : Z) : - 2 ^ 31 <= x < 2 ^ 31 -> toInt32 x = x.
Proof. intros H. unfold toInt32. rewrite Z.mod_small; lia. Qed.

Lemma toUint32_toInt32 (x : Z) : toUint32 (toInt32 x) = toUint32 x.
Proof.
  unfold toUint32, toInt32.
  rewrite (Z.mod_eq (x + 2 ^ 31) (2 ^ 32)) by lia.
  replace (x + 2 ^ 31 - 2 ^ 32 * ((x + 2 ^ 31) / 2 ^ 32) - 2 ^ 31)
    with (x + (- ((x + 2 ^ 31) / 2 ^ 32)) * 2 ^ 32) by ring.
  apply Z_mod_plus_full.
Qed.

Lemma toUint32_idem (x : Z) : toUint32 (toUint32 x) = toUint32 x.
Proof. apply toUint32_small, toUint32_range. Qed.

Lemma toUint32_land_ones (x : Z) : toUint32 x = Z.land x (Z.ones 32).
Proof. unfold toUint32. now rewrite Z.land_ones by lia. Qed.

Lemma toUint32_lxor (a b : Z) :
  toUint32 (Z.lxor a b) = Z.lxor (toUint32 a) (toUint32 b).
Proof.
  rewrite !toUint32_land_ones. apply Z.bits_inj'. intros n Hn.
  rewrite Z.lxor_spec, !Z.land_spec, Z.lxor_spec.
  destruct (Z.testbit (Z.ones 32) n); now rewrite ?andb_true_r, ?andb_false_r.
Qed.

Lemma toUint32_xor32 (a b : Z) :
  toUint32 (xor32 a b) = Z.lxor (toUint32 a) (toUint32 b).
Proof. unfold xor32. now rewrite toUint32_lxor, !toUint32_toInt32. Qed.

Lemma shr32_div (a k : Z) : 0 <= k < 32 -> shr32 a k = toUint32 a / 2 ^ k.
Proof.
  intros H. unfold shr32. rewrite Z.mod_small by lia.
  apply Z.shiftr_div_pow2. lia.
Qed.

Lemma shr32_0 (a : Z) : shr32 a 0 = toUint32 a.
Proof. rewrite shr32_div by lia. apply Z.div_1_r. Qed.

Lemma lxor_bound (n a b : Z) :
  0 <= n -> 0 <= a < 2 ^ n -> 0 <= b < 2 ^ n -> 0 <= Z.lxor a b < 2 ^ n.
Proof.
  intros Hn Ha Hb.
  assert (H0 : 0 <= Z.lxor a b) by (apply Z.lxor_nonneg; lia).
  split; [exact H0|].
  destruct (Z.eq_dec (Z.lxor a b) 0) as [E|E]; [rewrite E; lia|].
  apply Z.log2_lt_pow2; [lia|].
  eapply Z.le_lt_trans; [apply Z.log2_lxor; lia|].
  destruct (Z.eq_dec a 0) as [Ea|Ea]; destruct (Z.eq_dec b 0) as [Eb|Eb]; subst;
    try (rewrite Z.lxor_0_l in E); try (rewrite Z.lxor_0_r in E); try congruence.
  - change (Z.log2 0) with 0. rewrite Z.max_r by apply Z.log2_nonneg.
    apply Z.log2_lt_pow2; lia.
  - change (Z.log2 0) with 0. rewrite Z.max_l by apply Z.log2_nonneg.
    apply Z.log2_lt_pow2; lia.
  - apply Z.max_lub_lt; apply Z.log2_lt_pow2; lia.
Qed.

Lemma xor32_small (a b : Z) :
  0 <= a < 2 ^ 31 -> 0 <= b < 2 ^ 31 -> xor32 a b = Z.lxor a b.
Proof. intros Ha Hb. unfold xor32. rewrite !toInt32_small; lia. Qed.

Lemma testbit_high (k m n : Z) :
  0 <= k -> 0 <= m < 2 ^ k -> k <= n -> Z.testbit m n = false.
Proof.
  intros Hk Hm Hn. rewrite <- (Z.mod_small m (2 ^ k)) by lia.
  apply Z.mod_pow2_bits_high. lia.
Qed.

Lemma testbit_toUint32_low (a n : Z) :
  0 <= n < 32 -> Z.testbit (toUint32 a) n = Z.testbit a n.
Proof. intros H. unfold toUint32. apply Z.mod_pow2_bits_low. lia. Qed.

Lemma testbit_toUint32_high (a n : Z) :
  32 <= n -> Z.testbit (toUint32 a) n = false.
Proof. intros H. unfold toUint32. apply Z.mod_pow2_bits_high. lia. Qed.

Lemma testbit_toInt32_low (a n : Z) :
  0 <= n < 32 -> Z.testbit (toInt32 a) n = Z.testbit a n.
Proof.
  intros H. rewrite <- (testbit_toUint32_low (toInt32 a)) by lia.
  rewrite toUint32_toInt32. now apply testbit_toUint32_low.
Qed.

Lemma and32_low (a m : Z) :
  0 <= m < 2 ^ 31 -> and32 a m = Z.land (toUint32 a) m.
Proof.
  intros Hm. unfold and32. rewrite (toInt32_small m) by lia.
  apply Z.bits_inj'. intros n Hn. rewrite !Z.land_spec.
  destruct (Z.lt_ge_cases n 32) as [Hlt|Hge].
  - now rewrite testbit_toInt32_low, testbit_toUint32_low by lia.
  - rewrite (testbit_high 31 m n) by lia. now rewrite !andb_false_r.
Qed.
End NumberFacts.

(** ** Packets *)

Section PacketFacts.
Import JS TypedArray Packets Aux.

Lemma FRAME_BYTES_value : FRAME_BYTES = 6220800.
Proof. reflexivity. Qed.

Lemma MAX_PAYLOAD_value : MAX_PAYLOAD = 6220781.
Proof. reflexivity. Qed.

Lemma crc32_range (data : list Z) : 0 <= Crc32.crc32 data < 2 ^ 32.
Proof.
  unfold Crc32.crc32, shr32. change (0 mod 32) with 0.
  rewrite Z.shiftr_0_r. unfold toUint32. apply Z.mod_pos_bound. lia.
Qed.

Lemma length_header_bytes (i t n c f : Z) :
  List.length (header_bytes i t n c f) = 19%nat.
Proof. unfold header_bytes. now rewrite !length_app, !length_le_bytes. Qed.

Lemma len_header_bytes (i t n c f : Z) :
  len (header_bytes i t n c f) = HEADER_SIZE.
Proof. unfold len at 1. now rewrite length_header_bytes. Qed.

Lemma encodePacket_shape (i t : Z) (p : Uint8Array) (f : Z) :
  len p <= MAX_PAYLOAD ->
  encodePacket i t p f =
  Ok (header_bytes i t (len p) (Crc32.crc32 p) f ++ p
        ++ repeat 0 (Z.to_nat (MAX_PAYLOAD - len p))).
Proof.
  intros Hp. unfold encodePacket, alloc.
  assert (Hsplit : repeat 0 (Z.to_nat FRAME_BYTES)
                   = repeat 0 19 ++ repeat 0 (Z.to_nat MAX_PAYLOAD)).
  { replace (Z.to_nat FRAME_BYTES) with (19 + Z.to_nat MAX_PAYLOAD)%nat
      by (rewrite MAX_PAYLOAD_value, FRAME_BYTES_value; lia).
    apply repeat_app. }
  rewrite Hsplit. clear Hsplit.
  generalize (Crc32.crc32 p). intros c.
  remember (repeat 0 (Z.to_nat MAX_PAYLOAD)) as tail eqn:Htail.
  unfold header_bytes.
  rewrite !le_bytes_1, !le_bytes_2, !le_bytes_4.
  set (i0 := i mod 256). set (i1 := (i / 256) mod 256).
  set (i2 := (i / 65536) mod 256). set (i3 := (i / 16777216) mod 256).
  set (t0 := t mod 256). set (t1 := (t / 256) mod 256).
  set (t2 := (t / 65536) mod 256). set (t3 := (t / 16777216) mod 256).
  set (n0 := len p mod 256). set (n1 := (len p / 256) mod 256).
  set (n2 := (len p / 65536) mod 256). set (n3 := (len p / 16777216) mod 256).
  set (c0 := c mod 256). set (c1 := (c / 256) mod 256).
  set (c2 := (c / 65536) mod 256). set (c3 := (c / 16777216) mod 256).
  set (m0 := MAGIC mod 256). set (m1 := (MAGIC / 256) mod 256).
  set (f0 := f mod 256).
  rewrite setUint_app_l by (unfold len; simpl; lia).
  rewrite le_bytes_2. fold m0 m1. cbn [bind].
  change (write_at (repeat 0 19) 0 [m0; m1])
    with ([m0; m1] ++ repeat 0 17).
  rewrite setUint_app_l by (unfold len; simpl; lia).
  rewrite le_bytes_1. fold f0. cbn [bind].
  change (write_at ([m0; m1] ++ repeat 0 17) 2 [f0])
    with ([m0; m1; f0] ++ repeat 0 16).
  rewrite setUint_app_l by (unfold len; simpl; lia).
  rewrite le_bytes_4. fold i0 i1 i2 i3. cbn [bind].
  change (write_at ([m0; m1; f0] ++ repeat 0 16) 3 [i0; i1; i2; i3])
    with ([m0; m1; f0; i0; i1; i2; i3] ++ repeat 0 12).
  rewrite setUint_app_l by (unfold len; simpl; lia).
  rewrite le_bytes_4. fold t0 t1 t2 t3. cbn [bind].
  change (write_at ([m0; m1; f0; i0; i1; i2; i3] ++ repeat 0 12) 7 [t0; t1; t2; t3])
    with ([m0; m1; f0; i0; i1; i2; i3; t0; t1; t2; t3] ++ repeat 0 8).
  rewrite setUint_app_l by (unfold len; simpl; lia).
  rewrite le_bytes_4. fold n0 n1 n2 n3. cbn [bind].
  change (write_at ([m0; m1; f0; i0; i1; i2; i3; t0; t1; t2; t3] ++ repeat 0 8)
            11 [n0; n1; n2; n3])
    with ([m0; m1; f0; i0; i1; i2; i3; t0; t1; t2; t3; n0; n1; n2; n3]
            ++ repeat 0 4).
  rewrite setUint_app_l by (unfold len; simpl; lia).
  rewrite le_bytes_4. fold c0 c1 c2 c3. cbn [bind].
  change (write_at ([m0; m1; f0; i0; i1; i2; i3; t0; t1; t2; t3; n0; n1; n2; n3]
                      ++ repeat 0 4) 15 [c0; c1; c2; c3])
    with [m0; m1; f0; i0; i1; i2; i3; t0; t1; t2; t3; n0; n1; n2; n3;
          c0; c1; c2; c3].
  set (hdr := [m0; m1; f0; i0; i1; i2; i3; t0; t1; t2; t3; n0; n1; n2; n3;
               c0; c1; c2; c3]).
  change ([m0; m1] ++ [f0] ++ [i0; i1; i2; i3] ++ [t0; t1; t2; t3]
            ++ [n0; n1; n2; n3] ++ [c0; c1; c2; c3]) with hdr.
  assert (Hh : List.length hdr = 19%nat) by reflexivity.
  assert (Ht : List.length tail = Z.to_nat MAX_PAYLOAD)
    by (subst tail; apply repeat_length).
  unfold set. rewrite len_app. unfold len at 1 2. rewrite Hh, Ht.
  pose proof (len_nonneg p) as Hp0.
  rewrite MAX_PAYLOAD_value in *. change HEADER_SIZE with 19.
  destruct (_ <? _) eqn:E; [apply Z.ltb_lt in E; lia|].
  f_equal. unfold write_at.
  change (Z.to_nat 19) with 19%nat.
  rewrite firstn_app, Hh, Nat.sub_diag, firstn_all2 by lia.
  simpl firstn. rewrite app_nil_r. f_equal. f_equal.
  rewrite skipn_app, Hh, skipn_all2 by lia. simpl app.
  replace (19 + List.length p - 19)%nat with (List.length p) by lia.
  subst tail. rewrite skipn_repeat. f_equal. unfold len. lia.
Qed.
End PacketFacts.

Section PacketFacts2.
Import JS TypedArray Packets Aux.

Lemma getUint_ok (n : nat) (a : Uint8Array) (off : Z) :
  0 <= off -> off + Z.of_nat n <= len a ->
  getUint n a off = Ok (le_value (firstn n (skipn (Z.to_nat off) a))).
Proof.
  intros H0 H1. rewrite <- (app_nil_r a) at 1.
  now apply getUint_app_l.
Qed.

Lemma is_byte_range (b : Z) : is_byte b = true <-> 0 <= b < 256.
Proof. unfold is_byte. rewrite andb_true_iff, Z.leb_le, Z.ltb_lt. tauto. Qed.

Lemma le_value_nonneg (bs : list Z) : bytes_ok bs -> 0 <= le_value bs.
Proof.
  unfold bytes_ok. induction bs as [|b bs IH]; intros H; [cbn; lia|].
  cbn [forallb] in H. apply andb_prop in H. destruct H as [Hb Hbs].
  apply is_byte_range in Hb. specialize (IH Hbs).
  change (le_value (b :: bs)) with (b + 256 * le_value bs). lia.
Qed.

Lemma bytes_ok_firstn (n : nat) (a : Uint8Array) : bytes_ok a -> bytes_ok (firstn n a).
Proof.
  unfold bytes_ok. intros H. rewrite <- (firstn_skipn n a), forallb_app in H.
  now apply andb_prop in H.
Qed.

Lemma bytes_ok_skipn (n : nat) (a : Uint8Array) : bytes_ok a -> bytes_ok (skipn n a).
Proof.
  unfold bytes_ok. intros H. rewrite <- (firstn_skipn n a), forallb_app in H.
  now apply andb_prop in H.
Qed.

(** What [decodePacket] returns once the length and magic checks pass. *)
Lemma decodePacket_ok (raw : Uint8Array) :
  HEADER_SIZE <= len raw ->
  getUint 2 raw 0 = Ok MAGIC ->
  decodePacket raw =
  Ok (Some
        ({| magic := MAGIC;
            flags := le_value (firstn 1 (skipn 2 raw));
            packetIndex := le_value (firstn 4 (skipn 3 raw));
            totalPackets := le_value (firstn 4 (skipn 7 raw));
            payloadLength := le_value (firstn 4 (skipn 11 raw));
            checksum := le_value (firstn 4 (skipn 15 raw)) |},
         slice raw HEADER_SIZE
           (HEADER_SIZE + le_value (firstn 4 (skipn 11 raw))))).
Proof.
  intros Hlen Hmagic. unfold decodePacket. change HEADER_SIZE with 19 in *.
  destruct (len raw <? 19) eqn:E; [apply Z.ltb_lt in E; lia|].
  rewrite Hmagic. cbn [bind]. rewrite Z.eqb_refl. cbn [negb].
  rewrite !getUint_ok by (simpl Z.of_nat; lia).
  reflexivity.
Qed.
End PacketFacts2.

Section PacketClaims.
Import JS TypedArray Packets Aux.

(** C4: a payload of at most [MAX_PAYLOAD] bytes is framed into exactly
  [FRAME_BYTES] bytes; decoding the frame succeeds and gives back the magic
  [0xDB02], the flags, the packet index, the total, the payload length, the
  CRC-32 of the payload and the payload itself; every byte after header and
  payload is zero. *)
Theorem encodePacket_decodePacket_roundtrip (i t : Z) (p : Uint8Array) (f : Z) :
len p <= MAX_PAYLOAD ->
0 <= i < 2 ^ 32 -> 0 <= t < 2 ^ 32 -> 0 <= f < 256 ->
exists buf,
  encodePacket i t p f = Ok buf /\
  len buf = FRAME_BYTES /\
  decodePacket buf =
    Ok (Some ({| magic := 0xDB02; flags := f; packetIndex := i;
                 totalPackets := t; payloadLength := len p;
                 checksum := Crc32.crc32 p |}, p)) /\
  forall k, HEADER_SIZE + len p <= k < FRAME_BYTES ->
            nth_error buf (Z.to_nat k) = Some 0.
Proof.
intros Hp Hi Ht Hf.
pose proof (len_nonneg p) as Hp0.
pose proof (crc32_range p) as Hc.
pose proof (length_header_bytes i t (len p) (Crc32.crc32 p) f) as Hh.
eexists. split; [apply encodePacket_shape; exact Hp|].
assert (Hlen : len (header_bytes i t (len p) (Crc32.crc32 p) f ++ p
                      ++ repeat 0 (Z.to_nat (MAX_PAYLOAD - len p))) = FRAME_BYTES).
{ unfold len in *. rewrite !length_app, Hh, repeat_length.
  rewrite MAX_PAYLOAD_value in *. rewrite FRAME_BYTES_value. lia. }
split; [exact Hlen|]. split.
- rewrite decodePacket_ok.
  + assert (Hs : slice (header_bytes i t (len p) (Crc32.crc32 p) f ++ p
                          ++ repeat 0 (Z.to_nat (MAX_PAYLOAD - len p)))
                   HEADER_SIZE
                   (HEADER_SIZE + len p) = p).
    { rewrite <- (len_header_bytes i t (len p) (Crc32.crc32 p) f).
      apply slice_app_mid. }
    revert Hs. generalize (repeat 0 (Z.to_nat (MAX_PAYLOAD - len p))). intros z.
    unfold header_bytes. rewrite !le_bytes_1, !le_bytes_2, !le_bytes_4.
    cbn [app skipn firstn].
    rewrite le_value_1 by exact Hf.
    rewrite MAX_PAYLOAD_value in Hp.
    rewrite (le_value_4 i), (le_value_4 t), (le_value_4 (len p)),
      (le_value_4 (Crc32.crc32 p)) by lia.
    intros Hs. rewrite Hs. reflexivity.
  + rewrite Hlen, FRAME_BYTES_value. change HEADER_SIZE with 19. lia.
  + rewrite getUint_app_l.
    * unfold header_bytes. rewrite le_bytes_2. reflexivity.
    * lia.
    * rewrite len_header_bytes. change HEADER_SIZE with 19. simpl. lia.
- intros k Hk. change HEADER_SIZE with 19 in Hk.
  rewrite app_assoc, nth_error_app2;
    rewrite length_app, Hh; unfold len in *; [|lia].
  rewrite nth_error_repeat; [reflexivity|].
  rewrite MAX_PAYLOAD_value. rewrite FRAME_BYTES_value in Hk. lia.
Qed.

Lemma encodePacket_decodePacket_roundtrip_witness :
exists buf,
  encodePacket 1 3 [104; 105] 0 = Ok buf /\
  len buf = FRAME_BYTES /\
  decodePacket buf =
    Ok (Some ({| magic := 0xDB02; flags := 0; packetIndex := 1;
                 totalPackets := 3; payloadLength := len [104; 105];
                 checksum := Crc32.crc32 [104; 105] |}, [104; 105])) /\
  forall k, HEADER_SIZE + len [104; 105] <= k < FRAME_BYTES ->
            nth_error buf (Z.to_nat k) = Some 0.
Proof.
apply (encodePacket_decodePacket_roundtrip 1 3 [104; 105] 0).
- vm_compute. discriminate.
- lia.
- lia.
- lia.
Defined.

(** C10: a buffer of at least 19 bytes that starts with the magic always
  decodes to a packet, without an exception; the payload returned has
  [min (payloadLength, raw.length - 19)] bytes, so a payload length field
  larger than what follows the header gives a shorter payload, not a
  failure. *)
Theorem decodePacket_truncates_payload (raw : Uint8Array) :
bytes_ok raw ->
19 <= len raw ->
getUint 2 raw 0 = Ok 0xDB02 ->
exists h p,
  decodePacket raw = Ok (Some (h, p)) /\
  getUint 4 raw 11 = Ok (payloadLength h) /\
  len p = Z.min (payloadLength h) (len raw - 19).
Proof.
intros Hb Hlen Hmagic.
rewrite (decodePacket_ok raw Hlen Hmagic).
do 2 eexists. split; [reflexivity|]. cbn [payloadLength].
split; [apply getUint_ok; simpl Z.of_nat; lia|].
rewrite length_slice by (change HEADER_SIZE with 19; lia).
change HEADER_SIZE with 19.
pose proof (le_value_nonneg (firstn 4 (skipn 11 raw))
              (bytes_ok_firstn _ _ (bytes_ok_skipn _ _ Hb))).
lia.
Qed.

Lemma decodePacket_truncates_payload_witness :
exists h p,
  decodePacket [2; 219; 0; 0; 0; 0; 0; 1; 0; 0; 0; 200; 0; 0; 0; 0; 0; 0; 0; 7; 8]
    = Ok (Some (h, p)) /\
  getUint 4 [2; 219; 0; 0; 0; 0; 0; 1; 0; 0; 0; 200; 0; 0; 0; 0; 0; 0; 0; 7; 8] 11
    = Ok (payloadLength h) /\
  len p = Z.min (payloadLength h)
            (len [2; 219; 0; 0; 0; 0; 0; 1; 0; 0; 0; 200; 0; 0; 0; 0; 0; 0; 0; 7; 8] - 19).
Proof.
apply (decodePacket_truncates_payload
         [2; 219; 0; 0; 0; 0; 0; 1; 0; 0; 0; 200; 0; 0; 0; 0; 0; 0; 0; 7; 8]).
- reflexivity.
- vm_compute. discriminate.
- reflexivity.
Defined.

End PacketClaims.

Section PacketMore.
Import JS TypedArray Packets Aux.

(** After the six header writes only the copy of the payload can fail. *)
Lemma encodePacket_header_then_set (i t : Z) (p : Uint8Array) (f : Z) :
  encodePacket i t p f =
  set (header_bytes i t (len p) (Crc32.crc32 p) f
         ++ repeat 0 (Z.to_nat MAX_PAYLOAD)) p HEADER_SIZE.
Proof.
  unfold encodePacket, alloc.
  assert (Hsplit : repeat 0 (Z.to_nat FRAME_BYTES)
                   = repeat 0 19 ++ repeat 0 (Z.to_nat MAX_PAYLOAD)).
  { replace (Z.to_nat FRAME_BYTES) with (19 + Z.to_nat MAX_PAYLOAD)%nat
      by (rewrite MAX_PAYLOAD_value, FRAME_BYTES_value; lia).
    apply repeat_app. }
  rewrite Hsplit. clear Hsplit.
  generalize (Crc32.crc32 p). intros c.
  remember (repeat 0 (Z.to_nat MAX_PAYLOAD)) as tail eqn:Htail.
  unfold header_bytes.
  rewrite !le_bytes_1, !le_bytes_2, !le_bytes_4.
  set (i0 := i mod 256). set (i1 := (i / 256) mod 256).
  set (i2 := (i / 65536) mod 256). set (i3 := (i / 16777216) mod 256).
  set (t0 := t mod 256). set (t1 := (t / 256) mod 256).
  set (t2 := (t / 65536) mod 256). set (t3 := (t / 16777216) mod 256).
  set (n0 := len p mod 256). set (n1 := (len p / 256) mod 256).
  set (n2 := (len p / 65536) mod 256). set (n3 := (len p / 16777216) mod 256).
  set (c0 := c mod 256). set (c1 := (c / 256) mod 256).
  set (c2 := (c / 65536) mod 256). set (c3 := (c / 16777216) mod 256).
  set (m0 := MAGIC mod 256). set (m1 := (MAGIC / 256) mod 256).
  set (f0 := f mod 256).
  rewrite setUint_app_l by (unfold len; simpl; lia).
  rewrite le_bytes_2. fold m0 m1. cbn [bind].
  change (write_at (repeat 0 19) 0 [m0; m1])
    with ([m0; m1] ++ repeat 0 17).
  rewrite setUint_app_l by (unfold len; simpl; lia).
  rewrite le_bytes_1. fold f0. cbn [bind].
  change (write_at ([m0; m1] ++ repeat 0 17) 2 [f0])
    with ([m0; m1; f0] ++ repeat 0 16).
  rewrite setUint_app_l by (unfold len; simpl; lia).
  rewrite le_bytes_4. fold i0 i1 i2 i3. cbn [bind].
  change (write_at ([m0; m1; f0] ++ repeat 0 16) 3 [i0; i1; i2; i3])
    with ([m0; m1; f0; i0; i1; i2; i3] ++ repeat 0 12).
  rewrite setUint_app_l by (unfold len; simpl; lia).
  rewrite le_bytes_4. fold t0 t1 t2 t3. cbn [bind].
  change (write_at ([m0; m1; f0; i0; i1; i2; i3] ++ repeat 0 12) 7 [t0; t1; t2; t3])
    with ([m0; m1; f0; i0; i1; i2; i3; t0; t1; t2; t3] ++ repeat 0 8).
  rewrite setUint_app_l by (unfold len; simpl; lia).
  rewrite le_bytes_4. fold n0 n1 n2 n3. cbn [bind].
  change (write_at ([m0; m1; f0; i0; i1; i2; i3; t0; t1; t2; t3] ++ repeat 0 8)
            11 [n0; n1; n2; n3])
    with ([m0; m1; f0; i0; i1; i2; i3; t0; t1; t2; t3; n0; n1; n2; n3]
            ++ repeat 0 4).
  rewrite setUint_app_l by (unfold len; simpl; lia).
  rewrite le_bytes_4. fold c0 c1 c2 c3. cbn [bind].
  change (write_at ([m0; m1; f0; i0; i1; i2; i3; t0; t1; t2; t3; n0; n1; n2; n3]
                      ++ repeat 0 4) 15 [c0; c1; c2; c3])
    with [m0; m1; f0; i0; i1; i2; i3; t0; t1; t2; t3; n0; n1; n2; n3;
          c0; c1; c2; c3].
  set (hdr := [m0; m1; f0; i0; i1; i2; i3; t0; t1; t2; t3; n0; n1; n2; n3;
               c0; c1; c2; c3]).
  change ([m0; m1] ++ [f0] ++ [i0; i1; i2; i3] ++ [t0; t1; t2; t3]
            ++ [n0; n1; n2; n3] ++ [c0; c1; c2; c3]) with hdr.
  reflexivity.
Qed.

Lemma le_value_1_mod (v : Z) : le_value [v mod 256] = v mod 256.
Proof. unfold le_value. cbn [fold_right]. lia. Qed.

Lemma le_value_4_mod (v : Z) :
  le_value [v mod 256; (v / 256) mod 256; (v / 65536) mod 256;
            (v / 16777216) mod 256] = v mod 2 ^ 32.
Proof.
  change (2 ^ 32) with 4294967296. unfold le_value. cbn [fold_right].
  Z.div_mod_to_equations. lia.
Qed.

Lemma bytes_ok_app (a b : Uint8Array) :
  bytes_ok (a ++ b) <-> bytes_ok a /\ bytes_ok b.
Proof. unfold bytes_ok. rewrite forallb_app. apply andb_true_iff. Qed.

Lemma bytes_ok_le_bytes (n : nat) (v : Z) : bytes_ok (le_bytes n v).
Proof.
  unfold bytes_ok, le_bytes. apply forallb_forall. intros x Hx.
  apply in_map_iff in Hx. destruct Hx as [k [<- _]].
  apply is_byte_range. apply Z.mod_pos_bound. lia.
Qed.

Lemma bytes_ok_header_bytes (i t n c f : Z) : bytes_ok (header_bytes i t n c f).
Proof.
  unfold header_bytes. repeat (apply bytes_ok_app; split);
    apply bytes_ok_le_bytes.
Qed.
End PacketMore.

(** ** Pixels *)

Section PixelFacts.
Import JS TypedArray Packets Aux.

Lemma length_flat_map_const {A B : Type} (f : A -> list B) (c : nat) (l : list A) :
  (forall x, List.length (f x) = c) ->
  List.length (flat_map f l) = (List.length l * c)%nat.
Proof.
  intros Hc. induction l as [|x l IH]; [reflexivity|].
  cbn [flat_map List.length]. rewrite length_app, Hc, IH. lia.
Qed.

Lemma nth_flat_map_const {A B : Type} (f : A -> list B) (c : nat) (l : list A)
    (i k : nat) (d : B) (d0 : A) :
  (forall x, List.length (f x) = c) ->
  (i < List.length l)%nat -> (k < c)%nat ->
  nth (i * c + k) (flat_map f l) d = nth k (f (nth i l d0)) d.
Proof.
  intros Hc. revert i. induction l as [|x l IH]; intros i Hi Hk.
  - simpl in Hi. lia.
  - cbn [flat_map]. destruct i as [|i].
    + rewrite app_nth1 by (rewrite Hc; lia). reflexivity.
    + rewrite app_nth2 by (rewrite Hc; lia). rewrite Hc.
      replace (S i * c + k - c)%nat with (i * c + k)%nat by lia.
      cbn [nth]. apply IH; [simpl in Hi; lia | exact Hk].
Qed.

Lemma get0_byte (a : Uint8Array) (i : nat) : bytes_ok a -> 0 <= get0 a i < 256.
Proof.
  unfold bytes_ok, get0. intros H.
  destruct (Nat.lt_ge_cases i (List.length a)) as [Hi|Hi].
  - rewrite forallb_forall in H. apply is_byte_range, H, nth_In, Hi.
  - rewrite nth_overflow by exact Hi. lia.
Qed.

Lemma clamp8_byte (v : Z) : 0 <= v < 256 -> clamp8 v = v.
Proof. unfold clamp8. lia. Qed.

Lemma length_bytesToPixels (data : Uint8Array) :
  List.length (bytesToPixels data) = (pixelCount * 4)%nat.
Proof.
  unfold bytesToPixels. fold pixelCount.
  rewrite (length_flat_map_const _ 4%nat) by reflexivity.
  now rewrite length_seq.
Qed.

Lemma nth_bytesToPixels (data : Uint8Array) (i k : nat) :
  (i < pixelCount)%nat -> (k < 4)%nat ->
  nth (i * 4 + k) (bytesToPixels data) 0
  = nth k [clamp8 (get0 data (i * 3)); clamp8 (get0 data (i * 3 + 1));
           clamp8 (get0 data (i * 3 + 2)); clamp8 255] 0.
Proof.
  intros Hi Hk. unfold bytesToPixels. fold pixelCount.
  rewrite (nth_flat_map_const _ 4%nat _ i k 0 0%nat)
    by (try reflexivity; try rewrite length_seq; assumption).
  now rewrite seq_nth by exact Hi.
Qed.

Lemma pixelsToBytes_bytesToPixels (b : Uint8Array) :
  bytes_ok b -> List.length b = (pixelCount * 3)%nat ->
  pixelsToBytes (bytesToPixels b) = b.
Proof.
  intros Hb Hlen. unfold pixelsToBytes.
  rewrite length_bytesToPixels.
  replace (pixelCount * 4 * 3)%nat with (pixelCount * 3 * 4)%nat by lia.
  rewrite Nat.div_mul, Nat.div_add_l by lia.
  change (3 / 4)%nat with 0%nat. rewrite Nat.add_0_r.
  set (g := fun i : nat =>
              [get0 (bytesToPixels b) (i * 4) mod 256;
               get0 (bytesToPixels b) (i * 4 + 1) mod 256;
               get0 (bytesToPixels b) (i * 4 + 2) mod 256]).
  assert (Hg : forall x, List.length (g x) = 3%nat) by reflexivity.
  assert (Hl : List.length (flat_map g (seq 0 pixelCount)) = (pixelCount * 3)%nat)
    by (rewrite (length_flat_map_const _ 3%nat) by exact Hg; now rewrite length_seq).
  rewrite firstn_all2 by lia.
  apply (nth_ext _ _ 0 0); [lia|].
  intros j Hj. rewrite Hl in Hj.
  assert (Hq : (j / 3 < pixelCount)%nat) by (apply Nat.Div0.div_lt_upper_bound; lia).
  assert (Hr : (j mod 3 < 3)%nat) by (apply Nat.mod_upper_bound; lia).
  rewrite (Nat.div_mod_eq j 3) at 1.
  replace (3 * (j / 3) + j mod 3)%nat with (j / 3 * 3 + j mod 3)%nat by lia.
  rewrite (nth_flat_map_const g 3%nat _ _ _ 0 0%nat)
    by (try exact Hg; try rewrite length_seq; assumption).
  rewrite seq_nth by exact Hq. cbn [Nat.add].
  assert (Hpx : forall k, (k < 3)%nat ->
            get0 (bytesToPixels b) (j / 3 * 4 + k) = nth (j / 3 * 3 + k) b 0).
  { intros k Hk. unfold get0 at 1.
    rewrite nth_bytesToPixels by (try exact Hq; lia).
    destruct k as [|[|[|k]]]; try lia; cbn [nth];
      rewrite ?Nat.add_0_r; apply clamp8_byte, get0_byte, Hb. }
  assert (Hj3 : nth j b 0 = nth (j / 3 * 3 + j mod 3) b 0)
    by (f_equal; pose proof (Nat.div_mod_eq j 3); lia).
  rewrite Hj3. unfold g.
  pose proof (Hpx 0%nat) as H0. pose proof (Hpx 1%nat) as H1.
  pose proof (Hpx 2%nat) as H2. rewrite Nat.add_0_r in H0.
  rewrite H0, H1, H2 by lia.
  destruct (j mod 3)%nat as [|[|[|r]]]; try lia; cbn [nth];
    rewrite ?Nat.add_0_r; apply Z.mod_small;
    apply (get0_byte b _ Hb).
Qed.
End PixelFacts.

Section PixelClaims.
Import JS TypedArray Packets Aux.

Lemma bytes_ok_repeat (n : nat) : bytes_ok (repeat 0 n).
Proof. unfold bytes_ok. induction n as [|n IH]; [reflexivity | exact IH]. Qed.

(** X1: on a buffer of [FRAME_BYTES] bytes [pixelsToBytes] undoes
    [bytesToPixels]; [bytesToPixels] always yields [1920 * 1080 * 4]
    components, and pixel [i] holds the bytes [3i], [3i + 1], [3i + 2] of the
    input (zero where the input has ended) followed by alpha 255. *)
Theorem pixelsToBytes_bytesToPixels_roundtrip (b data : Uint8Array) (i : Z) :
  bytes_ok b -> len b = FRAME_BYTES ->
  bytes_ok data -> 0 <= i < 1920 * 1080 ->
  pixelsToBytes (bytesToPixels b) = b /\
  len (bytesToPixels data) = 1920 * 1080 * 4 /\
  nth_error (bytesToPixels data) (Z.to_nat (4 * i))
    = Some (nth (Z.to_nat (3 * i)) data 0) /\
  nth_error (bytesToPixels data) (Z.to_nat (4 * i + 1))
    = Some (nth (Z.to_nat (3 * i + 1)) data 0) /\
  nth_error (bytesToPixels data) (Z.to_nat (4 * i + 2))
    = Some (nth (Z.to_nat (3 * i + 2)) data 0) /\
  nth_error (bytesToPixels data) (Z.to_nat (4 * i + 3)) = Some 255.
Proof.
  intros Hb Hlen Hd Hi.
  assert (HP : Z.of_nat pixelCount = 1920 * 1080).
  { unfold pixelCount. rewrite Z2Nat.id; [reflexivity|].
    unfold FRAME_WIDTH, FRAME_HEIGHT. lia. }
  split.
  { apply pixelsToBytes_bytesToPixels; [exact Hb|].
    unfold len in Hlen. rewrite FRAME_BYTES_value in Hlen. lia. }
  split.
  { unfold len. rewrite length_bytesToPixels. lia. }
  assert (Hk : forall k, (k < 4)%nat ->
            nth_error (bytesToPixels data) (Z.to_nat i * 4 + k)
            = Some (nth k [clamp8 (get0 data (Z.to_nat i * 3));
                           clamp8 (get0 data (Z.to_nat i * 3 + 1));
                           clamp8 (get0 data (Z.to_nat i * 3 + 2));
                           clamp8 255] 0)).
  { intros k Hk.
    rewrite (nth_error_nth' _ 0) by (rewrite length_bytesToPixels; lia).
    f_equal. apply nth_bytesToPixels; lia. }
  replace (Z.to_nat (4 * i)) with (Z.to_nat i * 4 + 0)%nat by lia.
  replace (Z.to_nat (4 * i + 1)) with (Z.to_nat i * 4 + 1)%nat by lia.
  replace (Z.to_nat (4 * i + 2)) with (Z.to_nat i * 4 + 2)%nat by lia.
  replace (Z.to_nat (4 * i + 3)) with (Z.to_nat i * 4 + 3)%nat by lia.
  replace (Z.to_nat (3 * i)) with (Z.to_nat i * 3)%nat by lia.
  replace (Z.to_nat (3 * i + 1)) with (Z.to_nat i * 3 + 1)%nat by lia.
  replace (Z.to_nat (3 * i + 2)) with (Z.to_nat i * 3 + 2)%nat by lia.
  rewrite !Hk by lia. cbn [nth].
  rewrite !clamp8_byte by (try apply get0_byte; try lia; exact Hd).
  unfold get0. auto.
Qed.

Lemma pixelsToBytes_bytesToPixels_roundtrip_witness :
  pixelsToBytes (bytesToPixels (alloc FRAME_BYTES)) = alloc FRAME_BYTES /\
  len (bytesToPixels [7; 8; 9; 10]) = 1920 * 1080 * 4 /\
  nth_error (bytesToPixels [7; 8; 9; 10]) (Z.to_nat (4 * 1))
    = Some (nth (Z.to_nat (3 * 1)) [7; 8; 9; 10] 0) /\
  nth_error (bytesToPixels [7; 8; 9; 10]) (Z.to_nat (4 * 1 + 1))
    = Some (nth (Z.to_nat (3 * 1 + 1)) [7; 8; 9; 10] 0) /\
  nth_error (bytesToPixels [7; 8; 9; 10]) (Z.to_nat (4 * 1 + 2))
    = Some (nth (Z.to_nat (3 * 1 + 2)) [7; 8; 9; 10] 0) /\
  nth_error (bytesToPixels [7; 8; 9; 10]) (Z.to_nat (4 * 1 + 3)) = Some 255.
Proof.
  apply (pixelsToBytes_bytesToPixels_roundtrip (alloc FRAME_BYTES) [7; 8; 9; 10] 1).
  - apply bytes_ok_repeat.
  - apply len_alloc. rewrite FRAME_BYTES_value. lia.
  - reflexivity.
  - lia.
Defined.
End PixelClaims.

Section PacketExtras.
Import JS TypedArray Packets Aux.

Lemma decodePacket_header_bytes (i t n c f : Z) (rest : Uint8Array) :
  decodePacket (header_bytes i t n c f ++ rest) =
  Ok (Some ({| magic := MAGIC; flags := f mod 256;
               packetIndex := i mod 2 ^ 32; totalPackets := t mod 2 ^ 32;
               payloadLength := n mod 2 ^ 32; checksum := c mod 2 ^ 32 |},
            slice rest 0 (n mod 2 ^ 32))).
Proof.
  pose proof (len_header_bytes i t n c f) as Hh.
  pose proof (len_nonneg rest) as Hr.
  rewrite decodePacket_ok.
  - assert (Hs : slice (header_bytes i t n c f ++ rest) HEADER_SIZE
                   (HEADER_SIZE + n mod 2 ^ 32) = slice rest 0 (n mod 2 ^ 32)).
    { unfold slice. pose proof (length_header_bytes i t n c f) as Hl.
      change HEADER_SIZE with 19. change (Z.to_nat 19) with 19%nat.
      rewrite skipn_app, Hl, Nat.sub_diag, skipn_all2 by lia.
      cbn [app skipn Z.to_nat]. f_equal. lia. }
    revert Hs. unfold header_bytes.
    rewrite !le_bytes_1, !le_bytes_2, !le_bytes_4.
    cbn [app skipn firstn].
    rewrite le_value_1_mod, !le_value_4_mod.
    intros Hs. rewrite Hs. reflexivity.
  - rewrite len_app, Hh. lia.
  - rewrite getUint_app_l.
    + unfold header_bytes. rewrite le_bytes_2. reflexivity.
    + lia.
    + rewrite Hh. change HEADER_SIZE with 19. simpl. lia.
Qed.

(** X4: a payload longer than [MAX_PAYLOAD] makes [encodePacket] throw a
    RangeError (from the copy into the frame buffer); no frame is returned. *)
Theorem encodePacket_rejects_long_payload (i t : Z) (p : Uint8Array) (f : Z) :
  MAX_PAYLOAD < len p -> encodePacket i t p f = Throw RangeError.
Proof.
  intros H. rewrite encodePacket_header_then_set. unfold set.
  rewrite len_app, len_header_bytes.
  unfold len at 1. rewrite repeat_length.
  rewrite MAX_PAYLOAD_value in *. change HEADER_SIZE with 19.
  destruct (_ <? _) eqn:E; [reflexivity|]. apply Z.ltb_ge in E. lia.
Qed.

Lemma encodePacket_rejects_long_payload_witness :
  encodePacket 0 1 (alloc (MAX_PAYLOAD + 1)) 0 = Throw RangeError.
Proof.
  apply (encodePacket_rejects_long_payload 0 1 (alloc (MAX_PAYLOAD + 1)) 0).
  rewrite len_alloc; rewrite MAX_PAYLOAD_value; lia.
Defined.

(** X5: [decodePacket] never throws; it returns [null] exactly when the
    buffer has fewer than 19 bytes or does not start with the magic. *)
Theorem decodePacket_null_iff (raw : Uint8Array) :
  (exists r, decodePacket raw = Ok r) /\
  (decodePacket raw = Ok None <->
   len raw < HEADER_SIZE \/ getUint 2 raw 0 <> Ok MAGIC).
Proof.
  destruct (Z.lt_ge_cases (len raw) HEADER_SIZE) as [Hlt|Hge].
  - assert (E : decodePacket raw = Ok None).
    { unfold decodePacket. apply Z.ltb_lt in Hlt. now rewrite Hlt. }
    split; [eauto|]. split; [auto|intros _; exact E].
  - assert (Hg : getUint 2 raw 0 = Ok (le_value (firstn 2 (skipn 0 raw)))).
    { apply getUint_ok; [lia|]. change HEADER_SIZE with 19 in Hge. simpl. lia. }
    destruct (Z.eq_dec (le_value (firstn 2 (skipn 0 raw))) MAGIC) as [Em|Em].
    + rewrite Em in Hg. rewrite (decodePacket_ok raw Hge Hg).
      split; [eauto|]. split; [discriminate|].
      intros [H|H]; [lia|congruence].
    + assert (E : decodePacket raw = Ok None).
      { unfold decodePacket. apply Z.ltb_ge in Hge. rewrite Hge, Hg.
        cbn [bind]. apply Z.eqb_neq in Em. now rewrite Em. }
      split; [eauto|]. split; [|intros _; exact E].
      intros _. right. rewrite Hg. congruence.
Qed.

(** X6: one frame end to end.  A payload of at most [MAX_PAYLOAD] bytes is
    framed, turned into pixels and back, and decoded: the packet found has the
    magic, the flags modulo 256, index and total modulo [2 ^ 32], the payload
    length, the payload itself, and a checksum that [verifyPacket] accepts. *)
Theorem frame_transport (i t : Z) (p : Uint8Array) (f : Z) :
  bytes_ok p -> len p <= MAX_PAYLOAD ->
  exists buf h,
    encodePacket i t p f = Ok buf /\
    decodePacket (pixelsToBytes (bytesToPixels buf)) = Ok (Some (h, p)) /\
    h = {| magic := MAGIC; flags := f mod 256;
           packetIndex := i mod 2 ^ 32; totalPackets := t mod 2 ^ 32;
           payloadLength := len p; checksum := Crc32.crc32 p |} /\
    verifyPacket p (checksum h) = true.
Proof.
  intros Hb Hp. pose proof (len_nonneg p) as Hp0.
  pose proof (crc32_range p) as Hc.
  do 2 eexists. split; [apply encodePacket_shape; exact Hp|].
  split; [|split; [reflexivity|]].
  - rewrite pixelsToBytes_bytesToPixels.
    + rewrite decodePacket_header_bytes.
      rewrite MAX_PAYLOAD_value in Hp.
      rewrite (Z.mod_small (len p)) by lia.
      rewrite (Z.mod_small (Crc32.crc32 p)) by lia.
      do 3 f_equal. unfold slice, len.
      rewrite Z.sub_0_r, Nat2Z.id. cbn [Z.to_nat skipn].
      rewrite firstn_app, Nat.sub_diag, firstn_all. cbn [firstn].
      apply app_nil_r.
    + apply bytes_ok_app. split; [apply bytes_ok_header_bytes|].
      apply bytes_ok_app. split; [exact Hb|apply bytes_ok_repeat].
    + rewrite !length_app, length_header_bytes, repeat_length.
      unfold pixelCount, len in *. rewrite MAX_PAYLOAD_value in *.
      change (FRAME_WIDTH * FRAME_HEIGHT) with 2073600. lia.
  - cbn [checksum]. unfold verifyPacket. apply Z.eqb_refl.
Qed.

Lemma frame_transport_witness :
  exists buf h,
    encodePacket 5 (2 ^ 32 + 7) [104; 105] 258 = Ok buf /\
    decodePacket (pixelsToBytes (bytesToPixels buf)) = Ok (Some (h, [104; 105])) /\
    h = {| magic := MAGIC; flags := 258 mod 256;
           packetIndex := 5 mod 2 ^ 32; totalPackets := (2 ^ 32 + 7) mod 2 ^ 32;
           payloadLength := len [104; 105]; checksum := Crc32.crc32 [104; 105] |} /\
    verifyPacket [104; 105] (checksum h) = true.
Proof.
  apply (frame_transport 5 (2 ^ 32 + 7) [104; 105] 258).
  - reflexivity.
  - vm_compute. discriminate.
Defined.
End PacketExtras.

(** ** Checksum *)

Section CrcFacts.
Import JS TypedArray Crc32 Crc32Spec.

Lemma shiftr1_bound (u : Z) : 0 <= u < 2 ^ 32 -> 0 <= Z.shiftr u 1 < 2 ^ 31.
Proof.
  intros H. rewrite Z.shiftr_div_pow2 by lia. change (2 ^ 1) with 2.
  change (2 ^ 32) with 4294967296 in H. change (2 ^ 31) with 2147483648.
  Z.div_mod_to_equations. lia.
Qed.

Lemma bit_round_range (u : Z) : 0 <= u < 2 ^ 32 -> 0 <= bit_round u < 2 ^ 32.
Proof.
  intros H. pose proof (shiftr1_bound u H) as Hs. unfold bit_round.
  destruct (Z.odd u); [apply lxor_bound|]; lia.
Qed.

Lemma iter_bit_round_range (k : nat) (u : Z) :
  0 <= u < 2 ^ 32 -> 0 <= Nat.iter k bit_round u < 2 ^ 32.
Proof.
  intros H. induction k as [|k IH]; [exact H|].
  rewrite Nat.iter_succ. now apply bit_round_range.
Qed.

Lemma land_1_odd (u : Z) : Z.land u 1 = if Z.odd u then 1 else 0.
Proof.
  change 1 with (Z.ones 1) at 1. rewrite Z.land_ones by lia.
  change (2 ^ 1) with 2. apply Zmod_odd.
Qed.

Lemma table_round_spec (c : Z) :
  toUint32 (table_round c) = bit_round (toUint32 c).
Proof.
  pose proof (toUint32_range c) as Hu.
  pose proof (shiftr1_bound _ Hu) as Hs.
  unfold table_round, bit_round.
  rewrite and32_low by lia. rewrite land_1_odd.
  unfold shr32. change (1 mod 32) with 1.
  destruct (Z.odd (toUint32 c)); cbn [Z.eqb].
  - rewrite toUint32_xor32.
    rewrite (toUint32_small (Z.shiftr _ _)) by lia.
    rewrite toUint32_small by lia. apply Z.lxor_comm.
  - apply toUint32_small. lia.
Qed.

Lemma iter_table_round_spec (k : nat) (c : Z) :
  toUint32 (Nat.iter k table_round c) = Nat.iter k bit_round (toUint32 c).
Proof.
  induction k as [|k IH]; [reflexivity|].
  rewrite !Nat.iter_succ. now rewrite table_round_spec, IH.
Qed.

Lemma nth_CRC32_TABLE (i : Z) :
  0 <= i < 256 -> nth (Z.to_nat i) CRC32_TABLE 0 = Nat.iter 8 bit_round i.
Proof.
  intros H. unfold CRC32_TABLE.
  rewrite (nth_indep _ 0 (table_entry (Z.of_nat 0)))
    by (rewrite length_map, length_seq; lia).
  rewrite (map_nth (fun i => table_entry (Z.of_nat i))).
  rewrite seq_nth by lia. rewrite Nat.add_0_l, Z2Nat.id by lia.
  unfold table_entry. rewrite iter_table_round_spec.
  now rewrite toUint32_small by lia.
Qed.

Lemma bit_round_lxor (a b : Z) :
  bit_round (Z.lxor a b) = Z.lxor (bit_round a) (bit_round b).
Proof.
  unfold bit_round.
  rewrite <- !Z.bit0_odd, Z.lxor_spec, Z.shiftr_lxor.
  destruct (Z.testbit a 0), (Z.testbit b 0); cbn [xorb];
    apply Z.bits_inj'; intros n Hn; rewrite !Z.lxor_spec;
    destruct (Z.testbit (Z.shiftr a 1) n), (Z.testbit (Z.shiftr b 1) n),
      (Z.testbit 3988292384 n); reflexivity.
Qed.

Lemma iter_bit_round_lxor (k : nat) (a b : Z) :
  Nat.iter k bit_round (Z.lxor a b)
  = Z.lxor (Nat.iter k bit_round a) (Nat.iter k bit_round b).
Proof.
  induction k as [|k IH]; [reflexivity|].
  rewrite !Nat.iter_succ. now rewrite IH, bit_round_lxor.
Qed.

Lemma bit_round_double (m : Z) : bit_round (2 * m) = m.
Proof.
  unfold bit_round. rewrite Z.odd_mul. cbn [Z.odd andb].
  rewrite Z.shiftr_div_pow2 by lia. change (2 ^ 1) with 2.
  rewrite Z.mul_comm. apply Z.div_mul. lia.
Qed.

Lemma iter_bit_round_shift (k : nat) (h : Z) :
  Nat.iter k bit_round (2 ^ Z.of_nat k * h) = h.
Proof.
  revert h. induction k as [|k IH]; intros h.
  - unfold Nat.iter. cbn [nat_rect]. change (2 ^ Z.of_nat 0) with 1. lia.
  - rewrite Nat.iter_succ_r.
    replace (2 ^ Z.of_nat (S k) * h) with (2 * (2 ^ Z.of_nat k * h))
      by (rewrite Nat2Z.inj_succ, Z.pow_succ_r by lia; ring).
    rewrite bit_round_double. apply IH.
Qed.

Lemma split_low_byte (x : Z) :
  0 <= x -> x = Z.lxor (x mod 256) (256 * (x / 256)).
Proof.
  intros H. rewrite <- Z.add_nocarry_lxor.
  - pose proof (Z.div_mod x 256). lia.
  - apply Z.bits_inj'. intros n Hn. rewrite Z.land_spec, Z.bits_0.
    destruct (Z.lt_ge_cases n 8) as [Hlt|Hge].
    + change 256 with (2 ^ 8). rewrite (Z.mul_comm (2 ^ 8)).
      rewrite Z.mul_pow2_bits_low by lia. apply andb_false_r.
    + change 256 with (2 ^ 8). rewrite Z.mod_pow2_bits_high by lia. reflexivity.
Qed.

Lemma lxor_byte_div (u b : Z) :
  0 <= u -> 0 <= b < 256 -> Z.lxor u b / 256 = u / 256.
Proof.
  intros Hu Hb. change 256 with (2 ^ 8) at 1 2.
  rewrite <- !Z.shiftr_div_pow2 by lia.
  rewrite Z.shiftr_lxor. rewrite (Z.shiftr_div_pow2 b) by lia.
  change (2 ^ 8) with 256. rewrite (Z.div_small b) by lia.
  apply Z.lxor_0_r.
Qed.

Lemma byte_round_table (u b : Z) :
  0 <= u -> 0 <= b < 256 ->
  byte_round u b = Z.lxor (Nat.iter 8 bit_round (Z.lxor u b mod 256)) (u / 256).
Proof.
  intros Hu Hb. unfold byte_round.
  assert (Hx : 0 <= Z.lxor u b) by (apply Z.lxor_nonneg; lia).
  rewrite (split_low_byte (Z.lxor u b) Hx) at 1.
  rewrite iter_bit_round_lxor. f_equal.
  rewrite lxor_byte_div by lia.
  apply (iter_bit_round_shift 8).
Qed.

Lemma crc32_update_spec (c b : Z) :
  0 <= b < 256 -> toUint32 (crc32_update c b) = byte_round (toUint32 c) b.
Proof.
  intros Hb. pose proof (toUint32_range c) as Hu.
  rewrite byte_round_table by lia.
  unfold crc32_update.
  rewrite toUint32_xor32.
  rewrite and32_low by lia. rewrite toUint32_xor32.
  rewrite (toUint32_small b) by lia.
  change 255 with (Z.ones 8). rewrite Z.land_ones by lia. change (2 ^ 8) with 256.
  assert (Hi : 0 <= Z.lxor (toUint32 c) b mod 256 < 256)
    by (apply Z.mod_pos_bound; lia).
  rewrite nth_CRC32_TABLE by exact Hi.
  rewrite toUint32_small
    by (apply iter_bit_round_range; lia).
  f_equal. rewrite shr32_div by lia. change (2 ^ 8) with 256.
  apply toUint32_small.
  change (2 ^ 32) with 4294967296 in *. Z.div_mod_to_equations. lia.
Qed.

Lemma fold_crc32_update_spec (data : list Z) (c : Z) :
  bytes_ok data ->
  toUint32 (fold_left crc32_update data c)
  = fold_left byte_round data (toUint32 c).
Proof.
  unfold bytes_ok. revert c. induction data as [|b data IH]; intros c H.
  - reflexivity.
  - cbn [forallb] in H. apply andb_prop in H. destruct H as [Hb Hd].
    cbn [fold_left]. rewrite IH by exact Hd.
    rewrite crc32_update_spec; [reflexivity|].
    unfold is_byte in Hb. apply andb_prop in Hb. destruct Hb as [H1 H2].
    apply Z.leb_le in H1. apply Z.ltb_lt in H2. lia.
Qed.

Lemma crc32_eq_bitwise (data : list Z) :
  bytes_ok data -> crc32 data = crc32_bitwise data.
Proof.
  intros H. unfold crc32, crc32_bitwise.
  rewrite shr32_0, toUint32_xor32, fold_crc32_update_spec by exact H.
  reflexivity.
Qed.
End CrcFacts.

Section CrcInjective.
Import JS TypedArray Crc32 Crc32Spec.

Lemma lxor_cancel_r (a b p : Z) : Z.lxor a p = Z.lxor b p -> a = b.
Proof.
  intros H. apply (f_equal (fun z => Z.lxor z p)) in H.
  now rewrite !Z.lxor_assoc, Z.lxor_nilpotent, !Z.lxor_0_r in H.
Qed.

Lemma lxor_cancel_l (a b p : Z) : Z.lxor p a = Z.lxor p b -> a = b.
Proof. rewrite !(Z.lxor_comm p). apply lxor_cancel_r. Qed.

Lemma half_parity_inj (u v : Z) :
  Z.shiftr u 1 = Z.shiftr v 1 -> Z.odd u = Z.odd v -> u = v.
Proof.
  rewrite !Z.shiftr_div_pow2 by lia. change (2 ^ 1) with 2. intros Hh Hp.
  pose proof (Zmod_odd u) as Hu. pose proof (Zmod_odd v) as Hv.
  rewrite Hp in Hu. rewrite <- Hv in Hu.
  pose proof (Z.div_mod u 2). pose proof (Z.div_mod v 2). lia.
Qed.

Lemma bit_round_inj (u v : Z) :
  0 <= u < 2 ^ 32 -> 0 <= v < 2 ^ 32 -> bit_round u = bit_round v -> u = v.
Proof.
  intros Hu Hv. pose proof (shiftr1_bound u Hu) as Su.
  pose proof (shiftr1_bound v Hv) as Sv. unfold bit_round.
  destruct (Z.odd u) eqn:Ou, (Z.odd v) eqn:Ov; intros H.
  - apply half_parity_inj; [eapply lxor_cancel_r; exact H | congruence].
  - exfalso.
    assert (E : 3988292384 = Z.lxor (Z.shiftr u 1) (Z.shiftr v 1)).
    { rewrite <- H. now rewrite <- Z.lxor_assoc, Z.lxor_nilpotent, Z.lxor_0_l. }
    pose proof (lxor_bound 31 _ _ ltac:(lia) Su Sv). lia.
  - exfalso.
    assert (E : 3988292384 = Z.lxor (Z.shiftr v 1) (Z.shiftr u 1)).
    { rewrite H. now rewrite <- Z.lxor_assoc, Z.lxor_nilpotent, Z.lxor_0_l. }
    pose proof (lxor_bound 31 _ _ ltac:(lia) Sv Su). lia.
  - apply half_parity_inj; congruence.
Qed.

Lemma iter_bit_round_inj (k : nat) (u v : Z) :
  0 <= u < 2 ^ 32 -> 0 <= v < 2 ^ 32 ->
  Nat.iter k bit_round u = Nat.iter k bit_round v -> u = v.
Proof.
  intros Hu Hv. induction k as [|k IH]; [auto|].
  rewrite !Nat.iter_succ. intros H. apply IH.
  apply bit_round_inj; [apply iter_bit_round_range; lia ..|exact H].
Qed.

Lemma byte_round_range (u b : Z) :
  0 <= u < 2 ^ 32 -> 0 <= b < 256 -> 0 <= byte_round u b < 2 ^ 32.
Proof.
  intros Hu Hb. unfold byte_round. apply iter_bit_round_range.
  apply lxor_bound; lia.
Qed.

Lemma byte_round_inj (u v x y : Z) :
  0 <= u < 2 ^ 32 -> 0 <= v < 2 ^ 32 -> 0 <= x < 256 -> 0 <= y < 256 ->
  byte_round u x = byte_round v y -> Z.lxor u x = Z.lxor v y.
Proof.
  intros Hu Hv Hx Hy. unfold byte_round.
  apply iter_bit_round_inj; apply lxor_bound; lia.
Qed.

Lemma fold_byte_round_range (l : list Z) (s : Z) :
  bytes_ok l -> 0 <= s < 2 ^ 32 -> 0 <= fold_left byte_round l s < 2 ^ 32.
Proof.
  unfold bytes_ok. revert s. induction l as [|b l IH]; intros s Hl Hs; [exact Hs|].
  cbn [forallb] in Hl. apply andb_prop in Hl. destruct Hl as [Hb Hl].
  cbn [fold_left]. apply IH; [exact Hl|].
  apply byte_round_range; [exact Hs|].
  unfold is_byte in Hb. apply andb_prop in Hb. destruct Hb as [H1 H2].
  apply Z.leb_le in H1. apply Z.ltb_lt in H2. lia.
Qed.

Lemma fold_byte_round_inj (l : list Z) (s t : Z) :
  bytes_ok l -> 0 <= s < 2 ^ 32 -> 0 <= t < 2 ^ 32 ->
  fold_left byte_round l s = fold_left byte_round l t -> s = t.
Proof.
  unfold bytes_ok. revert s t.
  induction l as [|b l IH]; intros s t Hl Hs Ht H; [exact H|].
  cbn [forallb] in Hl. apply andb_prop in Hl. destruct Hl as [Hb Hl].
  assert (Hb' : 0 <= b < 256).
  { unfold is_byte in Hb. apply andb_prop in Hb. destruct Hb as [H1 H2].
    apply Z.leb_le in H1. apply Z.ltb_lt in H2. lia. }
  cbn [fold_left] in H.
  apply IH in H; [|exact Hl|apply byte_round_range; lia ..].
  apply byte_round_inj in H; [|lia ..]. eapply lxor_cancel_r; exact H.
Qed.

Lemma crc32_bitwise_one_byte (a b : list Z) (x y : Z) :
  bytes_ok a -> bytes_ok b -> 0 <= x < 256 -> 0 <= y < 256 ->
  crc32_bitwise (a ++ x :: b) = crc32_bitwise (a ++ y :: b) -> x = y.
Proof.
  intros Ha Hb Hx Hy. unfold crc32_bitwise. intros H.
  apply lxor_cancel_r in H.
  rewrite !fold_left_app in H. cbn [fold_left] in H.
  assert (Hs : 0 <= fold_left byte_round a 4294967295 < 2 ^ 32)
    by (apply fold_byte_round_range; [exact Ha | lia]).
  apply fold_byte_round_inj in H;
    [|exact Hb|apply byte_round_range; lia ..].
  apply byte_round_inj in H; [|lia ..]. eapply lxor_cancel_l; exact H.
Qed.
End CrcInjective.

Section CrcClaims.
Import JS TypedArray Crc32 Crc32Spec Packets.

(** X2: on every byte sequence the table-driven [crc32] is the reflected
    CRC-32 computed bit by bit (polynomial [0xEDB88320], initial value and
    final XOR [0xFFFFFFFF]), and its result is an unsigned 32-bit value. *)
Theorem crc32_table_matches_bitwise (data : list Z) :
  bytes_ok data ->
  crc32 data = crc32_bitwise data /\ 0 <= crc32 data < 2 ^ 32.
Proof.
  intros H. split; [now apply crc32_eq_bitwise | apply crc32_range].
Qed.

Lemma crc32_table_matches_bitwise_witness :
  crc32 [49; 50; 51; 52; 53; 54; 55; 56; 57]
    = crc32_bitwise [49; 50; 51; 52; 53; 54; 55; 56; 57] /\
  0 <= crc32 [49; 50; 51; 52; 53; 54; 55; 56; 57] < 2 ^ 32.
Proof.
  apply (crc32_table_matches_bitwise [49; 50; 51; 52; 53; 54; 55; 56; 57]).
  reflexivity.
Defined.

(** X3: [verifyPacket] rejects a payload in which exactly one byte was
    changed: the checksum of the original never matches. *)
Theorem verifyPacket_detects_one_byte (a b : Uint8Array) (x y : Z) :
  bytes_ok a -> bytes_ok b -> is_byte x = true -> is_byte y = true ->
  x <> y ->
  verifyPacket (a ++ y :: b) (crc32 (a ++ x :: b)) = false.
Proof.
  intros Ha Hb Hx Hy Hne. unfold verifyPacket.
  apply Z.eqb_neq. intros E. apply Hne. symmetry.
  apply is_byte_range in Hx. apply is_byte_range in Hy.
  assert (Hok : forall z, 0 <= z < 256 -> bytes_ok (a ++ z :: b)).
  { intros z Hz. unfold bytes_ok in *. rewrite forallb_app. cbn [forallb].
    rewrite Ha, Hb. apply is_byte_range in Hz. now rewrite Hz. }
  rewrite !crc32_eq_bitwise in E by (apply Hok; assumption).
  exact (crc32_bitwise_one_byte a b y x Ha Hb Hy Hx E).
Qed.

Lemma verifyPacket_detects_one_byte_witness :
  verifyPacket ([1; 2] ++ 9 :: [4]) (crc32 ([1; 2] ++ 3 :: [4])) = false.
Proof.
  apply (verifyPacket_detects_one_byte [1; 2] [4] 3 9).
  - reflexivity.
  - reflexivity.
  - reflexivity.
  - reflexivity.
  - discriminate.
Defined.
End CrcClaims.

(** ** UTF-8 *)

Section TextFacts.
Import Text.

Lemma lor_disjoint_add (hi lo k : Z) :
  0 <= k -> 0 <= lo < 2 ^ k -> Z.lor (hi * 2 ^ k) lo = hi * 2 ^ k + lo.
Proof.
  intros Hk Hlo.
  assert (H : Z.land (hi * 2 ^ k) lo = 0).
  { apply Z.bits_inj'. intros n Hn. rewrite Z.land_spec, Z.bits_0.
    destruct (Z.lt_ge_cases n k) as [Hlt|Hge].
    - now rewrite Z.mul_pow2_bits_low by lia.
    - rewrite (testbit_high k lo n) by lia. apply andb_false_r. }
  rewrite <- Z.lxor_lor by exact H. symmetry. now apply Z.add_nocarry_lxor.
Qed.

Lemma lor_lead (base x k : Z) (hi : Z) :
  base = hi * 2 ^ k -> 0 <= k -> 0 <= x < 2 ^ k -> Z.lor base x = base + x.
Proof. intros -> Hk Hx. now apply lor_disjoint_add. Qed.

Lemma land_low (v k : Z) : 0 <= k -> Z.land v (2 ^ k - 1) = v mod 2 ^ k.
Proof.
  intros Hk. replace (2 ^ k - 1) with (Z.ones k)
    by (rewrite Z.ones_equiv; lia).
  now apply Z.land_ones.
Qed.

Lemma cont_byte (v : Z) : Z.lor 0x80 (Z.land v 0x3F) = 128 + v mod 64.
Proof.
  change 0x3F with (2 ^ 6 - 1). rewrite land_low by lia. change (2 ^ 6) with 64.
  apply (lor_lead 128 (v mod 64) 6 2); [reflexivity|lia|].
  apply Z.mod_pos_bound. lia.
Qed.

Lemma encode_scalar_arith (c : Z) :
  0 <= c <= 0x10FFFF ->
  encode_scalar c =
  if c <=? 0x7F then [c]
  else if c <=? 0x7FF then [192 + c / 64; 128 + c mod 64]
  else if c <=? 0xFFFF then
    [224 + c / 4096; 128 + (c / 64) mod 64; 128 + c mod 64]
  else [240 + c / 262144; 128 + (c / 4096) mod 64; 128 + (c / 64) mod 64;
        128 + c mod 64].
Proof.
  intros Hc. unfold encode_scalar. rewrite !cont_byte.
  rewrite !Z.shiftr_div_pow2 by lia.
  change (2 ^ 6) with 64. change (2 ^ 12) with 4096. change (2 ^ 18) with 262144.
  destruct (Z.leb_spec c 0x7F) as [H1|H1]; [reflexivity|].
  destruct (Z.leb_spec c 0x7FF) as [H2|H2].
  { f_equal. apply (lor_lead 192 (c / 64) 6 3); [reflexivity|lia|].
    change (2 ^ 6) with 64. Z.div_mod_to_equations. lia. }
  destruct (Z.leb_spec c 0xFFFF) as [H3|H3].
  { f_equal. apply (lor_lead 224 (c / 4096) 5 7); [reflexivity|lia|].
    change (2 ^ 5) with 32. Z.div_mod_to_equations. lia. }
  f_equal. apply (lor_lead 240 (c / 262144) 4 15); [reflexivity|lia|].
  change (2 ^ 4) with 16. Z.div_mod_to_equations. lia.
Qed.

Ltac decide_tests :=
  repeat match goal with
  | |- context [?a <=? ?b] =>
      first [ rewrite (proj2 (Z.leb_le a b)) by lia
            | rewrite (proj2 (Z.leb_gt a b)) by lia ]
  | |- context [?a <? ?b] =>
      first [ rewrite (proj2 (Z.ltb_lt a b)) by lia
            | rewrite (proj2 (Z.ltb_ge a b)) by lia ]
  | |- context [?a =? ?b] =>
      first [ rewrite (proj2 (Z.eqb_eq a b)) by lia
            | rewrite (proj2 (Z.eqb_neq a b)) by lia ]
  end; cbn [andb orb negb].

Lemma decode_byte_ascii (b : Z) :
  0 <= b <= 0x7F -> decode_byte idle b = (idle, [b], false).
Proof. intros H. unfold decode_byte. cbn [bytes_needed idle]. now decide_tests. Qed.

Lemma decode_byte_lead2 (x : Z) :
  2 <= x < 32 ->
  decode_byte idle (192 + x) = (expect x 1 0x80 0xBF, [], false).
Proof.
  intros H. unfold decode_byte. cbn [bytes_needed idle]. decide_tests.
  change 0x1F with (2 ^ 5 - 1). rewrite land_low by lia. change (2 ^ 5) with 32.
  replace ((192 + x) mod 32) with x by (Z.div_mod_to_equations; lia).
  reflexivity.
Qed.

Lemma decode_byte_lead3 (x : Z) :
  0 <= x < 16 ->
  decode_byte idle (224 + x)
  = (expect x 2 (if x =? 0 then 0xA0 else 0x80)
       (if x =? 13 then 0x9F else 0xBF), [], false).
Proof.
  intros H. unfold decode_byte. cbn [bytes_needed idle].
  change 0xF with (2 ^ 4 - 1). rewrite land_low by lia. change (2 ^ 4) with 16.
  replace ((224 + x) mod 16) with x by (Z.div_mod_to_equations; lia).
  destruct (Z.eqb_spec x 0) as [E0|E0];
    destruct (Z.eqb_spec x 13) as [E1|E1]; try lia; now decide_tests.
Qed.

Lemma decode_byte_lead4 (x : Z) :
  0 <= x <= 4 ->
  decode_byte idle (240 + x)
  = (expect x 3 (if x =? 0 then 0x90 else 0x80)
       (if x =? 4 then 0x8F else 0xBF), [], false).
Proof.
  intros H. unfold decode_byte. cbn [bytes_needed idle].
  change 0x7 with (2 ^ 3 - 1). rewrite land_low by lia. change (2 ^ 3) with 8.
  replace ((240 + x) mod 8) with x by (Z.div_mod_to_equations; lia).
  destruct (Z.eqb_spec x 0) as [E0|E0];
    destruct (Z.eqb_spec x 4) as [E1|E1]; try lia; now decide_tests.
Qed.

Lemma decode_byte_cont (cp seen needed lo hi y : Z) :
  needed <> 0 -> 0 <= y < 64 -> lo <= 128 + y <= hi ->
  decode_byte {| code_point := cp; bytes_seen := seen; bytes_needed := needed;
                 lower := lo; upper := hi |} (128 + y)
  = if seen + 1 =? needed then (idle, [cp * 64 + y], false)
    else ({| code_point := cp * 64 + y; bytes_seen := seen + 1;
             bytes_needed := needed; lower := 0x80; upper := 0xBF |},
          [], false).
Proof.
  intros Hn Hy Hr. unfold decode_byte.
  cbn [bytes_needed bytes_seen code_point lower upper].
  rewrite (proj2 (Z.eqb_neq needed 0)) by exact Hn.
  rewrite (proj2 (Z.ltb_ge (128 + y) lo)) by lia.
  rewrite (proj2 (Z.ltb_ge hi (128 + y))) by lia. cbn [orb].
  change 0x3F with (2 ^ 6 - 1). rewrite land_low by lia. change (2 ^ 6) with 64.
  replace ((128 + y) mod 64) with y by (Z.div_mod_to_equations; lia).
  rewrite Z.shiftl_mul_pow2 by lia.
  rewrite (lor_disjoint_add cp y 6) by (change (2 ^ 6) with 64; lia).
  reflexivity.
Qed.

Lemma decode_from_scalar (c : Z) (rest : list Z) :
  is_scalar c = true ->
  decode_from idle (encode_scalar c ++ rest) = c :: decode_from idle rest.
Proof.
  unfold is_scalar, is_surrogate. intros H.
  apply andb_prop in H. destruct H as [H Hs].
  apply andb_prop in H. destruct H as [H0 H1].
  apply Z.leb_le in H0. apply Z.leb_le in H1.
  apply negb_true_iff, andb_false_iff in Hs.
  rewrite Z.leb_gt, Z.leb_gt in Hs.
  rewrite encode_scalar_arith by lia.
  destruct (Z.leb_spec c 0x7F) as [C1|C1].
  { cbn [app decode_from]. rewrite decode_byte_ascii by lia. reflexivity. }
  destruct (Z.leb_spec c 0x7FF) as [C2|C2].
  { cbn [app decode_from].
    rewrite decode_byte_lead2 by (Z.div_mod_to_equations; lia).
    unfold expect. rewrite decode_byte_cont
      by (try discriminate; Z.div_mod_to_equations; lia).
    change (0 + 1 =? 1) with true. cbv iota. cbn [app]. f_equal.
    Z.div_mod_to_equations. lia. }
  destruct (Z.leb_spec c 0xFFFF) as [C3|C3].
  { cbn [app decode_from].
    rewrite decode_byte_lead3 by (Z.div_mod_to_equations; lia).
    unfold expect. rewrite decode_byte_cont.
    - change (0 + 1 =? 2) with false. cbv iota.
      rewrite decode_byte_cont
        by (try discriminate; Z.div_mod_to_equations; lia).
      change (0 + 1 + 1 =? 2) with true. cbv iota. cbn [app]. f_equal.
      Z.div_mod_to_equations. lia.
    - discriminate.
    - Z.div_mod_to_equations. lia.
    - destruct (Z.eqb_spec (c / 4096) 0); destruct (Z.eqb_spec (c / 4096) 13);
        Z.div_mod_to_equations; lia. }
  cbn [app decode_from].
  rewrite decode_byte_lead4 by (Z.div_mod_to_equations; lia).
  unfold expect. rewrite decode_byte_cont.
  - change (0 + 1 =? 3) with false. cbv iota.
    rewrite decode_byte_cont
      by (try discriminate; Z.div_mod_to_equations; lia).
    change (0 + 1 + 1 =? 3) with false. cbv iota.
    rewrite decode_byte_cont
      by (try discriminate; Z.div_mod_to_equations; lia).
    change (0 + 1 + 1 + 1 =? 3) with true. cbv iota. cbn [app]. f_equal.
    Z.div_mod_to_equations. lia.
  - discriminate.
  - Z.div_mod_to_equations. lia.
  - destruct (Z.eqb_spec (c / 262144) 0); destruct (Z.eqb_spec (c / 262144) 4);
      Z.div_mod_to_equations; lia.
Qed.
End TextFacts.

Section TextRoundTrip.
Import Text Aux.

Lemma decode_from_encode (s : jsstring) (rest : list Z) :
  code_points s ->
  decode_from idle (encode s ++ rest) = sanitize s ++ decode_from idle rest.
Proof.
  unfold code_points. induction s as [|c s IH]; intros H; [reflexivity|].
  cbn [forallb] in H. apply andb_prop in H. destruct H as [Hc Hs].
  apply andb_prop in Hc. destruct Hc as [H0 H1].
  apply Z.leb_le in H0. apply Z.leb_le in H1.
  unfold encode in *. cbn [flat_map sanitize map]. rewrite <- app_assoc.
  unfold encode_code_point at 1.
  rewrite decode_from_scalar.
  - cbn [app]. f_equal. apply IH, Hs.
  - unfold is_scalar. destruct (is_surrogate c) eqn:E; [reflexivity|].
    rewrite E. cbn [negb]. rewrite andb_true_r.
    apply andb_true_intro. split; [apply Z.leb_le | apply Z.leb_le]; lia.
Qed.

Lemma decode_encode (s : jsstring) :
  code_points s -> decode (encode s) = strip_bom (sanitize s).
Proof.
  intros H. unfold decode. rewrite <- (app_nil_r (encode s)).
  rewrite decode_from_encode by exact H. cbn [decode_from].
  change (bytes_needed idle =? 0) with true. cbv iota.
  rewrite app_nil_r. unfold strip_bom.
  destruct (sanitize s) as [|c r]; reflexivity.
Qed.

Lemma well_formed_code_points (s : jsstring) : well_formed s -> code_points s.
Proof.
  unfold well_formed, code_points. rewrite !forallb_forall.
  intros H c Hc. specialize (H c Hc). unfold is_scalar in H.
  apply andb_prop in H. tauto.
Qed.

Lemma sanitize_well_formed (s : jsstring) : well_formed s -> sanitize s = s.
Proof.
  unfold well_formed, sanitize. induction s as [|c s IH]; intros H; [reflexivity|].
  cbn [forallb] in H. apply andb_prop in H. destruct H as [Hc Hs].
  cbn [map]. rewrite IH by exact Hs. f_equal.
  unfold is_scalar in Hc. apply andb_prop in Hc. destruct Hc as [_ Hc].
  apply negb_true_iff in Hc. now rewrite Hc.
Qed.
End TextRoundTrip.

(** ** Metadata *)

Section MetadataFacts.
Import JS TypedArray Packets Aux.

Lemma write_at_zeros (done bs : list Z) (m : nat) :
  write_at (done ++ repeat 0 (List.length bs + m)) (len done) bs
  = (done ++ bs) ++ repeat 0 m.
Proof.
  unfold write_at, len. rewrite Nat2Z.id.
  rewrite firstn_app, Nat.sub_diag, firstn_all. cbn [firstn].
  rewrite app_nil_r, <- app_assoc. f_equal. f_equal.
  rewrite skipn_app, skipn_all2 by lia. cbn [app].
  rewrite skipn_repeat. f_equal. lia.
Qed.

Lemma setUint_zeros (n : nat) (done : list Z) (m : nat) (v : Z) :
  setUint n (done ++ repeat 0 (n + m)) (len done) v
  = Ok ((done ++ le_bytes n v) ++ repeat 0 m).
Proof.
  unfold setUint. pose proof (len_nonneg done) as Hd. rewrite len_app.
  replace (len (repeat 0 (n + m))) with (Z.of_nat (n + m))
    by (unfold len; now rewrite repeat_length).
  assert (E0 : (len done <? 0) = false) by (apply Z.ltb_ge; lia).
  assert (E1 : (len done + Z.of_nat (n + m) <? len done + Z.of_nat n) = false)
    by (apply Z.ltb_ge; lia).
  rewrite E0, E1. cbn [orb]. f_equal.
  replace (n + m)%nat with (List.length (le_bytes n v) + m)%nat
    by (now rewrite length_le_bytes).
  apply write_at_zeros.
Qed.

Lemma set_zeros (done src : list Z) (m : nat) :
  set (done ++ repeat 0 (List.length src + m)) src (len done)
  = Ok ((done ++ src) ++ repeat 0 m).
Proof.
  unfold set. rewrite len_app.
  replace (len (repeat 0 (List.length src + m)))
    with (Z.of_nat (List.length src + m))
    by (unfold len; now rewrite repeat_length).
  assert (E1 : (len done + Z.of_nat (List.length src + m) <? len done + len src)
               = false) by (apply Z.ltb_ge; unfold len; lia).
  rewrite E1. f_equal. apply write_at_zeros.
Qed.

Lemma store_zeros (done : list Z) (v : Z) :
  store (done ++ repeat 0 1) (len done) v = done ++ [v mod 256].
Proof.
  unfold store. pose proof (len_nonneg done) as Hd.
  rewrite len_app. change (len (repeat 0 1)) with 1.
  destruct (0 <=? len done) eqn:E0; [|apply Z.leb_gt in E0; lia].
  destruct (len done <? len done + 1) eqn:E1; [|apply Z.ltb_ge in E1; lia].
  cbn [andb].
  change (repeat 0 1) with (repeat 0 (List.length [v mod 256] + 0)).
  rewrite write_at_zeros. cbn [repeat]. apply app_nil_r.
Qed.

(** The bytes [encodeMetadata] produces. *)
Lemma encodeMetadata_shape (name : Text.jsstring) (size : Z)
    (mime : Text.jsstring) (enc : bool) :
  encodeMetadata name size mime enc =
  Ok (metadata_bytes (Text.encode name) size (Text.encode mime) enc).
Proof.
  unfold encodeMetadata, metadata_bytes, alloc. cbv zeta.
  set (nb := Text.encode name). set (mb := Text.encode mime).
  replace (Z.to_nat (4 + len nb + 4 + 4 + len mb + 1))
    with (4 + (List.length nb + (4 + (4 + (List.length mb + 1)))))%nat
    by (unfold len; lia).
  set (d1 := le_bytes 4 (len nb)).
  set (d2 := d1 ++ nb).
  set (d3 := d2 ++ le_bytes 4 size).
  set (d4 := d3 ++ le_bytes 4 (len mb)).
  set (d5 := d4 ++ mb).
  assert (L1 : len d1 = 4) by (unfold len, d1; now rewrite length_le_bytes).
  assert (L2 : len d2 = 4 + len nb) by (unfold d2; rewrite len_app; lia).
  assert (L3 : len d3 = 4 + len nb + 4)
    by (unfold d3; rewrite len_app; unfold len at 2;
        rewrite length_le_bytes; lia).
  assert (L4 : len d4 = 4 + len nb + 4 + 4)
    by (unfold d4; rewrite len_app; unfold len at 2;
        rewrite length_le_bytes; lia).
  assert (L5 : len d5 = 4 + len nb + 4 + 4 + len mb)
    by (unfold d5; rewrite len_app; lia).
  pose proof (setUint_zeros 4 []
                (List.length nb + (4 + (4 + (List.length mb + 1)))) (len nb)) as H1.
  cbn [app] in H1. change (len []) with 0 in H1. rewrite H1. cbn [bind].
  fold d1.
  pose proof (set_zeros d1 nb (4 + (4 + (List.length mb + 1)))) as H2.
  rewrite L1 in H2. change (0 + 4) with 4. rewrite H2. cbn [bind]. fold d2.
  pose proof (setUint_zeros 4 d2 (4 + (List.length mb + 1)) size) as H3.
  rewrite L2 in H3. rewrite H3. cbn [bind]. fold d3.
  pose proof (setUint_zeros 4 d3 (List.length mb + 1) (len mb)) as H4.
  rewrite L3 in H4. rewrite H4. cbn [bind]. fold d4.
  pose proof (set_zeros d4 mb 1) as H5.
  rewrite L4 in H5. rewrite H5. cbn [bind]. fold d5.
  pose proof (store_zeros d5 (if enc then 1 else 0)) as H6.
  rewrite L5 in H6. rewrite H6. f_equal.
  unfold d5, d4, d3, d2, d1. rewrite <- !app_assoc. do 5 f_equal.
  now destruct enc.
Qed.
End MetadataFacts.

Section MetadataDecode.
Import JS TypedArray Packets Aux.

Lemma le_value_le_bytes_4 (v : Z) : le_value (le_bytes 4 v) = v mod 2 ^ 32.
Proof. rewrite le_bytes_4. apply le_value_4_mod. Qed.

Lemma getUint_mid (n : nat) (a b c : Uint8Array) :
  List.length b = n -> getUint n (a ++ b ++ c) (len a) = Ok (le_value b).
Proof.
  intros Hb. rewrite app_assoc. rewrite getUint_app_l.
  - do 2 f_equal. unfold len. rewrite Nat2Z.id.
    rewrite skipn_app, Nat.sub_diag, skipn_all. cbn [app skipn].
    rewrite <- Hb. apply firstn_all.
  - apply len_nonneg.
  - rewrite len_app. unfold len. lia.
Qed.

Lemma firstn_firstn_app_one (j : nat) (mb : list Z) (x : Z) :
  firstn (List.length mb) (firstn j (mb ++ [x])) = firstn j mb.
Proof.
  rewrite firstn_firstn.
  destruct (Nat.le_gt_cases j (List.length mb)) as [H|H].
  - rewrite Nat.min_r by lia. rewrite firstn_app.
    replace (j - List.length mb)%nat with 0%nat by lia.
    cbn [firstn]. apply app_nil_r.
  - rewrite Nat.min_l by lia. rewrite firstn_app, Nat.sub_diag, firstn_all.
    cbn [firstn]. rewrite app_nil_r. symmetry. apply firstn_all2. lia.
Qed.

Lemma nth_error_firstn_app_one (j : nat) (mb : list Z) (x : Z) :
  nth_error (firstn j (mb ++ [x])) (List.length mb)
  = if (List.length mb <? j)%nat then Some x else None.
Proof.
  destruct (List.length mb <? j)%nat eqn:E.
  - apply Nat.ltb_lt in E. rewrite nth_error_firstn.
    assert (E' : (List.length mb <? j)%nat = true) by now apply Nat.ltb_lt.
    rewrite E'. rewrite nth_error_app2, Nat.sub_diag by lia. reflexivity.
  - apply Nat.ltb_ge in E. apply nth_error_None.
    rewrite length_firstn. lia.
Qed.

(** Decoding the metadata bytes cut after [j] bytes of the media type and
    flag part. *)
Lemma decodeMetadata_cut (nb : list Z) (size : Z) (mb : list Z) (enc : bool)
    (j : nat) :
  len nb < 2 ^ 32 -> len mb < 2 ^ 32 ->
  decodeMetadata
    (le_bytes 4 (len nb) ++ nb ++ le_bytes 4 size ++ le_bytes 4 (len mb)
       ++ firstn j (mb ++ [if enc then 1 else 0]))
  = Ok {| filename := Text.decode nb;
          fileSize := size mod 2 ^ 32;
          mimeType := Text.decode (firstn j mb);
          isEncrypted := enc && (List.length mb <? j)%nat |}.
Proof.
  intros Hn Hm. pose proof (len_nonneg nb) as Hn0.
  pose proof (len_nonneg mb) as Hm0.
  set (rest := firstn j (mb ++ [if enc then 1 else 0])).
  set (l1 := le_bytes 4 (len nb)). set (l2 := le_bytes 4 size).
  set (l3 := le_bytes 4 (len mb)).
  assert (L1 : len l1 = 4) by (unfold len, l1; now rewrite length_le_bytes).
  assert (V1 : le_value l1 = len nb)
    by (unfold l1; rewrite le_value_le_bytes_4; apply Z.mod_small; lia).
  assert (V2 : le_value l2 = size mod 2 ^ 32)
    by (unfold l2; apply le_value_le_bytes_4).
  assert (V3 : le_value l3 = len mb)
    by (unfold l3; rewrite le_value_le_bytes_4; apply Z.mod_small; lia).
  unfold decodeMetadata. cbv zeta.
  (* nameLen *)
  pose proof (getUint_mid 4 [] l1 (nb ++ l2 ++ l3 ++ rest)
                (length_le_bytes 4 _)) as G1.
  cbn [app] in G1. change (len []) with 0 in G1. rewrite G1. cbn [bind].
  rewrite !V1.
  (* filename *)
  pose proof (slice_app_mid l1 nb (l2 ++ l3 ++ rest)) as S1.
  rewrite L1 in S1. change (0 + 4) with 4. rewrite S1.
  (* fileSize *)
  pose proof (getUint_mid 4 (l1 ++ nb) l2 (l3 ++ rest) (length_le_bytes 4 _)) as G2.
  rewrite len_app, L1, <- app_assoc in G2. rewrite G2. cbn [bind].
  (* mimeLen *)
  pose proof (getUint_mid 4 (l1 ++ nb ++ l2) l3 rest (length_le_bytes 4 _)) as G3.
  rewrite !len_app, L1 in G3.
  replace (len l2) with 4 in G3 by (unfold len, l2; now rewrite length_le_bytes).
  rewrite <- !app_assoc in G3.
  replace (4 + (len nb + 4)) with (4 + len nb + 4) in G3 by lia.
  rewrite G3. cbn [bind].
  rewrite !V2, !V3.
  f_equal. f_equal.
  - (* mimeType *)
    f_equal. unfold slice.
    replace (4 + len nb + 4 + 4 + len mb - (4 + len nb + 4 + 4)) with (len mb) by lia.
    unfold len at 1. rewrite Nat2Z.id.
    replace (Z.to_nat (4 + len nb + 4 + 4))
      with (List.length (l1 ++ nb ++ l2 ++ l3))
      by (rewrite !length_app; unfold l1, l2, l3;
          rewrite !length_le_bytes; unfold len; lia).
    replace (l1 ++ nb ++ l2 ++ l3 ++ rest) with ((l1 ++ nb ++ l2 ++ l3) ++ rest)
      by (now rewrite <- !app_assoc).
    rewrite skipn_app, Nat.sub_diag, skipn_all. cbn [app skipn].
    apply firstn_firstn_app_one.
  - (* isEncrypted *)
    replace (Z.to_nat (4 + len nb + 4 + 4 + len mb))
      with (List.length (l1 ++ nb ++ l2 ++ l3) + List.length mb)%nat
      by (rewrite !length_app; unfold l1, l2, l3;
          rewrite !length_le_bytes; unfold len; lia).
    replace (l1 ++ nb ++ l2 ++ l3 ++ rest) with ((l1 ++ nb ++ l2 ++ l3) ++ rest)
      by (now rewrite <- !app_assoc).
    rewrite nth_error_app2 by lia.
    replace (List.length (l1 ++ nb ++ l2 ++ l3) + List.length mb
             - List.length (l1 ++ nb ++ l2 ++ l3))%nat
      with (List.length mb) by lia.
    unfold rest. rewrite nth_error_firstn_app_one.
    destruct (List.length mb <? j)%nat; destruct enc; reflexivity.
Qed.
End MetadataDecode.

Section MetadataExtras.
Import JS TypedArray Packets Text Aux.

Lemma getUint_throw (n : nat) (a : Uint8Array) (off : Z) :
  len a < off + Z.of_nat n -> getUint n a off = Throw RangeError.
Proof.
  intros H. unfold getUint. apply Z.ltb_lt in H. rewrite H.
  now rewrite orb_true_r.
Qed.

(** X7: [decodeMetadata] either returns metadata or throws a RangeError, and
    it throws exactly when the payload is shorter than the twelve bytes of its
    three length and size fields plus the declared name length: neither the
    declared media type length nor the presence of the flag byte is checked. *)
Theorem decodeMetadata_throws_iff (payload : Uint8Array) :
  bytes_ok payload ->
  (decodeMetadata payload = Throw RangeError \/
   exists m, decodeMetadata payload = Ok m) /\
  (decodeMetadata payload = Throw RangeError <->
   len payload < 4 \/ len payload < 12 + le_value (firstn 4 payload)).
Proof.
  intros Hb.
  pose proof (le_value_nonneg (firstn 4 payload) (bytes_ok_firstn 4 _ Hb)) as Hn.
  assert (Hshort : len payload < 4 -> decodeMetadata payload = Throw RangeError).
  { intros H. unfold decodeMetadata. cbv zeta.
    rewrite getUint_throw by (simpl Z.of_nat; lia). reflexivity. }
  assert (Hlong : 4 <= len payload ->
            decodeMetadata payload =
            (fileSize <- getUint 4 payload (4 + le_value (firstn 4 payload)) ;;
             mimeLen <- getUint 4 payload (4 + le_value (firstn 4 payload) + 4) ;;
             Ok {| filename :=
                     decode (slice payload 4 (4 + le_value (firstn 4 payload)));
                   fileSize := fileSize;
                   mimeType :=
                     decode (slice payload (4 + le_value (firstn 4 payload) + 4 + 4)
                               (4 + le_value (firstn 4 payload) + 4 + 4 + mimeLen));
                   isEncrypted :=
                     match nth_error payload
                             (Z.to_nat (4 + le_value (firstn 4 payload) + 4 + 4 + mimeLen))
                     with Some b => b =? 1 | None => false end |})).
  { intros H. unfold decodeMetadata. cbv zeta.
    rewrite (getUint_ok 4 payload 0) by (simpl Z.of_nat; lia).
    cbn [bind Z.to_nat skipn]. reflexivity. }
  assert (Hthrow : len payload < 4 \/ len payload < 12 + le_value (firstn 4 payload) ->
                   decodeMetadata payload = Throw RangeError).
  { intros [H|H]; [now apply Hshort|].
    destruct (Z.lt_ge_cases (len payload) 4) as [H4|H4]; [now apply Hshort|].
    rewrite Hlong by exact H4.
    destruct (Z.lt_ge_cases (len payload) (8 + le_value (firstn 4 payload)))
      as [H8|H8].
    + rewrite getUint_throw by (simpl Z.of_nat; lia). reflexivity.
    + rewrite (getUint_ok 4 payload (4 + _)) by (simpl Z.of_nat; lia).
      cbn [bind]. rewrite getUint_throw by (simpl Z.of_nat; lia). reflexivity. }
  assert (Hok : 4 <= len payload -> 12 + le_value (firstn 4 payload) <= len payload ->
                exists m, decodeMetadata payload = Ok m).
  { intros H4 H12. rewrite Hlong by exact H4.
    rewrite (getUint_ok 4 payload (4 + _)) by (simpl Z.of_nat; lia).
    cbn [bind].
    rewrite (getUint_ok 4 payload (4 + _ + 4)) by (simpl Z.of_nat; lia).
    cbn [bind]. eauto. }
  destruct (Z.lt_ge_cases (len payload) 4) as [H4|H4].
  { split; [left; auto|]. split; auto. }
  destruct (Z.lt_ge_cases (len payload) (12 + le_value (firstn 4 payload)))
    as [H12|H12].
  { split; [left; auto|]. split; auto. }
  destruct (Hok H4 H12) as [m Hm].
  split; [right; eauto|]. split; [|auto].
  rewrite Hm. discriminate.
Qed.

Lemma decodeMetadata_throws_iff_witness :
  (decodeMetadata [9; 0; 0; 0; 97; 7; 0; 0; 0; 0; 0; 0; 0] = Throw RangeError \/
   exists m, decodeMetadata [9; 0; 0; 0; 97; 7; 0; 0; 0; 0; 0; 0; 0] = Ok m) /\
  (decodeMetadata [9; 0; 0; 0; 97; 7; 0; 0; 0; 0; 0; 0; 0] = Throw RangeError <->
   len [9; 0; 0; 0; 97; 7; 0; 0; 0; 0; 0; 0; 0] < 4 \/
   len [9; 0; 0; 0; 97; 7; 0; 0; 0; 0; 0; 0; 0]
     < 12 + le_value (firstn 4 [9; 0; 0; 0; 97; 7; 0; 0; 0; 0; 0; 0; 0])).
Proof.
  apply (decodeMetadata_throws_iff [9; 0; 0; 0; 97; 7; 0; 0; 0; 0; 0; 0; 0]).
  reflexivity.
Defined.

Lemma metadata_bytes_split (nb : list Z) (size : Z) (mb : list Z) (enc : bool)
    (k : nat) :
  (12 + List.length nb <= k)%nat ->
  firstn k (metadata_bytes nb size mb enc)
  = le_bytes 4 (len nb) ++ nb ++ le_bytes 4 size ++ le_bytes 4 (len mb)
      ++ firstn (k - (12 + List.length nb)) (mb ++ [if enc then 1 else 0]).
Proof.
  intros Hk. unfold metadata_bytes.
  replace (le_bytes 4 (len nb) ++ nb ++ le_bytes 4 size ++ le_bytes 4 (len mb)
             ++ mb ++ [if enc then 1 else 0])
    with ((le_bytes 4 (len nb) ++ nb ++ le_bytes 4 size ++ le_bytes 4 (len mb))
            ++ (mb ++ [if enc then 1 else 0]))
    by (now rewrite <- !app_assoc).
  assert (L : List.length (le_bytes 4 (len nb) ++ nb ++ le_bytes 4 size
                             ++ le_bytes 4 (len mb)) = (12 + List.length nb)%nat)
    by (rewrite !length_app, !length_le_bytes; lia).
  rewrite firstn_app, L, firstn_all2 by lia.
  now rewrite <- !app_assoc.
Qed.

Lemma decodeMetadata_prefix (name : jsstring) (size : Z) (mime : jsstring)
    (enc : bool) (k : nat) :
  len (encode name) < 2 ^ 32 -> len (encode mime) < 2 ^ 32 ->
  (12 + List.length (encode name) <= k)%nat ->
  decodeMetadata (firstn k (metadata_bytes (encode name) size (encode mime) enc))
  = Ok {| filename := decode (encode name);
          fileSize := size mod 2 ^ 32;
          mimeType :=
            decode (firstn (k - (12 + List.length (encode name))) (encode mime));
          isEncrypted :=
            enc && (List.length (encode mime)
                    <? k - (12 + List.length (encode name)))%nat |}.
Proof.
  intros Hn Hm Hk. rewrite metadata_bytes_split by exact Hk.
  now apply decodeMetadata_cut.
Qed.

Lemma length_metadata_bytes (nb : list Z) (size : Z) (mb : list Z) (enc : bool) :
  List.length (metadata_bytes nb size mb enc)
  = (13 + List.length nb + List.length mb)%nat.
Proof.
  unfold metadata_bytes. rewrite !length_app, !length_le_bytes. cbn [List.length].
  lia.
Qed.

Lemma decodeMetadata_encodeMetadata (name : jsstring) (size : Z) (mime : jsstring)
    (enc : bool) :
  len (encode name) < 2 ^ 32 -> len (encode mime) < 2 ^ 32 ->
  (payload <- encodeMetadata name size mime enc ;; decodeMetadata payload)
  = Ok {| filename := decode (encode name); fileSize := size mod 2 ^ 32;
          mimeType := decode (encode mime); isEncrypted := enc |}.
Proof.
  intros Hn Hm. rewrite encodeMetadata_shape. cbn [bind].
  rewrite <- (firstn_all (metadata_bytes _ _ _ _)).
  rewrite decodeMetadata_prefix by (try assumption; rewrite length_metadata_bytes; lia).
  rewrite length_metadata_bytes.
  replace (13 + List.length (encode name) + List.length (encode mime)
           - (12 + List.length (encode name)))%nat
    with (S (List.length (encode mime))) by lia.
  rewrite firstn_all2 by lia.
  rewrite (proj2 (Nat.ltb_lt _ _)) by lia. now rewrite andb_true_r.
Qed.

(** X8: a metadata payload cut anywhere inside its media type (so also
    without its flag byte) is decoded without an error: the name and size are
    intact, the media type is whatever the remaining bytes decode to and the
    encrypted flag reads as false. *)
Theorem decodeMetadata_accepts_truncated (name : jsstring) (size : Z)
    (mime : jsstring) (enc : bool) (k : nat) :
  len (encode name) < 2 ^ 32 -> len (encode mime) < 2 ^ 32 ->
  (k <= List.length (encode mime))%nat ->
  (payload <- encodeMetadata name size mime enc ;;
   decodeMetadata (firstn (12 + List.length (encode name) + k) payload))
  = Ok {| filename := decode (encode name);
          fileSize := size mod 2 ^ 32;
          mimeType := decode (firstn k (encode mime));
          isEncrypted := false |}.
Proof.
  intros Hn Hm Hk. rewrite encodeMetadata_shape. cbn [bind].
  rewrite decodeMetadata_prefix by (try assumption; lia).
  replace (12 + List.length (encode name) + k - (12 + List.length (encode name)))%nat
    with k by lia.
  rewrite (proj2 (Nat.ltb_ge _ _)) by lia. now rewrite andb_false_r.
Qed.

Lemma decodeMetadata_accepts_truncated_witness :
  (payload <- encodeMetadata [97; 46; 98] 5 [116; 101; 120; 116] true ;;
   decodeMetadata (firstn (12 + List.length (encode [97; 46; 98]) + 2) payload))
  = Ok {| filename := decode (encode [97; 46; 98]);
          fileSize := 5 mod 2 ^ 32;
          mimeType := decode (firstn 2 (encode [116; 101; 120; 116]));
          isEncrypted := false |}.
Proof.
  apply (decodeMetadata_accepts_truncated [97; 46; 98] 5 [116; 101; 120; 116] true 2).
  - vm_compute. reflexivity.
  - vm_compute. reflexivity.
  - vm_compute. lia.
Defined.

(** X9: the metadata codec is an inverse pair on well-formed input: for
    strings of scalar values that do not start with U+FEFF and a size below
    [2 ^ 32], decoding the encoded metadata gives back the four fields. *)
Theorem decodeMetadata_encodeMetadata_roundtrip (name : jsstring) (size : Z)
    (mime : jsstring) (enc : bool) :
  well_formed name -> well_formed mime ->
  hd 0 name <> 0xFEFF -> hd 0 mime <> 0xFEFF ->
  0 <= size < 2 ^ 32 ->
  len (encode name) < 2 ^ 32 -> len (encode mime) < 2 ^ 32 ->
  (payload <- encodeMetadata name size mime enc ;; decodeMetadata payload)
  = Ok {| filename := name; fileSize := size; mimeType := mime;
          isEncrypted := enc |}.
Proof.
  intros Wn Wm Bn Bm Hs Hn Hm.
  rewrite decodeMetadata_encodeMetadata by assumption.
  rewrite !decode_encode by (now apply well_formed_code_points).
  rewrite !sanitize_well_formed by assumption.
  rewrite Z.mod_small by lia.
  assert (Hstrip : forall s, hd 0 s <> 0xFEFF -> strip_bom s = s).
  { intros [|c s] H; [reflexivity|]. cbn [hd] in H. cbn [strip_bom].
    now rewrite (proj2 (Z.eqb_neq c 0xFEFF)). }
  now rewrite !Hstrip.
Qed.

Lemma decodeMetadata_encodeMetadata_roundtrip_witness :
  (payload <- encodeMetadata [97; 233; 8364; 128512] 256 [116; 47; 120] true ;;
   decodeMetadata payload)
  = Ok {| filename := [97; 233; 8364; 128512]; fileSize := 256;
          mimeType := [116; 47; 120]; isEncrypted := true |}.
Proof.
  apply (decodeMetadata_encodeMetadata_roundtrip
           [97; 233; 8364; 128512] 256 [116; 47; 120] true).
  - reflexivity.
  - reflexivity.
  - cbn. discriminate.
  - cbn. discriminate.
  - lia.
  - vm_compute. reflexivity.
  - vm_compute. reflexivity.
Defined.

(** X10: what the metadata codec does to any name and media type: each comes
    back with unpaired surrogates replaced by U+FFFD and a leading U+FEFF
    removed, and the size comes back modulo [2 ^ 32]. *)
Theorem decodeMetadata_encodeMetadata_normalises (name : jsstring) (size : Z)
    (mime : jsstring) (enc : bool) :
  code_points name -> code_points mime ->
  len (encode name) < 2 ^ 32 -> len (encode mime) < 2 ^ 32 ->
  (payload <- encodeMetadata name size mime enc ;; decodeMetadata payload)
  = Ok {| filename := strip_bom (sanitize name); fileSize := size mod 2 ^ 32;
          mimeType := strip_bom (sanitize mime); isEncrypted := enc |}.
Proof.
  intros Cn Cm Hn Hm.
  rewrite decodeMetadata_encodeMetadata by assumption.
  now rewrite !decode_encode by assumption.
Qed.

Lemma decodeMetadata_encodeMetadata_normalises_witness :
  (payload <- encodeMetadata [0xFEFF; 97; 0xD800] (2 ^ 32 + 1) [116] false ;;
   decodeMetadata payload)
  = Ok {| filename := strip_bom (sanitize [0xFEFF; 97; 0xD800]);
          fileSize := (2 ^ 32 + 1) mod 2 ^ 32;
          mimeType := strip_bom (sanitize [116]); isEncrypted := false |}.
Proof.
  apply (decodeMetadata_encodeMetadata_normalises
           [0xFEFF; 97; 0xD800] (2 ^ 32 + 1) [116] false).
  - reflexivity.
  - reflexivity.
  - vm_compute. reflexivity.
  - vm_compute. reflexivity.
Defined.
End MetadataExtras.

(** ** Fountain code *)

Section XorFacts.
Import JS TypedArray Fountain.

Lemma xor32_byte (x y : Z) :
  0 <= x < 256 -> 0 <= y < 256 ->
  xor32 x y mod 256 = Z.lxor x y /\ 0 <= Z.lxor x y < 256.
Proof.
  intros Hx Hy. pose proof (lxor_bound 8 x y ltac:(lia) Hx Hy) as H.
  change (2 ^ 8) with 256 in H. split; [|exact H].
  rewrite xor32_small by lia. apply Z.mod_small. exact H.
Qed.

Lemma length_xorBytes (a b : Uint8Array) :
  List.length (xorBytes a b) = Nat.max (List.length a) (List.length b).
Proof. unfold xorBytes. now rewrite length_map, length_seq. Qed.

Lemma nth_xorBytes (a b : Uint8Array) (i : nat) :
  (i < Nat.max (List.length a) (List.length b))%nat ->
  nth i (xorBytes a b) 0 = xor32 (get0 a i) (get0 b i) mod 256.
Proof.
  intros H. unfold xorBytes.
  rewrite (nth_indep _ 0 ((fun i => xor32 (get0 a i) (get0 b i) mod 256) 0%nat))
    by (now rewrite length_map, length_seq).
  rewrite (map_nth (fun i => xor32 (get0 a i) (get0 b i) mod 256)).
  now rewrite seq_nth.
Qed.

Lemma bytes_ok_xorBytes (a b : Uint8Array) : bytes_ok (xorBytes a b).
Proof.
  unfold bytes_ok, xorBytes. apply forallb_forall. intros x Hx.
  apply in_map_iff in Hx. destruct Hx as [k [<- _]].
  apply is_byte_range. apply Z.mod_pos_bound. lia.
Qed.

Lemma nth_xorBytes_lxor (a b : Uint8Array) (i : nat) :
  bytes_ok a -> bytes_ok b ->
  nth i (xorBytes a b) 0 = Z.lxor (nth i a 0) (nth i b 0).
Proof.
  intros Ha Hb.
  destruct (Nat.lt_ge_cases i (Nat.max (List.length a) (List.length b))) as [H|H].
  - rewrite nth_xorBytes by exact H.
    apply xor32_byte; [apply (get0_byte a i Ha) | apply (get0_byte b i Hb)].
  - rewrite nth_overflow by (rewrite length_xorBytes; lia).
    rewrite !nth_overflow by lia. reflexivity.
Qed.

Lemma xorBytes_comm (a b : Uint8Array) : xorBytes a b = xorBytes b a.
Proof.
  unfold xorBytes. rewrite Nat.max_comm. apply map_ext. intros i.
  unfold xor32. now rewrite Z.lxor_comm.
Qed.

(** XOR-ing twice with the same bytes gives back the first operand. *)
Lemma xorBytes_cancel (a b : Uint8Array) :
  bytes_ok a -> bytes_ok b -> (List.length b <= List.length a)%nat ->
  xorBytes (xorBytes a b) b = a.
Proof.
  intros Ha Hb Hl. apply (nth_ext _ _ 0 0).
  - rewrite !length_xorBytes. lia.
  - intros i _. rewrite !nth_xorBytes_lxor
      by (try assumption; apply bytes_ok_xorBytes).
    now rewrite Z.lxor_assoc, Z.lxor_nilpotent, Z.lxor_0_r.
Qed.

Lemma xorBytes_zeros_l (n : nat) (b : Uint8Array) :
  bytes_ok b -> (n <= List.length b)%nat -> xorBytes (repeat 0 n) b = b.
Proof.
  intros Hb Hn. apply (nth_ext _ _ 0 0).
  - rewrite length_xorBytes, repeat_length. lia.
  - intros i _. rewrite nth_xorBytes_lxor
      by (try assumption; apply bytes_ok_repeat).
    replace (nth i (repeat 0 n) 0) with 0; [apply Z.lxor_0_l|].
    destruct (Nat.lt_ge_cases i n) as [H|H].
    + now rewrite nth_repeat_lt.
    + now rewrite nth_overflow by (rewrite repeat_length; lia).
Qed.
End XorFacts.

Section SelectFacts.
Import JS TypedArray Fountain Aux.

Lemma number_eqb_eq (a b : number) : number_eqb a b = true <-> a = b.
Proof.
  destruct a as [x|], b as [y|]; cbn [number_eqb]; try (split; congruence).
  rewrite Z.eqb_eq. split; congruence.
Qed.

Lemma existsb_number_In (x : number) (l : list number) :
  existsb (number_eqb x) l = true <-> In x l.
Proof.
  rewrite existsb_exists. split.
  - intros [y [Hy E]]. apply number_eqb_eq in E. now subst.
  - intros H. exists x. split; [exact H|now apply number_eqb_eq].
Qed.

Lemma set_add_NoDup (x : number) (l : list number) :
  NoDup l -> NoDup (set_add x l).
Proof.
  intros H. unfold set_add. destruct (existsb (number_eqb x) l) eqn:E; [exact H|].
  apply NoDup_app; [exact H | repeat constructor; intros [] | ].
  intros y Hy [<-|[]].
  apply existsb_number_In in Hy. congruence.
Qed.

Lemma set_add_Forall (P : number -> Prop) (x : number) (l : list number) :
  P x -> Forall P l -> Forall P (set_add x l).
Proof.
  intros Hx Hl. unfold set_add. destruct (existsb _ _); [exact Hl|].
  apply Forall_app. split; [exact Hl|now constructor].
Qed.

Lemma size_set_add (x : number) (l : list number) :
  size l <= size (set_add x l) <= size l + 1.
Proof.
  unfold set_add, size. destruct (existsb _ _); [lia|].
  rewrite length_app. cbn [List.length]. lia.
Qed.

Lemma xorshift32_out_nonneg (s : Z) : 0 <= xorshift32_out s < 2 ^ 32.
Proof. unfold xorshift32_out. rewrite shr32_0. apply toUint32_range. Qed.

Lemma rem_index_in (x n : Z) : 0 <= x -> 0 < n -> index_in n (rem x n).
Proof.
  intros Hx Hn. unfold rem. rewrite (proj2 (Z.eqb_neq n 0)) by lia.
  exists (Z.rem x n). split; [reflexivity|]. apply Z.rem_bound_pos; lia.
Qed.

Lemma select_inv (fuel : nat) (state : Z) (degree : number) (n : Z)
    (sel l : list number) :
  0 < n -> NoDup sel -> Forall (index_in n) sel ->
  select fuel state degree n sel = Ok l ->
  NoDup l /\ Forall (index_in n) l /\
  (forall d, degree = Int d -> size sel <= d -> size l = d) /\
  (degree = NaN -> l = sel).
Proof.
  intros Hn. revert state sel.
  induction fuel as [|fuel IH]; intros state sel Hnd Hf H.
  - cbn [select] in H. destruct (lt_number (size sel) degree) eqn:E; [discriminate|].
    injection H as <-. repeat split; auto.
    intros d -> Hd. cbn [lt_number] in E. apply Z.ltb_ge in E. lia.
  - cbn [select] in H. destruct (lt_number (size sel) degree) eqn:E.
    + apply IH in H.
      * destruct H as [H1 [H2 [H3 H4]]]. repeat split; auto.
        -- intros d -> Hd. apply H3; [reflexivity|].
           cbn [lt_number] in E. apply Z.ltb_lt in E.
           pose proof (size_set_add
                         (rem (xorshift32_out (xorshift32_next state)) n) sel).
           lia.
        -- intros ->. discriminate.
      * now apply set_add_NoDup.
      * apply set_add_Forall; [|exact Hf].
        apply rem_index_in; [apply xorshift32_out_nonneg | exact Hn].
    + injection H as <-. repeat split; auto.
      intros d -> Hd. cbn [lt_number] in E. apply Z.ltb_ge in E. lia.
Qed.

Lemma getRepairSources_inv (fuel : nat) (r n : Z) (l : list number) :
  1 <= n -> getRepairSources fuel r n = Ok l ->
  NoDup l /\ Forall (index_in n) l /\
  (2 <= n -> 2 <= size l <= Z.min 5 n).
Proof.
  intros Hn H. unfold getRepairSources in H.
  apply select_inv in H; [|lia|constructor|constructor].
  destruct H as [H1 [H2 [H3 _]]]. split; [exact H1|]. split; [exact H2|].
  intros Hn2.
  set (x := xorshift32_out (xorshift32_next (xorshift32 (seedOf r)))) in *.
  assert (Hr : 0 <= Z.rem x (Z.min 4 (n - 1)) < Z.min 4 (n - 1)).
  { apply Z.rem_bound_pos; [apply xorshift32_out_nonneg | lia]. }
  specialize (H3 (2 + Z.rem x (Z.min 4 (n - 1)))).
  unfold rem in H3. rewrite (proj2 (Z.eqb_neq (Z.min 4 (n - 1)) 0)) in H3 by lia.
  cbn [add_int] in H3. specialize (H3 eq_refl).
  change (size []) with 0 in H3. rewrite H3 by lia. lia.
Qed.
End SelectFacts.

Section GenerateFacts.
Import JS TypedArray Fountain Aux.

Lemma xorSources_spec (sources : list Uint8Array) (indices : list number)
    (d0 : Uint8Array) :
  Forall (index_in (Z.of_nat (List.length sources))) indices ->
  xorSources sources indices d0
  = Ok (fold_left xorBytes
          (map (fun j => nth j sources []) (map toIndex indices)) d0,
        map toIndex indices).
Proof.
  intros H. revert d0. induction H as [|x l Hx Hl IH]; intros d0; [reflexivity|].
  destruct Hx as [z [-> Hz]]. cbn [xorSources map toIndex fold_left].
  rewrite (proj2 (Z.ltb_ge z 0)) by lia.
  destruct (nth_error sources (Z.to_nat z)) as [pkt|] eqn:E.
  - rewrite IH. cbn [bind fst snd].
    apply (nth_error_nth _ _ []) in E. do 4 f_equal. symmetry. exact E.
  - apply nth_error_None in E. lia.
Qed.

Lemma NoDup_map_toIndex (n : Z) (l : list number) :
  NoDup l -> Forall (index_in n) l -> NoDup (map toIndex l).
Proof.
  intros Hnd Hf. induction Hnd as [|x l Hx Hnd IH]; [constructor|].
  inversion Hf as [|? ? Hx' Hl']; subst. cbn [map]. constructor; [|now apply IH].
  intros Hin. apply in_map_iff in Hin. destruct Hin as [y [E Hy]].
  apply Hx. destruct Hx' as [z [-> Hz]].
  rewrite Forall_forall in Hl'. destruct (Hl' y Hy) as [w [-> Hw]].
  cbn [toIndex] in E. assert (w = z) by lia. now subst.
Qed.

Lemma Forall_map_toIndex (n : nat) (l : list number) :
  Forall (index_in (Z.of_nat n)) l ->
  Forall (fun j => (j < n)%nat) (map toIndex l).
Proof.
  intros H. induction H as [|x l Hx Hl IH]; [constructor|].
  cbn [map]. constructor; [|exact IH].
  destruct Hx as [z [-> Hz]]. cbn [toIndex]. lia.
Qed.

Lemma generateRepair_inv (fuel : nat) (sources : list Uint8Array) (r : Z)
    (p : RepairPacket) :
  generateRepair fuel sources r = Ok p ->
  repair_of sources p /\ repairIndex p = r.
Proof.
  unfold generateRepair. intros H.
  destruct (getRepairSources fuel r (Z.of_nat (List.length sources)))
    as [l| |] eqn:G; try discriminate.
  cbn [bind] in H. destruct sources as [|first rest]; [discriminate|].
  apply getRepairSources_inv in G; [|cbn [List.length]; lia].
  destruct G as [G1 [G2 _]].
  rewrite xorSources_spec in H by exact G2. cbn [bind fst snd] in H.
  injection H as <-. cbn [repairIndex]. split; [|reflexivity].
  unfold repair_of. cbn [sourceIndices data hd].
  split; [eapply NoDup_map_toIndex; eauto|].
  split; [now apply Forall_map_toIndex|].
  unfold alloc, len. now rewrite Nat2Z.id.
Qed.

Lemma generateRepairs_inv (fuel : nat) (sources : list Uint8Array)
    (rs : list nat) (ps : list RepairPacket) :
  generateRepairs fuel sources rs = Ok ps ->
  Forall (repair_of sources) ps /\
  map repairIndex ps = map Z.of_nat rs.
Proof.
  revert ps. induction rs as [|r rs IH]; intros ps H.
  - injection H as <-. split; [constructor|reflexivity].
  - cbn [generateRepairs] in H.
    destruct (generateRepair fuel sources (Z.of_nat r)) as [p| |] eqn:G;
      try discriminate.
    cbn [bind] in H.
    destruct (generateRepairs fuel sources rs) as [ps'| |] eqn:G';
      try discriminate.
    cbn [bind] in H. injection H as <-.
    apply generateRepair_inv in G. destruct G as [G1 G2].
    destruct (IH ps' eq_refl) as [I1 I2].
    split; [now constructor|]. cbn [map]. now rewrite G2, I2.
Qed.
End GenerateFacts.

Section RecoverFacts.
Import JS TypedArray Fountain Aux.

Lemma length_withLoss (i : nat) (s : list Uint8Array) :
  (i < List.length s)%nat -> List.length (withLoss i s) = List.length s.
Proof.
  intros H. unfold withLoss.
  rewrite length_app, length_map, length_firstn. cbn [List.length].
  rewrite length_map, length_skipn. lia.
Qed.

Lemma nth_error_withLoss (i j : nat) (s : list Uint8Array) :
  (i < List.length s)%nat ->
  nth_error (withLoss i s) j
  = if (j =? i)%nat then Some None else option_map Some (nth_error s j).
Proof.
  intros H. unfold withLoss.
  destruct (Nat.lt_trichotomy j i) as [Hlt|[->|Hgt]].
  - rewrite (proj2 (Nat.eqb_neq j i)) by lia.
    rewrite nth_error_app1 by (rewrite length_map, length_firstn; lia).
    rewrite nth_error_map, nth_error_firstn.
    now rewrite (proj2 (Nat.ltb_lt j i)) by lia.
  - rewrite Nat.eqb_refl.
    rewrite nth_error_app2 by (rewrite length_map, length_firstn; lia).
    rewrite length_map, length_firstn.
    replace (i - Nat.min i (List.length s))%nat with 0%nat by lia. reflexivity.
  - rewrite (proj2 (Nat.eqb_neq j i)) by lia.
    rewrite nth_error_app2 by (rewrite length_map, length_firstn; lia).
    rewrite length_map, length_firstn.
    replace (j - Nat.min i (List.length s))%nat with (S (j - S i)) by lia.
    cbn [nth_error]. rewrite nth_error_map, nth_error_skipn.
    do 2 f_equal. lia.
Qed.

Lemma present_withLoss (i j : nat) (s : list Uint8Array) :
  (i < List.length s)%nat -> (j < List.length s)%nat ->
  present (withLoss i s) j = if (j =? i)%nat then None else Some (nth j s []).
Proof.
  intros Hi Hj. unfold present. rewrite nth_error_withLoss by exact Hi.
  destruct (j =? i)%nat; [reflexivity|].
  now rewrite (nth_error_nth' s [] Hj).
Qed.

Lemma present_all (j : nat) (s : list Uint8Array) :
  (j < List.length s)%nat -> present (map Some s) j = Some (nth j s []).
Proof.
  intros Hj. unfold present. rewrite nth_error_map.
  now rewrite (nth_error_nth' s [] Hj).
Qed.

Lemma split_at_nth {A : Type} (i : nat) (s : list A) (d : A) :
  (i < List.length s)%nat -> s = firstn i s ++ nth i s d :: skipn (S i) s.
Proof.
  revert i. induction s as [|x s IH]; intros i H; [cbn in H; lia|].
  destruct i as [|i]; [reflexivity|].
  cbn [firstn nth skipn app]. f_equal. apply IH. cbn in H. lia.
Qed.

Lemma assign_withLoss (i : nat) (s : list Uint8Array) :
  (i < List.length s)%nat -> assign (withLoss i s) i (nth i s []) = map Some s.
Proof.
  intros H. unfold assign. rewrite length_withLoss by exact H.
  rewrite (proj2 (Nat.ltb_lt _ _) H). unfold withLoss.
  rewrite firstn_app, length_map, length_firstn.
  replace (i - Nat.min i (List.length s))%nat with 0%nat by lia.
  rewrite firstn_all2 by (rewrite length_map, length_firstn; lia).
  cbn [firstn]. rewrite app_nil_r.
  rewrite skipn_app, length_map, length_firstn.
  replace (S i - Nat.min i (List.length s))%nat with 1%nat by lia.
  rewrite skipn_all2 by (rewrite length_map, length_firstn; lia).
  cbn [skipn app].
  rewrite (split_at_nth i s [] H) at 4.
  rewrite map_app. reflexivity.
Qed.
End RecoverFacts.

Section PeelFacts.
Import JS TypedArray Fountain Aux.

Lemma fold_lxor_acc (l : list Z) (a : Z) :
  fold_left Z.lxor l a = Z.lxor a (fold_left Z.lxor l 0).
Proof.
  revert a. induction l as [|x l IH]; intros a.
  - cbn. now rewrite Z.lxor_0_r.
  - cbn [fold_left]. rewrite IH, (IH (Z.lxor 0 x)).
    now rewrite Z.lxor_0_l, Z.lxor_assoc.
Qed.

Lemma filter_eqb_absent (idx : list nat) (i : nat) :
  ~ In i idx -> filter (fun j => negb (j =? i)%nat) idx = idx.
Proof.
  intros H. induction idx as [|j t IH]; [reflexivity|].
  cbn [filter]. rewrite (proj2 (Nat.eqb_neq j i)) by (intros ->; apply H; now left).
  cbn [negb]. f_equal. apply IH. intros Hc. apply H. now right.
Qed.

Lemma xsum_split (f : nat -> Z) (idx : list nat) (i : nat) :
  NoDup idx -> In i idx ->
  fold_left Z.lxor (map f idx) 0
  = Z.lxor (f i)
      (fold_left Z.lxor (map f (filter (fun j => negb (j =? i)%nat) idx)) 0).
Proof.
  intros Hnd. induction Hnd as [|j t Hj Hnd IH]; intros Hin; [destruct Hin|].
  cbn [map fold_left filter]. rewrite fold_lxor_acc, Z.lxor_0_l.
  destruct (Nat.eqb_spec j i) as [->|Hne].
  - cbn [negb]. now rewrite filter_eqb_absent by exact Hj.
  - cbn [negb map fold_left]. destruct Hin as [E|Hin]; [congruence|].
    rewrite (fold_lxor_acc _ (Z.lxor 0 (f j))), Z.lxor_0_l.
    rewrite IH by exact Hin.
    rewrite <- !Z.lxor_assoc. f_equal. apply Z.lxor_comm.
Qed.

Lemma filter_eqb_NoDup (idx : list nat) (i : nat) :
  NoDup idx -> In i idx -> filter (fun j => (j =? i)%nat) idx = [i].
Proof.
  intros Hnd. induction Hnd as [|j t Hj Hnd IH]; intros Hin; [destruct Hin|].
  cbn [filter]. destruct (Nat.eqb_spec j i) as [->|Hne].
  - f_equal. clear IH Hin Hnd. induction t as [|k t IH]; [reflexivity|].
    cbn [filter].
    rewrite (proj2 (Nat.eqb_neq k i)) by (intros ->; apply Hj; now left).
    apply IH. intros Hc. apply Hj. now right.
  - destruct Hin as [E|Hin]; [congruence|]. now apply IH.
Qed.

Lemma filter_eqb_none (idx : list nat) (i : nat) :
  ~ In i idx -> filter (fun j => (j =? i)%nat) idx = [].
Proof.
  intros H. induction idx as [|j t IH]; [reflexivity|].
  cbn [filter]. rewrite (proj2 (Nat.eqb_neq j i)) by (intros ->; apply H; now left).
  apply IH. intros Hc. apply H. now right.
Qed.

Lemma bytes_ok_fold_xorBytes (ps : list Uint8Array) (d : Uint8Array) :
  bytes_ok d -> bytes_ok (fold_left xorBytes ps d).
Proof.
  revert d. induction ps as [|p ps IH]; intros d Hd; [exact Hd|].
  cbn [fold_left]. apply IH, bytes_ok_xorBytes.
Qed.

Lemma length_fold_xorBytes (L : nat) (ps : list Uint8Array) (d : Uint8Array) :
  List.length d = L -> Forall (fun p => List.length p = L) ps ->
  List.length (fold_left xorBytes ps d) = L.
Proof.
  intros Hd Hps. revert d Hd. induction Hps as [|p ps Hp Hps IH]; intros d Hd;
    [exact Hd|].
  cbn [fold_left]. apply IH. rewrite length_xorBytes. lia.
Qed.

Lemma nth_fold_xorBytes (k : nat) (ps : list Uint8Array) (d : Uint8Array) :
  bytes_ok d -> Forall bytes_ok ps ->
  nth k (fold_left xorBytes ps d) 0
  = fold_left Z.lxor (map (fun p => nth k p 0) ps) (nth k d 0).
Proof.
  intros Hd Hps. revert d Hd. induction Hps as [|p ps Hp Hps IH]; intros d Hd;
    [reflexivity|].
  cbn [fold_left map]. rewrite IH by apply bytes_ok_xorBytes.
  now rewrite nth_xorBytes_lxor.
Qed.

Lemma chunks_ok_nth (L : nat) (s : list Uint8Array) (j : nat) :
  chunks_ok L s -> (j < List.length s)%nat ->
  List.length (nth j s []) = L /\ bytes_ok (nth j s []).
Proof.
  unfold chunks_ok. rewrite Forall_forall. intros H Hj. apply H, nth_In, Hj.
Qed.

Lemma chunks_ok_map (L : nat) (s : list Uint8Array) (idx : list nat) :
  chunks_ok L s -> Forall (fun j => (j < List.length s)%nat) idx ->
  Forall (fun p => List.length p = L) (map (fun j => nth j s []) idx) /\
  Forall bytes_ok (map (fun j => nth j s []) idx).
Proof.
  intros Hs Hidx. induction Hidx as [|j t Hj Ht IH]; [split; constructor|].
  destruct IH as [I1 I2]. destruct (chunks_ok_nth L s j Hs Hj) as [C1 C2].
  cbn [map]. split; constructor; assumption.
Qed.

(** The XOR loop of [recoverPackets] over a repair whose only absent source
    is [i]. *)
Lemma peel_fold_others (i : nat) (s : list Uint8Array) (idx : list nat)
    (d : Uint8Array) :
  (i < List.length s)%nat ->
  Forall (fun j => (j < List.length s)%nat) idx ->
  fold_left
    (fun d j =>
       if negb (j =? i)%nat then
         match present (withLoss i s) j with
         | Some p => xorBytes d p
         | None => d
         end
       else d) idx d
  = fold_left xorBytes
      (map (fun j => nth j s []) (filter (fun j => negb (j =? i)%nat) idx)) d.
Proof.
  intros Hi Hidx. revert d. induction Hidx as [|j t Hj Ht IH]; intros d;
    [reflexivity|].
  cbn [fold_left filter]. rewrite IH.
  destruct (Nat.eqb_spec j i) as [->|Hne]; cbn [negb]; [reflexivity|].
  rewrite present_withLoss by assumption.
  rewrite (proj2 (Nat.eqb_neq j i) Hne). reflexivity.
Qed.

Lemma filter_sub_Forall {A : Type} (P : A -> Prop) (f : A -> bool) (l : list A) :
  Forall P l -> Forall P (filter f l).
Proof.
  intros H. induction H as [|x l Hx Hl IH]; [constructor|].
  cbn [filter]. destruct (f x); [now constructor|exact IH].
Qed.

Lemma recovered_data (L i : nat) (s : list Uint8Array) (p : RepairPacket) :
  chunks_ok L s -> repair_of s p -> (i < List.length s)%nat ->
  In i (sourceIndices p) ->
  fold_left xorBytes
    (map (fun j => nth j s [])
       (filter (fun j => negb (j =? i)%nat) (sourceIndices p))) (data p)
  = nth i s [].
Proof.
  intros Hs [Hnd [Hidx Hdata]] Hi Hin.
  assert (HL : List.length (hd [] s) = L).
  { destruct s as [|x s']; [cbn in Hi; lia|]. cbn [hd].
    inversion Hs; subst; tauto. }
  rewrite HL in Hdata.
  destruct (chunks_ok_map L s _ Hs Hidx) as [A1 A2].
  destruct (chunks_ok_map L s _ Hs
              (filter_sub_Forall _ (fun j => negb (j =? i)%nat) _ Hidx)) as [B1 B2].
  destruct (chunks_ok_nth L s i Hs Hi) as [C1 C2].
  assert (Dlen : List.length (data p) = L)
    by (rewrite Hdata; apply length_fold_xorBytes;
        [apply repeat_length | exact A1]).
  assert (Dok : bytes_ok (data p))
    by (rewrite Hdata; apply bytes_ok_fold_xorBytes, bytes_ok_repeat).
  apply (nth_ext _ _ 0 0).
  - rewrite C1. now apply length_fold_xorBytes.
  - intros k _. rewrite nth_fold_xorBytes by assumption.
    rewrite Hdata at 1.
    rewrite nth_fold_xorBytes by (try apply bytes_ok_repeat; assumption).
    replace (nth k (repeat 0 L) 0) with 0.
    2:{ destruct (Nat.lt_ge_cases k L) as [H|H].
        - now rewrite nth_repeat_lt.
        - now rewrite nth_overflow by (rewrite repeat_length; lia). }
    rewrite !map_map.
    rewrite fold_lxor_acc.
    rewrite (xsum_split (fun j => nth k (nth j s []) 0) _ i Hnd Hin).
    now rewrite Z.lxor_assoc, Z.lxor_nilpotent, Z.lxor_0_r.
Qed.

Lemma absent_withLoss (i j : nat) (s : list Uint8Array) :
  (i < List.length s)%nat -> (j < List.length s)%nat ->
  absent (withLoss i s) j = (j =? i)%nat.
Proof.
  intros Hi Hj. unfold absent. rewrite present_withLoss by assumption.
  now destruct (j =? i)%nat.
Qed.

Lemma filter_absent_withLoss (i : nat) (s : list Uint8Array) (idx : list nat) :
  (i < List.length s)%nat ->
  Forall (fun j => (j < List.length s)%nat) idx ->
  filter (absent (withLoss i s)) idx = filter (fun j => (j =? i)%nat) idx.
Proof.
  intros Hi Hidx. induction Hidx as [|j t Hj Ht IH]; [reflexivity|].
  cbn [filter]. rewrite absent_withLoss by assumption. now rewrite IH.
Qed.

Lemma filter_absent_all (s : list Uint8Array) (idx : list nat) :
  Forall (fun j => (j < List.length s)%nat) idx ->
  filter (absent (map Some s)) idx = [].
Proof.
  intros Hidx. induction Hidx as [|j t Hj Ht IH]; [reflexivity|].
  cbn [filter]. unfold absent at 1. rewrite present_all by exact Hj. exact IH.
Qed.

Lemma peel_all_present (s : list Uint8Array) (c : bool) (p : RepairPacket) :
  Forall (fun j => (j < List.length s)%nat) (sourceIndices p) ->
  peel (map Some s, c) p = (map Some s, c).
Proof. intros H. unfold peel. now rewrite filter_absent_all. Qed.

Lemma peel_uncovered (i : nat) (s : list Uint8Array) (c : bool) (p : RepairPacket) :
  (i < List.length s)%nat ->
  Forall (fun j => (j < List.length s)%nat) (sourceIndices p) ->
  ~ In i (sourceIndices p) ->
  peel (withLoss i s, c) p = (withLoss i s, c).
Proof.
  intros Hi Hidx Hin. unfold peel.
  rewrite filter_absent_withLoss by assumption.
  now rewrite filter_eqb_none.
Qed.

Lemma peel_covered (L i : nat) (s : list Uint8Array) (c : bool) (p : RepairPacket) :
  chunks_ok L s -> repair_of s p -> (i < List.length s)%nat ->
  In i (sourceIndices p) ->
  peel (withLoss i s, c) p = (map Some s, true).
Proof.
  intros Hs Hp Hi Hin. pose proof Hp as [Hnd [Hidx Hdata]]. unfold peel.
  rewrite filter_absent_withLoss by assumption.
  rewrite filter_eqb_NoDup by assumption.
  rewrite peel_fold_others by assumption.
  rewrite (recovered_data L) by assumption.
  now rewrite assign_withLoss.
Qed.
End PeelFacts.

Section RecoverPass.
Import JS TypedArray Fountain Aux.

Lemma existsb_eqb_In (i : nat) (l : list nat) :
  existsb (Nat.eqb i) l = true <-> In i l.
Proof.
  rewrite existsb_exists. split.
  - intros [j [Hj E]]. apply Nat.eqb_eq in E. now subst.
  - intros H. exists i. split; [exact H|apply Nat.eqb_refl].
Qed.

Lemma pass_all_present (s : list Uint8Array) (c : bool)
    (repairs : list RepairPacket) :
  Forall (fun p => Forall (fun j => (j < List.length s)%nat) (sourceIndices p))
    repairs ->
  fold_left peel repairs (map Some s, c) = (map Some s, c).
Proof.
  intros H. induction H as [|p ps Hp Hps IH]; [reflexivity|].
  cbn [fold_left]. now rewrite peel_all_present.
Qed.

Lemma repair_of_in_range (s : list Uint8Array) (repairs : list RepairPacket) :
  Forall (repair_of s) repairs ->
  Forall (fun p => Forall (fun j => (j < List.length s)%nat) (sourceIndices p))
    repairs.
Proof.
  intros H. induction H as [|p ps Hp Hps IH]; constructor; [|exact IH].
  destruct Hp as [_ [Hp _]]. exact Hp.
Qed.

Lemma pass_one_lost (L i : nat) (s : list Uint8Array) (c : bool)
    (repairs : list RepairPacket) :
  chunks_ok L s -> Forall (repair_of s) repairs -> (i < List.length s)%nat ->
  fold_left peel repairs (withLoss i s, c)
  = if covers i repairs then (map Some s, true) else (withLoss i s, c).
Proof.
  intros Hs Hr Hi. revert c. induction Hr as [|p ps Hp Hps IH]; intros c;
    [reflexivity|].
  cbn [fold_left covers existsb].
  destruct (existsb (Nat.eqb i) (sourceIndices p)) eqn:E.
  - apply existsb_eqb_In in E. rewrite (peel_covered L) by assumption.
    cbn [orb]. apply pass_all_present, repair_of_in_range, Hps.
  - cbn [orb]. rewrite peel_uncovered.
    + apply IH.
    + exact Hi.
    + destruct Hp as [_ [Hp _]]. exact Hp.
    + intros Hin. apply existsb_eqb_In in Hin. congruence.
Qed.

Lemma recoverPackets_one_lost (L i fuel : nat) (s : list Uint8Array)
    (repairs : list RepairPacket) (packetSize : Z) :
  chunks_ok L s -> Forall (repair_of s) repairs -> (i < List.length s)%nat ->
  recoverPackets (S (S fuel)) (withLoss i s) repairs packetSize
  = Ok (if covers i repairs then map Some s else withLoss i s).
Proof.
  intros Hs Hr Hi. unfold recoverPackets. cbn [peelLoop].
  rewrite (pass_one_lost L) by assumption.
  destruct (covers i repairs); [|reflexivity].
  rewrite pass_all_present by (now apply repair_of_in_range). reflexivity.
Qed.

(** An absent index that a repair resolves is not a present one. *)
Lemma peel_keeps_present (st : slots * bool) (p : RepairPacket) (j : nat)
    (d : Uint8Array) :
  present (fst st) j = Some d -> present (fst (peel st p)) j = Some d.
Proof.
  destruct st as [rec c]. cbn [fst]. intros H. unfold peel.
  destruct (filter (absent rec) (sourceIndices p)) as [|m [|m' t]] eqn:E;
    cbn [fst]; try exact H.
  assert (Hm : absent rec m = true).
  { assert (Hin : In m (filter (absent rec) (sourceIndices p)))
      by (rewrite E; now left).
    apply filter_In in Hin. tauto. }
  assert (Hne : j <> m).
  { intros ->. unfold absent in Hm. now rewrite H in Hm. }
  unfold present in *. unfold assign.
  destruct (m <? List.length rec)%nat eqn:Em.
  - apply Nat.ltb_lt in Em.
    destruct (Nat.lt_ge_cases j m) as [Hlt|Hge].
    + rewrite nth_error_app1 by (rewrite length_firstn; lia).
      rewrite nth_error_firstn. now rewrite (proj2 (Nat.ltb_lt j m)) by lia.
    + rewrite nth_error_app2 by (rewrite length_firstn; lia).
      rewrite length_firstn.
      replace (j - Nat.min m (List.length rec))%nat with (S (j - S m)) by lia.
      cbn [nth_error]. rewrite nth_error_skipn.
      replace (S m + (j - S m))%nat with j by lia. exact H.
  - apply Nat.ltb_ge in Em.
    destruct (nth_error rec j) as [o|] eqn:Ej; [|discriminate].
    assert (Hj : (j < List.length rec)%nat)
      by (apply nth_error_Some; congruence).
    rewrite nth_error_app1 by exact Hj. now rewrite Ej.
Qed.

Lemma pass_keeps_present (repairs : list RepairPacket) (st : slots * bool)
    (j : nat) (d : Uint8Array) :
  present (fst st) j = Some d ->
  present (fst (fold_left peel repairs st)) j = Some d.
Proof.
  revert st. induction repairs as [|p ps IH]; intros st H; [exact H|].
  cbn [fold_left]. apply IH. now apply peel_keeps_present.
Qed.

Lemma peelLoop_keeps_present (fuel : nat) (rec res : slots)
    (repairs : list RepairPacket) (j : nat) (d : Uint8Array) :
  peelLoop fuel rec repairs = Ok res ->
  present rec j = Some d -> present res j = Some d.
Proof.
  revert rec. induction fuel as [|fuel IH]; intros rec H Hp; [discriminate|].
  cbn [peelLoop] in H.
  pose proof (pass_keeps_present repairs (rec, false) j d Hp) as Hq.
  destruct (fold_left peel repairs (rec, false)) as [rec' c]. cbn [fst] in Hq.
  destruct c.
  - eapply IH; eauto.
  - injection H as <-. exact Hq.
Qed.
End RecoverPass.

Section FuelFacts.
Import JS TypedArray Fountain Handler Aux.

Lemma select_fuel_mono (fuel fuel' : nat) (state : Z) (degree : number)
    (n : Z) (sel l : list number) :
  select fuel state degree n sel = Ok l -> (fuel <= fuel')%nat ->
  select fuel' state degree n sel = Ok l.
Proof.
  revert fuel' state sel. induction fuel as [|fuel IH]; intros fuel' state sel H Hf.
  - cbn [select] in H. destruct (lt_number (size sel) degree) eqn:E; [discriminate|].
    destruct fuel'; cbn [select]; now rewrite E.
  - destruct fuel' as [|fuel']; [lia|]. cbn [select] in *.
    destruct (lt_number (size sel) degree); [|exact H].
    apply IH; [exact H|lia].
Qed.

Lemma getRepairSources_fuel_mono (fuel fuel' : nat) (r n : Z) (l : list number) :
  getRepairSources fuel r n = Ok l -> (fuel <= fuel')%nat ->
  getRepairSources fuel' r n = Ok l.
Proof. unfold getRepairSources. apply select_fuel_mono. Qed.

Lemma collect_Ok_inv {A : Type} (m : outcome A) (ms : list (outcome A))
    (l : list A) :
  collect (m :: ms) = Ok l ->
  exists a l', m = Ok a /\ collect ms = Ok l' /\ l = a :: l'.
Proof.
  cbn [collect]. destruct m as [a| |]; try discriminate. cbn [bind].
  destruct (collect ms) as [l'| |]; try discriminate. cbn [bind].
  intros H. injection H as <-. eauto.
Qed.

(** With enough fuel for every source set, [generateRepairs] returns the
    repairs over those sets. *)
Lemma generateRepairs_of_sets (fuel0 fuel : nat) (s : list Uint8Array)
    (rs : list nat) (sets : list (list number)) :
  s <> [] -> (fuel0 <= fuel)%nat ->
  collect (map (fun r => getRepairSources fuel0 (Z.of_nat r)
                           (Z.of_nat (List.length s))) rs) = Ok sets ->
  exists repairs,
    generateRepairs fuel s rs = Ok repairs /\
    map sourceIndices repairs = map (map toIndex) sets.
Proof.
  intros Hs Hf.
  assert (Hn : 1 <= Z.of_nat (List.length s))
    by (destruct s; [congruence | cbn [List.length]; lia]).
  revert sets. induction rs as [|r rs IH]; intros sets H.
  - injection H as <-. exists []. split; reflexivity.
  - cbn [map] in H. apply collect_Ok_inv in H.
    destruct H as [l [sets' [G [H ->]]]].
    destruct (IH sets' H) as [ps [P1 P2]].
    pose proof (getRepairSources_inv _ _ _ _ Hn G) as [_ [Gin _]].
    apply (getRepairSources_fuel_mono _ fuel) in G; [|exact Hf].
    cbn [generateRepairs]. unfold generateRepair at 1. rewrite G. cbn [bind].
    destruct s as [|first rest]; [congruence|].
    rewrite xorSources_spec by exact Gin. cbn [bind fst snd].
    rewrite P1. cbn [bind]. eexists. split; [reflexivity|].
    cbn [map sourceIndices]. now rewrite P2.
Qed.

Lemma generateRepairPackets_of_sets (fuel0 fuel : nat) (s : list Uint8Array)
    (sets : list (list number)) :
  s <> [] -> (fuel0 <= fuel)%nat ->
  sourceSets fuel0 (Z.of_nat (List.length s)) = Ok sets ->
  exists repairs,
    generateRepairPackets fuel s d0_3 = Ok repairs /\
    map sourceIndices repairs = map (map toIndex) sets.
Proof.
  intros Hs Hf H. unfold generateRepairPackets.
  eapply generateRepairs_of_sets; eauto.
Qed.

Lemma covers_sets (i : nat) (repairs : list RepairPacket) :
  covers i repairs = existsb (existsb (Nat.eqb i)) (map sourceIndices repairs).
Proof.
  unfold covers. induction repairs as [|p ps IH]; [reflexivity|].
  cbn [existsb map]. now rewrite IH.
Qed.
End FuelFacts.

Section FountainExtras.
Import JS TypedArray Fountain Handler Aux.

(** X11: [xorBytes] produces bytes, as many as its longer argument, and
    XOR-ing a second time with the same bytes gives back the first
    argument. *)
Theorem xorBytes_involutive (a b : Uint8Array) :
  bytes_ok a -> bytes_ok b -> (List.length b <= List.length a)%nat ->
  bytes_ok (xorBytes a b) /\
  List.length (xorBytes a b) = List.length a /\
  xorBytes (xorBytes a b) b = a.
Proof.
  intros Ha Hb Hl. split; [apply bytes_ok_xorBytes|].
  split; [rewrite length_xorBytes; lia|now apply xorBytes_cancel].
Qed.

Lemma xorBytes_involutive_witness :
  bytes_ok (xorBytes [1; 2; 255] [7; 7]) /\
  List.length (xorBytes [1; 2; 255] [7; 7]) = List.length [1; 2; 255] /\
  xorBytes (xorBytes [1; 2; 255] [7; 7]) [7; 7] = [1; 2; 255].
Proof.
  apply (xorBytes_involutive [1; 2; 255] [7; 7]).
  - reflexivity.
  - reflexivity.
  - cbn. lia.
Defined.

(** X12: whatever [getRepairSources] returns for at least two sources is a
    list of pairwise distinct indices below the source count, with between 2
    and [min (5, sourceCount)] elements. *)
Theorem getRepairSources_result_shape (fuel : nat) (r n : Z) (l : list number) :
  2 <= n -> getRepairSources fuel r n = Ok l ->
  NoDup l /\
  (forall x, In x l -> exists z, x = Int z /\ 0 <= z < n) /\
  2 <= Z.of_nat (List.length l) <= Z.min 5 n.
Proof.
  intros Hn H. apply getRepairSources_inv in H; [|lia].
  destruct H as [H1 [H2 H3]]. split; [exact H1|].
  split; [|exact (H3 Hn)].
  rewrite Forall_forall in H2. exact H2.
Qed.

Lemma getRepairSources_result_shape_witness :
  NoDup [Int 4; Int 6; Int 15; Int 5; Int 7] /\
  (forall x, In x [Int 4; Int 6; Int 15; Int 5; Int 7] ->
             exists z, x = Int z /\ 0 <= z < 16) /\
  2 <= Z.of_nat (List.length [Int 4; Int 6; Int 15; Int 5; Int 7]) <= Z.min 5 16.
Proof.
  apply (getRepairSources_result_shape 64 1 16 [Int 4; Int 6; Int 15; Int 5; Int 7]).
  - lia.
  - vm_compute. reflexivity.
Defined.

(** X13: [recoverPackets] never changes a slot that is present: whatever the
    repair packets, a source that was there is returned as it was. *)
Theorem recoverPackets_keeps_present (fuel : nat) (sourcePackets res : slots)
    (repairs : list RepairPacket) (packetSize : Z) (j : nat) (d : Uint8Array) :
  recoverPackets fuel sourcePackets repairs packetSize = Ok res ->
  nth_error sourcePackets j = Some (Some d) ->
  nth_error res j = Some (Some d).
Proof.
  unfold recoverPackets. intros H Hj.
  assert (Hp : present sourcePackets j = Some d) by (unfold present; now rewrite Hj).
  pose proof (peelLoop_keeps_present _ _ _ _ _ _ H Hp) as Hq.
  unfold present in Hq.
  destruct (nth_error res j) as [[x|]|]; congruence.
Qed.

Lemma recoverPackets_keeps_present_witness :
  nth_error [Some [3; 4]; Some [5; 6]; Some [6; 2]] 1 = Some (Some [5; 6]).
Proof.
  apply (recoverPackets_keeps_present 3 [Some [3; 4]; Some [5; 6]; None]
           [Some [3; 4]; Some [5; 6]; Some [6; 2]]
           [{| repairIndex := 0; sourceIndices := [0; 1; 2]%nat; data := [0; 0] |}]
           2 1 [5; 6]).
  - vm_compute. reflexivity.
  - reflexivity.
Defined.

(** X14: with every source present and repair indices within the list,
    [recoverPackets] returns the sources unchanged after a single pass. *)
Theorem recoverPackets_all_present (fuel : nat) (s : list Uint8Array)
    (repairs : list RepairPacket) (packetSize : Z) :
  Forall (fun p => Forall (fun j => (j < List.length s)%nat) (sourceIndices p))
    repairs ->
  recoverPackets (S fuel) (map Some s) repairs packetSize = Ok (map Some s).
Proof.
  intros H. unfold recoverPackets. cbn [peelLoop].
  now rewrite pass_all_present.
Qed.

Lemma recoverPackets_all_present_witness :
  recoverPackets 1 (map Some [[1; 2]; [3; 4]])
    [{| repairIndex := 0; sourceIndices := [0; 1]%nat; data := [2; 6] |}] 2
  = Ok (map Some [[1; 2]; [3; 4]]).
Proof.
  apply (recoverPackets_all_present 0 [[1; 2]; [3; 4]]
           [{| repairIndex := 0; sourceIndices := [0; 1]%nat; data := [2; 6] |}] 2).
  repeat constructor.
Defined.

(** X15: one lost source among equally long chunks, with the repair packets
    [generateRepairPackets] made for them: two passes of [recoverPackets]
    restore the source exactly when some repair has it in its source set, and
    otherwise leave it absent. *)
Theorem recoverPackets_single_loss (fuel fuel' L i : nat) (s : list Uint8Array)
    (ratio : double) (repairs : list RepairPacket) (packetSize : Z) :
  chunks_ok L s -> (i < List.length s)%nat ->
  generateRepairPackets fuel s ratio = Ok repairs ->
  recoverPackets (S (S fuel')) (withLoss i s) repairs packetSize
  = Ok (if covers i repairs then map Some s else withLoss i s).
Proof.
  intros Hs Hi H. apply (recoverPackets_one_lost L); try assumption.
  unfold generateRepairPackets in H. apply generateRepairs_inv in H. tauto.
Qed.

Lemma recoverPackets_single_loss_witness :
  recoverPackets 2 (withLoss 3 [[1; 2]; [3; 4]; [5; 6]; [7; 8]])
    [{| repairIndex := 0; sourceIndices := [1; 2]%nat; data := [6; 2] |};
     {| repairIndex := 1; sourceIndices := [0; 2; 3]%nat; data := [3; 12] |}] 2
  = Ok (if covers 3
             [{| repairIndex := 0; sourceIndices := [1; 2]%nat; data := [6; 2] |};
              {| repairIndex := 1; sourceIndices := [0; 2; 3]%nat;
                 data := [3; 12] |}]
        then map Some [[1; 2]; [3; 4]; [5; 6]; [7; 8]]
        else withLoss 3 [[1; 2]; [3; 4]; [5; 6]; [7; 8]]).
Proof.
  apply (recoverPackets_single_loss 100 0 2 3 [[1; 2]; [3; 4]; [5; 6]; [7; 8]] d0_3).
  - repeat constructor.
  - cbn. lia.
  - vm_compute. reflexivity.
Defined.

(** X16: for 4, 16 or 64 equally long source chunks and the default ratio,
    repair generation returns (64 draws suffice for every source set), and the
    loss of one source is repaired unless the source is in no repair's set:
    none for 4 sources, sources 0, 11 and 12 for 16, and 18 sources for 64. *)
Theorem single_loss_standard_sizes (fuel fuel' L i : nat) (s : list Uint8Array)
    (packetSize : Z) :
  In (List.length s) [4; 16; 64]%nat -> chunks_ok L s ->
  (64 <= fuel)%nat -> (i < List.length s)%nat ->
  exists repairs,
    generateRepairPackets fuel s d0_3 = Ok repairs /\
    recoverPackets (S (S fuel')) (withLoss i s) repairs packetSize
    = Ok (if existsb (Nat.eqb i) (uncovered (List.length s))
          then withLoss i s else map Some s).
Proof.
  intros Hn Hs Hf Hi.
  assert (Hne : s <> []) by (intros ->; cbn in Hi; lia).
  assert (Hsets : exists sets,
            sourceSets 64 (Z.of_nat (List.length s)) = Ok sets /\
            forallb (fun i =>
                       Bool.eqb (existsb (existsb (Nat.eqb i)) (map (map toIndex) sets))
                         (negb (existsb (Nat.eqb i) (uncovered (List.length s)))))
              (seq 0 (List.length s)) = true).
  { destruct Hn as [E|[E|[E|[]]]]; rewrite <- E;
      eexists; (split; [vm_compute; reflexivity | vm_compute; reflexivity]). }
  destruct Hsets as [sets [Hsets Hcov]].
  destruct (generateRepairPackets_of_sets 64 fuel s sets Hne Hf Hsets)
    as [repairs [G Hidx]].
  exists repairs. split; [exact G|].
  rewrite (recoverPackets_single_loss fuel fuel' L i s d0_3 repairs packetSize Hs Hi G).
  rewrite covers_sets, Hidx.
  rewrite forallb_forall in Hcov.
  specialize (Hcov i ltac:(apply in_seq; lia)).
  apply Bool.eqb_prop in Hcov. rewrite Hcov.
  now destruct (existsb (Nat.eqb i) (uncovered (List.length s))).
Qed.

Lemma single_loss_standard_sizes_witness :
  exists repairs,
    generateRepairPackets 64 [[1; 2]; [3; 4]; [5; 6]; [7; 8]] d0_3 = Ok repairs /\
    recoverPackets 2 (withLoss 0 [[1; 2]; [3; 4]; [5; 6]; [7; 8]]) repairs 2
    = Ok (if existsb (Nat.eqb 0)
               (uncovered (List.length [[1; 2]; [3; 4]; [5; 6]; [7; 8]]))
          then withLoss 0 [[1; 2]; [3; 4]; [5; 6]; [7; 8]]
          else map Some [[1; 2]; [3; 4]; [5; 6]; [7; 8]]).
Proof.
  apply (single_loss_standard_sizes 64 0 2 0 [[1; 2]; [3; 4]; [5; 6]; [7; 8]] 2).
  - cbn. auto.
  - repeat constructor.
  - lia.
  - cbn. lia.
Defined.
End FountainExtras.

Section EdgeCases.
Import JS TypedArray Packets Fountain Handler Aux.

Lemma select_NaN_diverges (fuel : nat) (state : Z) :
  select fuel state (Int 2) 0 [NaN] = Diverge.
Proof.
  revert state. induction fuel as [|fuel IH]; intros state; [reflexivity|].
  cbn [select size List.length lt_number Z.of_nat].
  change (Z.pos (Pos.of_succ_nat 0) <? 2) with true. cbv iota.
  unfold rem. cbn [Z.eqb]. cbn [set_add existsb number_eqb orb]. apply IH.
Qed.

Lemma getRepairSources_zero (fuel : nat) (r : Z) :
  getRepairSources fuel r 0 = Diverge.
Proof.
  unfold getRepairSources.
  change (Z.min 4 (0 - 1)) with (-1). unfold rem at 1.
  cbn [Z.eqb]. change (-1) with (Z.opp 1).
  rewrite Z.rem_opp_r, Z.rem_1_r by lia. cbn [add_int].
  change (2 + 0) with 2.
  destruct fuel as [|fuel]; [reflexivity|].
  cbn [select size List.length lt_number Z.of_nat].
  change (0 <? 2) with true. cbv iota.
  unfold rem. cbn [Z.eqb]. cbn [set_add existsb app]. apply select_NaN_diverges.
Qed.

Lemma roundToDouble_nonneg_small (x : Z) : x < 2 ^ 53 -> roundToDouble x = x.
Proof.
  intros H. unfold roundToDouble. now rewrite (proj2 (Z.ltb_lt _ _) H).
Qed.

Lemma generateRepairPackets_empty (fuel : nat) (ratio : double) :
  generateRepairPackets fuel [] ratio = Diverge.
Proof.
  unfold generateRepairPackets. cbn [List.length Z.of_nat].
  destruct (Z.to_nat (Z.max 1 (ceil_mul 0 ratio))) as [|k] eqn:E; [lia|].
  cbn [seq generateRepairs]. unfold generateRepair.
  cbn [List.length Z.of_nat]. now rewrite getRepairSources_zero.
Qed.

Lemma sourceChunksOf_empty : sourceChunksOf [] = Ok [].
Proof. reflexivity. Qed.


Lemma getRepairSources_one (fuel : nat) (r : Z) :
  getRepairSources fuel r 1 = Ok [].
Proof.
  unfold getRepairSources. change (Z.min 4 (1 - 1)) with 0.
  unfold rem at 1. cbn [Z.eqb add_int].
  destruct fuel; reflexivity.
Qed.

(** X18: a single source chunk gets no usable redundancy: its one repair
    packet has an empty source set and all-zero data, and [recoverPackets]
    leaves the source absent when it is lost. *)
Theorem single_chunk_has_no_redundancy (fuel fuel' : nat) (chunk : Uint8Array)
    (packetSize : Z) :
  generateRepairPackets fuel [chunk] d0_3
  = Ok [{| repairIndex := 0; sourceIndices := []; data := alloc (len chunk) |}] /\
  recoverPackets (S fuel') [None]
    [{| repairIndex := 0; sourceIndices := []; data := alloc (len chunk) |}]
    packetSize = Ok [None].
Proof.
  split.
  - unfold generateRepairPackets. cbn [List.length Z.of_nat].
    change (Z.to_nat (Z.max 1 (ceil_mul (Z.pos (Pos.of_succ_nat 0)) d0_3)))
      with 1%nat.
    cbn [seq generateRepairs]. unfold generateRepair.
    cbn [List.length Z.of_nat].
    change (Z.pos (Pos.of_succ_nat 0)) with 1.
    rewrite getRepairSources_one. reflexivity.
  - reflexivity.
Qed.
End EdgeCases.

(** ** Handler *)

Section ChunkFacts.
Import JS TypedArray Packets Fountain Handler Aux.

Lemma MAX_PAYLOAD_pos : 0 < MAX_PAYLOAD.
Proof. rewrite MAX_PAYLOAD_value. lia. Qed.

Lemma firstn_plus {A : Type} (a b : nat) (l : list A) :
  firstn (a + b) l = firstn a l ++ firstn b (skipn a l).
Proof.
  revert l. induction a as [|a IH]; intros l; [reflexivity|].
  destruct l as [|x l]; [cbn [Nat.add firstn skipn app]; now rewrite firstn_nil|].
  cbn [Nat.add firstn skipn app]. f_equal. apply IH.
Qed.

Lemma piece_firstn (fileBytes : Uint8Array) (k : nat) :
  piece fileBytes k
  = firstn (Z.to_nat MAX_PAYLOAD) (skipn (k * Z.to_nat MAX_PAYLOAD) fileBytes).
Proof.
  pose proof MAX_PAYLOAD_pos as Hm. unfold piece, slice, len.
  replace (Z.to_nat (Z.of_nat k * MAX_PAYLOAD)) with (k * Z.to_nat MAX_PAYLOAD)%nat
    by nia.
  set (sk := skipn (k * Z.to_nat MAX_PAYLOAD) fileBytes).
  assert (Hsk : List.length sk
                = (List.length fileBytes - k * Z.to_nat MAX_PAYLOAD)%nat)
    by (unfold sk; apply length_skipn).
  destruct (Z.le_gt_cases (Z.of_nat k * MAX_PAYLOAD + MAX_PAYLOAD)
              (Z.of_nat (List.length fileBytes))) as [H|H].
  - rewrite Z.min_l by lia. f_equal. lia.
  - rewrite Z.min_r by lia.
    rewrite (firstn_all2 (n := Z.to_nat MAX_PAYLOAD)) by nia.
    apply firstn_all2. nia.
Qed.

Lemma length_piece_le (fileBytes : Uint8Array) (k : nat) :
  len (piece fileBytes k) <= MAX_PAYLOAD.
Proof.
  pose proof MAX_PAYLOAD_pos. rewrite piece_firstn. unfold len.
  rewrite length_firstn. lia.
Qed.

Lemma length_chunkOf (fileBytes : Uint8Array) (k : nat) :
  List.length (chunkOf fileBytes k) = Z.to_nat MAX_PAYLOAD.
Proof.
  pose proof (length_piece_le fileBytes k) as H. unfold len in H.
  unfold chunkOf. rewrite length_app, repeat_length. lia.
Qed.

Lemma bytes_ok_piece (fileBytes : Uint8Array) (k : nat) :
  bytes_ok fileBytes -> bytes_ok (piece fileBytes k).
Proof.
  intros H. rewrite piece_firstn. now apply bytes_ok_firstn, bytes_ok_skipn.
Qed.

Lemma bytes_ok_chunkOf (fileBytes : Uint8Array) (k : nat) :
  bytes_ok fileBytes -> bytes_ok (chunkOf fileBytes k).
Proof.
  intros H. unfold chunkOf. apply bytes_ok_app.
  split; [now apply bytes_ok_piece | apply bytes_ok_repeat].
Qed.

Lemma chunkAt_ok (fileBytes : Uint8Array) (k : nat) :
  chunkAt fileBytes MAX_PAYLOAD k = Ok (chunkOf fileBytes k).
Proof.
  pose proof MAX_PAYLOAD_pos as Hm.
  pose proof (length_piece_le fileBytes k) as Hl.
  unfold chunkAt. fold (piece fileBytes k). unfold set, alloc.
  unfold len at 1. rewrite repeat_length.
  rewrite (proj2 (Z.ltb_ge _ _)) by lia.
  f_equal. unfold write_at, chunkOf. cbn [Z.to_nat firstn Nat.add app].
  f_equal. rewrite skipn_repeat. reflexivity.
Qed.

Lemma collect_map_Ok {A B : Type} (f : A -> outcome B) (g : A -> B) (l : list A) :
  (forall x, In x l -> f x = Ok (g x)) -> collect (map f l) = Ok (map g l).
Proof.
  intros H. induction l as [|x l IH]; [reflexivity|].
  cbn [map collect]. rewrite (H x) by now left. cbn [bind].
  rewrite IH by (intros y Hy; apply H; now right). reflexivity.
Qed.

Lemma sourceChunksOf_ok (fileBytes : Uint8Array) :
  sourceChunksOf fileBytes
  = Ok (map (chunkOf fileBytes) (seq 0 (chunkCount fileBytes))).
Proof.
  unfold sourceChunksOf. cbv zeta. fold (chunkCount fileBytes).
  apply collect_map_Ok. intros k _. apply chunkAt_ok.
Qed.

Lemma concat_pieces_firstn (fileBytes : Uint8Array) (k : nat) :
  List.concat (map (piece fileBytes) (seq 0 k))
  = firstn (k * Z.to_nat MAX_PAYLOAD) fileBytes.
Proof.
  induction k as [|k IH]; [reflexivity|].
  rewrite seq_S, map_app, concat_app, IH. cbn [map List.concat Nat.add].
  rewrite app_nil_r, piece_firstn.
  replace (S k * Z.to_nat MAX_PAYLOAD)%nat
    with (k * Z.to_nat MAX_PAYLOAD + Z.to_nat MAX_PAYLOAD)%nat by lia.
  symmetry. apply firstn_plus.
Qed.

Lemma chunkCount_covers (fileBytes : Uint8Array) :
  (List.length fileBytes <= chunkCount fileBytes * Z.to_nat MAX_PAYLOAD)%nat /\
  ((chunkCount fileBytes - 1) * Z.to_nat MAX_PAYLOAD < List.length fileBytes
   \/ fileBytes = [])%nat.
Proof.
  pose proof MAX_PAYLOAD_pos as Hm. unfold chunkCount, len.
  set (n := Z.of_nat (List.length fileBytes)).
  assert (Hn : 0 <= n) by (unfold n; lia).
  pose proof (Z.div_mod (n + MAX_PAYLOAD - 1) MAX_PAYLOAD ltac:(lia)) as Hd.
  pose proof (Z.mod_pos_bound (n + MAX_PAYLOAD - 1) MAX_PAYLOAD Hm) as Hr.
  set (q := (n + MAX_PAYLOAD - 1) / MAX_PAYLOAD) in *.
  assert (Hq : 0 <= q) by (apply Z.div_pos; lia).
  split; [nia|].
  destruct fileBytes as [|x l]; [now right|left].
  cbn [List.length] in *. nia.
Qed.

Lemma concat_pieces (fileBytes : Uint8Array) :
  List.concat (map (piece fileBytes) (seq 0 (chunkCount fileBytes))) = fileBytes.
Proof.
  rewrite concat_pieces_firstn. apply firstn_all2.
  apply chunkCount_covers.
Qed.

Lemma length_piece (fileBytes : Uint8Array) (k : nat) :
  len (piece fileBytes k)
  = Z.max 0 (Z.min MAX_PAYLOAD (len fileBytes - Z.of_nat k * MAX_PAYLOAD)).
Proof.
  pose proof MAX_PAYLOAD_pos as Hm. rewrite piece_firstn. unfold len.
  rewrite length_firstn, length_skipn. nia.
Qed.

(** The payload [#encode] puts in source frame [k]: the chunk cut back to
    the bytes of the file it holds. *)
Lemma slice_chunkOf (fileBytes : Uint8Array) (k : nat) :
  (k < chunkCount fileBytes)%nat ->
  slice (chunkOf fileBytes k) 0
    (Z.min MAX_PAYLOAD (len fileBytes - Z.of_nat k * MAX_PAYLOAD))
  = piece fileBytes k.
Proof.
  intros Hk. pose proof MAX_PAYLOAD_pos as Hm.
  pose proof (length_piece fileBytes k) as Hl.
  destruct (chunkCount_covers fileBytes) as [_ [Hc|Hc]].
  - unfold slice, chunkOf. cbn [Z.to_nat skipn]. rewrite Z.sub_0_r.
    replace (Z.to_nat (Z.min MAX_PAYLOAD (len fileBytes - Z.of_nat k * MAX_PAYLOAD)))
      with (List.length (piece fileBytes k)) by (unfold len in *; nia).
    rewrite firstn_app, Nat.sub_diag, firstn_all. cbn [firstn]. apply app_nil_r.
  - subst fileBytes. unfold chunkCount in Hk. change (len []) with 0 in Hk.
    rewrite MAX_PAYLOAD_value in Hk.
    change ((0 + 6220781 - 1) / 6220781) with 0 in Hk. lia.
Qed.
End ChunkFacts.

Section EncodeFacts.
Import JS TypedArray Packets Fountain Handler Aux.

Lemma encodePacket_frameOf (i t : Z) (p : Uint8Array) (f : Z) :
  len p <= MAX_PAYLOAD -> encodePacket i t p f = Ok (frameOf i t p f).
Proof. apply encodePacket_shape. Qed.

Lemma encodePacket_long (i t : Z) (p : Uint8Array) (f : Z) :
  MAX_PAYLOAD < len p -> encodePacket i t p f = Throw RangeError.
Proof.
  intros H. rewrite encodePacket_header_then_set. unfold set.
  rewrite len_app, len_header_bytes.
  unfold len at 1. rewrite repeat_length.
  rewrite MAX_PAYLOAD_value in *. change HEADER_SIZE with 19.
  destruct (_ <? _) eqn:E; [reflexivity|]. apply Z.ltb_ge in E. lia.
Qed.

Lemma chunks_ok_chunks (fileBytes : Uint8Array) (n : nat) :
  bytes_ok fileBytes ->
  chunks_ok (Z.to_nat MAX_PAYLOAD) (map (chunkOf fileBytes) (seq 0 n)).
Proof.
  intros H. unfold chunks_ok. apply Forall_forall. intros c Hc.
  apply in_map_iff in Hc. destruct Hc as [k [<- _]].
  split; [apply length_chunkOf | now apply bytes_ok_chunkOf].
Qed.

Lemma repair_data_length (L : nat) (s : list Uint8Array) (p : RepairPacket) :
  s <> [] -> chunks_ok L s -> repair_of s p ->
  List.length (data p) = L /\ bytes_ok (data p).
Proof.
  intros Hne Hs [_ [Hidx Hdata]].
  assert (HL : List.length (hd [] s) = L).
  { destruct s as [|x s']; [congruence|]. cbn [hd]. inversion Hs; subst; tauto. }
  rewrite HL in Hdata. destruct (chunks_ok_map L s _ Hs Hidx) as [A1 A2].
  rewrite Hdata. split.
  - apply length_fold_xorBytes; [apply repeat_length|exact A1].
  - apply bytes_ok_fold_xorBytes, bytes_ok_repeat.
Qed.

Lemma bind_Ok {A B : Type} (x : A) (k : A -> outcome B) :
  bind (Ok x) k = k x.
Proof. reflexivity. Qed.

(** The frames [encodeFrames] builds from the repair packets [repairs]. *)
Lemma encodeFrames_ok (fuel : nat) (name : Text.jsstring)
    (fileBytes : Uint8Array) (mime : Text.jsstring) (repairs : list RepairPacket) :
  bytes_ok fileBytes ->
  let n := chunkCount fileBytes in
  let chunks := map (chunkOf fileBytes) (seq 0 n) in
  let meta := metadata_bytes (Text.encode name) (len fileBytes)
                (Text.encode mime) false in
  generateRepairPackets fuel chunks d0_3 = Ok repairs ->
  len meta <= MAX_PAYLOAD ->
  let total := 1 + Z.of_nat n + Z.of_nat (List.length repairs) in
  encodeFrames fuel name fileBytes mime =
  Ok (frameOf 0 total meta 0
      :: map (fun k => frameOf (Z.of_nat k + 1) total (piece fileBytes k) 0)
           (seq 0 n)
      ++ map (fun r => frameOf (Z.of_nat n + Z.of_nat r + 1) total
                         (data (nth r repairs
                                  {| repairIndex := 0; sourceIndices := [];
                                     data := [] |})) FLAG_REPAIR)
           (seq 0 (List.length repairs))).
Proof.
  intros Hb n chunks meta G Hm total. unfold encodeFrames. cbv zeta.
  rewrite sourceChunksOf_ok, bind_Ok. fold n chunks.
  rewrite G, bind_Ok.
  rewrite encodeMetadata_shape, bind_Ok. fold meta.
  assert (Hlen : List.length chunks = n)
    by (unfold chunks; now rewrite length_map, length_seq).
  rewrite Hlen. fold total.
  rewrite encodePacket_frameOf, bind_Ok by exact Hm.
  rewrite (collect_map_Ok _
             (fun k => frameOf (Z.of_nat k + 1) total (piece fileBytes k) 0)).
  2:{ intros k Hk. apply in_seq in Hk. cbv zeta.
      assert (E : nth k chunks [] = chunkOf fileBytes k).
      { unfold chunks.
        rewrite (nth_indep _ [] (chunkOf fileBytes 0%nat))
          by (rewrite length_map, length_seq; lia).
        rewrite (map_nth (chunkOf fileBytes)). rewrite seq_nth by lia.
        reflexivity. }
      rewrite E, slice_chunkOf by (fold n; lia).
      apply encodePacket_frameOf, length_piece_le. }
  rewrite bind_Ok.
  assert (Hne : chunks <> []).
  { intros E. rewrite E in G. rewrite generateRepairPackets_empty in G.
    discriminate. }
  pose proof G as G'. unfold generateRepairPackets in G'.
  apply generateRepairs_inv in G'. destruct G' as [Hrep _].
  rewrite (collect_map_Ok _
             (fun r => frameOf (Z.of_nat n + Z.of_nat r + 1) total
                         (data (nth r repairs
                                  {| repairIndex := 0; sourceIndices := [];
                                     data := [] |})) FLAG_REPAIR)).
  2:{ intros r Hr. apply in_seq in Hr.
      rewrite (nth_error_nth' repairs
                 {| repairIndex := 0; sourceIndices := []; data := [] |})
        by lia.
      apply encodePacket_frameOf.
      assert (Hr' : (r < List.length repairs)%nat) by lia.
      rewrite Forall_forall in Hrep.
      pose proof (chunks_ok_chunks fileBytes n Hb) as Hck. fold chunks in Hck.
      pose proof (Hrep _ (nth_In repairs
                               {| repairIndex := 0; sourceIndices := [];
                                  data := [] |} Hr')) as Hro.
      pose proof (repair_data_length _ _ _ Hne Hck Hro) as [Hl _].
      unfold len. rewrite Hl, Z2Nat.id;
        [apply Z.le_refl | apply Z.lt_le_incl, MAX_PAYLOAD_pos]. }
  rewrite bind_Ok. reflexivity.
Qed.

(** What [encodeFrames] returns, when it returns. *)
Lemma encodeFrames_inv (fuel : nat) (name : Text.jsstring)
    (fileBytes : Uint8Array) (mime : Text.jsstring) (frames : list Uint8Array) :
  bytes_ok fileBytes ->
  encodeFrames fuel name fileBytes mime = Ok frames ->
  let n := chunkCount fileBytes in
  let chunks := map (chunkOf fileBytes) (seq 0 n) in
  let meta := metadata_bytes (Text.encode name) (len fileBytes)
                (Text.encode mime) false in
  exists repairs,
    generateRepairPackets fuel chunks d0_3 = Ok repairs /\
    len meta <= MAX_PAYLOAD /\
    let total := 1 + Z.of_nat n + Z.of_nat (List.length repairs) in
    frames =
      frameOf 0 total meta 0
      :: map (fun k => frameOf (Z.of_nat k + 1) total (piece fileBytes k) 0)
           (seq 0 n)
      ++ map (fun r => frameOf (Z.of_nat n + Z.of_nat r + 1) total
                         (data (nth r repairs
                                  {| repairIndex := 0; sourceIndices := [];
                                     data := [] |})) FLAG_REPAIR)
           (seq 0 (List.length repairs)).
Proof.
  intros Hb H n chunks meta.
  destruct (generateRepairPackets fuel chunks d0_3) as [repairs| |] eqn:G.
  - exists repairs. split; [reflexivity|].
    destruct (Z.le_gt_cases (len meta) MAX_PAYLOAD) as [Hm|Hm].
    + split; [exact Hm|]. cbv zeta.
      pose proof (encodeFrames_ok fuel name fileBytes mime repairs Hb G Hm) as E.
      cbv zeta in E. rewrite E in H. now injection H as <-.
    + exfalso. unfold encodeFrames in H. cbv zeta in H.
      rewrite sourceChunksOf_ok, bind_Ok in H. fold n chunks in H.
      rewrite G, bind_Ok in H.
      rewrite encodeMetadata_shape, bind_Ok in H. fold meta in H.
      rewrite encodePacket_long in H by lia. discriminate.
  - exfalso. unfold encodeFrames in H. cbv zeta in H.
    rewrite sourceChunksOf_ok, bind_Ok in H. fold n chunks in H.
    rewrite G in H. discriminate.
  - exfalso. unfold encodeFrames in H. cbv zeta in H.
    rewrite sourceChunksOf_ok, bind_Ok in H. fold n chunks in H.
    rewrite G in H. discriminate.
Qed.
End EncodeFacts.

Section DecodeFacts.
Import JS TypedArray Packets Fountain Handler Decoder Aux.

Lemma roundToDouble_le_double (x : Z) : 0 <= x -> roundToDouble x <= 2 * x.
Proof.
  intros Hx. unfold roundToDouble.
  destruct (Z.ltb_spec x (2 ^ 53)) as [H|H]; [lia|].
  assert (Hl : 53 <= Z.log2 x) by (apply Z.log2_le_pow2; lia).
  pose proof (Z.log2_spec x ltac:(lia)) as [Hlo _].
  set (e := Z.log2 x - 52) in *.
  assert (He : 2 ^ e <= x).
  { apply Z.le_trans with (2 ^ Z.log2 x); [|exact Hlo].
    apply Z.pow_le_mono_r; lia. }
  assert (Hp : 0 < 2 ^ e) by (apply Z.pow_pos_nonneg; lia).
  pose proof (Z.div_mod x (2 ^ e) ltac:(lia)) as Hdm.
  pose proof (Z.mod_pos_bound x (2 ^ e) Hp) as Hr.
  cbv zeta.
  assert (Hq : forall q', q' <= x / 2 ^ e + 1 -> q' * 2 ^ e <= 2 * x) by (intros; nia).
  apply Hq.
  destruct (_ <? _); [lia|]. destruct (_ <? _); [lia|].
  destruct (Z.even _); lia.
Qed.

Lemma ceil_mul_d0_3_le (n : Z) : 0 <= n -> ceil_mul n d0_3 <= n.
Proof.
  intros Hn. unfold ceil_mul, d0_3. cbn [mant expo].
  pose proof (roundToDouble_le_double (n * 5404319552844595) ltac:(lia)) as H.
  set (R := roundToDouble (n * 5404319552844595)) in *.
  change (2 ^ 54) with 18014398509481984.
  Z.div_mod_to_equations. lia.
Qed.

Lemma is_byte_lt (v : Z) : 0 <= v < 256 -> is_byte v = true.
Proof. intros H. unfold is_byte. apply andb_true_iff. split; lia. Qed.

Lemma bytes_ok_encode_scalar (c : Z) :
  0 <= c <= 0x10FFFF -> bytes_ok (Text.encode_scalar c).
Proof.
  intros Hc. rewrite encode_scalar_arith by exact Hc. unfold bytes_ok.
  destruct (Z.leb_spec c 0x7F); [|destruct (Z.leb_spec c 0x7FF);
    [|destruct (Z.leb_spec c 0xFFFF)]];
  cbn [forallb]; rewrite ?andb_true_r, ?andb_true_iff;
  repeat split; apply is_byte_lt; Z.div_mod_to_equations; lia.
Qed.

Lemma bytes_ok_encode (s : Text.jsstring) :
  code_points s -> bytes_ok (Text.encode s).
Proof.
  unfold code_points, Text.encode. induction s as [|c s IH]; intros H; [reflexivity|].
  cbn [forallb] in H. apply andb_true_iff in H. destruct H as [Hc Hs].
  cbn [flat_map]. apply bytes_ok_app. split; [|now apply IH].
  unfold Text.encode_code_point. apply bytes_ok_encode_scalar.
  destruct (Text.is_surrogate c); lia.
Qed.

Lemma bytes_ok_metadata_bytes (nb : list Z) (size : Z) (mb : list Z) (enc : bool) :
  bytes_ok nb -> bytes_ok mb -> bytes_ok (metadata_bytes nb size mb enc).
Proof.
  intros Hn Hm. unfold metadata_bytes.
  repeat (apply bytes_ok_app; split); try apply bytes_ok_le_bytes; try assumption.
  now destruct enc.
Qed.

Lemma decodeMetadata_metadata_bytes (name : Text.jsstring) (size : Z)
    (mime : Text.jsstring) (enc : bool) :
  Text.well_formed name -> Text.well_formed mime ->
  hd 0 name <> 0xFEFF -> hd 0 mime <> 0xFEFF ->
  0 <= size < 2 ^ 32 ->
  len (Text.encode name) < 2 ^ 32 -> len (Text.encode mime) < 2 ^ 32 ->
  decodeMetadata (metadata_bytes (Text.encode name) size (Text.encode mime) enc)
  = Ok {| filename := name; fileSize := size; mimeType := mime;
          isEncrypted := enc |}.
Proof.
  intros Wn Wm Bn Bm Hs Hn Hm.
  pose proof (decodeMetadata_encodeMetadata name size mime enc Hn Hm) as H.
  rewrite encodeMetadata_shape, bind_Ok in H. rewrite H.
  rewrite !decode_encode by (now apply well_formed_code_points).
  rewrite !sanitize_well_formed by assumption.
  rewrite Z.mod_small by lia.
  assert (Hstrip : forall s, hd 0 s <> 0xFEFF -> strip_bom s = s).
  { intros [|c s] Hc; [reflexivity|]. cbn [hd] in Hc. cbn [strip_bom].
    now rewrite (proj2 (Z.eqb_neq c 0xFEFF)). }
  now rewrite !Hstrip.
Qed.

Lemma decodeFrame_frameOf (i t : Z) (p : Uint8Array) (f : Z) :
  bytes_ok p -> len p <= MAX_PAYLOAD ->
  decodeFrame (Some (bytesToPixels (frameOf i t p f))) = Ok (Some (entryOf i t p f)).
Proof.
  intros Hb Hp. pose proof (len_nonneg p) as Hp0.
  pose proof (crc32_range p) as Hc.
  unfold decodeFrame. rewrite pixelsToBytes_bytesToPixels.
  - unfold frameOf. rewrite decodePacket_header_bytes, bind_Ok.
    rewrite MAX_PAYLOAD_value in Hp.
    rewrite (Z.mod_small (len p)) by lia.
    rewrite (Z.mod_small (Crc32.crc32 p)) by lia.
    assert (Hs : slice (p ++ repeat 0 (Z.to_nat (MAX_PAYLOAD - len p))) 0 (len p) = p).
    { unfold slice, len.
      rewrite Z.sub_0_r, Nat2Z.id. cbn [Z.to_nat skipn].
      rewrite firstn_app, Nat.sub_diag, firstn_all. cbn [firstn].
      apply app_nil_r. }
    rewrite Hs. unfold entryOf. cbn [checksum]. unfold verifyPacket.
    now rewrite Z.eqb_refl.
  - unfold frameOf. apply bytes_ok_app. split; [apply bytes_ok_header_bytes|].
    apply bytes_ok_app. split; [exact Hb|apply bytes_ok_repeat].
  - unfold frameOf. rewrite !length_app, length_header_bytes, repeat_length.
    unfold pixelCount, len in *. rewrite MAX_PAYLOAD_value in *.
    change (FRAME_WIDTH * FRAME_HEIGHT) with 2073600. lia.
Qed.

Lemma collect_app {A : Type} (a b : list (outcome A)) (x y : list A) :
  collect a = Ok x -> collect b = Ok y -> collect (a ++ b) = Ok (x ++ y).
Proof.
  revert x. induction a as [|m a IH]; intros x Ha Hb.
  - cbn [collect] in Ha. injection Ha as <-. exact Hb.
  - cbn [collect app] in *. destruct m as [v| |]; try discriminate.
    rewrite bind_Ok in *. destruct (collect a) as [l| |]; try discriminate.
    rewrite bind_Ok in Ha. injection Ha as <-.
    rewrite (IH l eq_refl Hb). reflexivity.
Qed.
End DecodeFacts.

Section DecodeLoops.
Import JS TypedArray Packets Fountain Handler Decoder Aux.

(** The counting loop on a run of frames that count as source frames. *)
Lemma count_sources (dp : entries) (a k : nat) (s r : Z) :
  (forall i, (a <= i < a + k)%nat ->
     match getEntry dp i with Some e => isRepair e = false | None => True end) ->
  fold_left
    (fun (c : Z * Z) i =>
       let (sourceCount, repairCount) := c in
       match getEntry dp i with
       | Some e =>
           if isRepair e then (sourceCount, repairCount + 1)
           else (sourceCount + 1, repairCount)
       | None => (sourceCount + 1, repairCount)
       end)
    (seq a k) (s, r) = (s + Z.of_nat k, r).
Proof.
  revert a s. induction k as [|k IH]; intros a s H.
  - cbn [seq fold_left]. f_equal. lia.
  - cbn [seq fold_left]. specialize (H a ltac:(lia)) as Ha.
    destruct (getEntry dp a) as [e|].
    + rewrite Ha. rewrite IH by (intros i Hi; apply H; lia). f_equal. lia.
    + rewrite IH by (intros i Hi; apply H; lia). f_equal. lia.
Qed.

Lemma count_repairs (dp : entries) (a k : nat) (s r : Z) :
  (forall i, (a <= i < a + k)%nat ->
     exists e, getEntry dp i = Some e /\ isRepair e = true) ->
  fold_left
    (fun (c : Z * Z) i =>
       let (sourceCount, repairCount) := c in
       match getEntry dp i with
       | Some e =>
           if isRepair e then (sourceCount, repairCount + 1)
           else (sourceCount + 1, repairCount)
       | None => (sourceCount + 1, repairCount)
       end)
    (seq a k) (s, r) = (s, r + Z.of_nat k).
Proof.
  revert a r. induction k as [|k IH]; intros a r H.
  - cbn [seq fold_left]. f_equal. lia.
  - cbn [seq fold_left]. destruct (H a ltac:(lia)) as [e [E1 E2]].
    rewrite E1, E2. rewrite IH by (intros i Hi; apply H; lia). f_equal. lia.
Qed.

Lemma firstn_succ_nth {A : Type} (l : list A) (j : nat) (d : A) :
  (j < List.length l)%nat -> firstn (S j) l = firstn j l ++ [nth j l d].
Proof.
  revert j. induction l as [|x l IH]; intros j Hj; [cbn in Hj; lia|].
  destruct j as [|j]; [reflexivity|].
  cbn [List.length] in Hj. change (firstn (S (S j)) (x :: l)) with (x :: firstn (S j) l).
  rewrite (IH j) by lia. reflexivity.
Qed.

Lemma assign_next (ps : list Uint8Array) (j : nat) :
  (j < List.length ps)%nat ->
  assign (map Some (firstn j ps) ++ repeat None (List.length ps - j)) j (nth j ps [])
  = map Some (firstn (S j) ps) ++ repeat None (List.length ps - S j).
Proof.
  intros Hj. unfold assign. rewrite (firstn_succ_nth ps j [] Hj).
  assert (Hl : List.length (map Some (firstn j ps)) = j)
    by (rewrite length_map, length_firstn; lia).
  rewrite length_app, repeat_length, Hl.
  rewrite (proj2 (Nat.ltb_lt _ _)) by lia.
  rewrite firstn_app, Hl, Nat.sub_diag, firstn_all2 by lia.
  change (firstn 0 (repeat None (List.length ps - j))) with (@nil (option Uint8Array)).
  rewrite app_nil_r.
  rewrite skipn_app, Hl, skipn_all2 by lia.
  replace (S j - j)%nat with 1%nat by lia.
  replace (List.length ps - j)%nat with (S (List.length ps - S j)) by lia.
  cbn [repeat skipn app].
  now rewrite map_app, <- app_assoc.
Qed.
End DecodeLoops.

Section DecodeSteps.
Import JS TypedArray Packets Fountain Handler Decoder Aux.

Lemma populate_sources (fuel : nat) (dp : entries) (ps : list Uint8Array)
    (a : nat) (reps : list RepairPacket) (ri : Z) (rest : list nat) :
  (forall k, (k < List.length ps)%nat ->
     exists e, getEntry dp (a + k) = Some e /\ isRepair e = false /\
               isValid e = true /\ payload e = nth k ps []) ->
  forall d j, List.length ps = (j + d)%nat ->
  populate fuel dp (Z.of_nat (List.length ps))
    {| sourcePackets := map Some (firstn j ps) ++ repeat None (List.length ps - j);
       repairPacketsDecoded := reps;
       sourceIdx := Z.of_nat j; repairIdx := ri |}
    (seq (a + j) d ++ rest)
  = populate fuel dp (Z.of_nat (List.length ps))
      {| sourcePackets := map Some ps; repairPacketsDecoded := reps;
         sourceIdx := Z.of_nat (List.length ps); repairIdx := ri |} rest.
Proof.
  intros H. induction d as [|d IH]; intros j Hj.
  - cbn [seq app]. replace j with (List.length ps) by lia.
    rewrite firstn_all, Nat.sub_diag. cbn [repeat]. now rewrite app_nil_r.
  - cbn [seq app populate]. unfold populateStep.
    destruct (H j ltac:(lia)) as [e [E1 [E2 [E3 E4]]]].
    rewrite E1, E2, E3, E4. cbn [sourcePackets repairPacketsDecoded sourceIdx repairIdx].
    rewrite bind_Ok, Nat2Z.id, assign_next by lia.
    replace (Z.of_nat j + 1) with (Z.of_nat (S j)) by lia.
    replace (S (a + j)) with (a + S j)%nat by lia.
    apply IH. lia.
Qed.

Lemma populate_repairs (fuel : nat) (dp : entries) (n : Z) (N : nat)
    (sp : slots) (si : Z) (a m : nat) :
  (forall r, (r < m)%nat ->
     exists e, getEntry dp (a + r) = Some e /\ isRepair e = true) ->
  (forall r, (r < m)%nat ->
     exists l, deriveRepairSources fuel (Z.of_nat r) n = Ok l /\
               Forall (fun j => (j < N)%nat) (map asIndex l)) ->
  forall d j reps, m = (j + d)%nat ->
  Forall (fun p => Forall (fun j => (j < N)%nat) (sourceIndices p)) reps ->
  exists reps',
    Forall (fun p => Forall (fun j => (j < N)%nat) (sourceIndices p)) reps' /\
    populate fuel dp n
      {| sourcePackets := sp; repairPacketsDecoded := reps;
         sourceIdx := si; repairIdx := Z.of_nat j |}
      (seq (a + j) d)
    = Ok {| sourcePackets := sp; repairPacketsDecoded := reps';
            sourceIdx := si; repairIdx := Z.of_nat m |}.
Proof.
  intros He Hl. induction d as [|d IH]; intros j reps Hj Hr.
  - exists reps. split; [exact Hr|]. cbn [seq populate].
    replace j with m by lia. reflexivity.
  - cbn [seq populate]. unfold populateStep.
    destruct (He j ltac:(lia)) as [e [E1 E2]].
    destruct (Hl j ltac:(lia)) as [l [L1 L2]].
    rewrite E1, E2. cbn [sourcePackets repairPacketsDecoded sourceIdx repairIdx].
    rewrite L1, !bind_Ok.
    replace (Z.of_nat j + 1) with (Z.of_nat (S j)) by lia.
    replace (S (a + j)) with (a + S j)%nat by lia.
    apply IH; [lia|].
    destruct (isValid e); [|exact Hr].
    apply Forall_app. split; [exact Hr|]. constructor; [|constructor]. exact L2.
Qed.

Lemma recoverPackets_complete (passes : nat) (s : list Uint8Array)
    (reps : list RepairPacket) (size : Z) :
  Forall (fun p => Forall (fun j => (j < List.length s)%nat) (sourceIndices p))
    reps ->
  recoverPackets (S passes) (map Some s) reps size = Ok (map Some s).
Proof.
  intros H. unfold recoverPackets. cbn [peelLoop].
  now rewrite pass_all_present.
Qed.

Lemma checkRecovered_complete (s : list Uint8Array) (ixs : list nat) :
  Forall (fun i => (i < List.length s)%nat) ixs ->
  checkRecovered (map Some s) ixs = Ok tt.
Proof.
  intros H. induction H as [|i ixs Hi _ IH]; [reflexivity|].
  cbn [checkRecovered]. now rewrite present_all.
Qed.

Lemma packetsOf_complete (s : list Uint8Array) : packetsOf (map Some s) = Ok s.
Proof.
  induction s as [|p s IH]; [reflexivity|].
  cbn [map packetsOf]. now rewrite IH.
Qed.

Lemma slice_all (p : Uint8Array) : slice p 0 (len p) = p.
Proof.
  unfold slice, len. rewrite Z.sub_0_r, Nat2Z.id. cbn [Z.to_nat skipn].
  apply firstn_all.
Qed.

Lemma copyOut_concat (ps : list Uint8Array) (done : Uint8Array) :
  copyOut ps (done ++ repeat 0 (List.length (List.concat ps)))
    (len done + len (List.concat ps)) (len done)
  = Ok (done ++ List.concat ps).
Proof.
  revert done. induction ps as [|p ps IH]; intros done.
  - cbn [List.concat copyOut List.length repeat]. reflexivity.
  - cbn [List.concat copyOut]. rewrite len_app, length_app.
    pose proof (len_nonneg p) as Hp. pose proof (len_nonneg (List.concat ps)) as Hc.
    replace (Z.min (len p) (len done + (len p + len (List.concat ps)) - len done))
      with (len p) by lia.
    rewrite slice_all, set_zeros, bind_Ok.
    destruct (Z.leb_spec (len done + (len p + len (List.concat ps)))
                (len done + len p)) as [H|H].
    + assert (E : List.concat ps = []).
      { apply length_zero_iff_nil. unfold len in *. lia. }
      rewrite E. cbn [List.length repeat]. now rewrite <- app_assoc.
    + replace (len done + len p) with (len (done ++ p)) by apply len_app.
      replace (len (done ++ p) + len (List.concat ps))
        with (len done + (len p + len (List.concat ps))) in IH
        by (rewrite len_app; lia).
      specialize (IH (done ++ p)). rewrite len_app in IH.
      replace (len done + len p + len (List.concat ps))
        with (len done + (len p + len (List.concat ps))) in IH by lia.
      rewrite len_app. rewrite IH. now rewrite <- app_assoc.
Qed.

Lemma getEntry_layout (e0 : option DecodedFrame) (f g : nat -> DecodedFrame)
    (n m : nat) :
  let dp := e0 :: map (fun k => Some (f k)) (seq 0 n)
               ++ map (fun r => Some (g r)) (seq 0 m) in
  (forall k, (k < n)%nat -> getEntry dp (1 + k) = Some (f k)) /\
  (forall r, (r < m)%nat -> getEntry dp (1 + n + r) = Some (g r)).
Proof.
  intros dp. split.
  - intros k Hk. unfold getEntry, dp. cbn [Nat.add nth_error].
    rewrite nth_error_app1 by (rewrite length_map, length_seq; lia).
    rewrite nth_error_map, nth_error_seq.
    rewrite (proj2 (Nat.ltb_lt _ _) Hk). reflexivity.
  - intros r Hr. unfold getEntry, dp. cbn [Nat.add nth_error].
    rewrite nth_error_app2 by (rewrite length_map, length_seq; lia).
    rewrite length_map, length_seq.
    replace (n + r - n)%nat with r by lia.
    rewrite nth_error_map, nth_error_seq.
    rewrite (proj2 (Nat.ltb_lt _ _) Hr). reflexivity.
Qed.
End DecodeSteps.

Section RoundTrip.
Import JS TypedArray Packets Fountain Handler Decoder Aux.

Lemma generateRepairs_sets (fuel : nat) (s : list Uint8Array) (rs : list nat)
    (ps : list RepairPacket) :
  generateRepairs fuel s rs = Ok ps ->
  List.length ps = List.length rs /\
  forall r, In r rs ->
    exists l, getRepairSources fuel (Z.of_nat r) (Z.of_nat (List.length s)) = Ok l /\
              Forall (fun j => (j < List.length s)%nat) (map asIndex l).
Proof.
  revert ps. induction rs as [|r rs IH]; intros ps H.
  - injection H as <-. split; [reflexivity|]. intros r [].
  - cbn [generateRepairs] in H.
    destruct (generateRepair fuel s (Z.of_nat r)) as [p| |] eqn:G;
      try discriminate.
    rewrite bind_Ok in H.
    destruct (generateRepairs fuel s rs) as [ps'| |] eqn:G'; try discriminate.
    rewrite bind_Ok in H. injection H as <-.
    destruct (IH ps' eq_refl) as [IH1 IH2].
    split; [cbn [List.length]; now rewrite IH1|].
    intros r' [<-|Hr]; [|now apply IH2].
    unfold generateRepair in G.
    destruct (getRepairSources fuel (Z.of_nat r) (Z.of_nat (List.length s)))
      as [l| |] eqn:E; try discriminate.
    exists l. split; [reflexivity|].
    destruct s as [|first rest]; [rewrite bind_Ok in G; discriminate|].
    apply getRepairSources_inv in E; [|cbn [List.length]; lia].
    destruct E as [_ [E _]]. rewrite Forall_map.
    eapply Forall_impl; [|exact E].
    intros x [z [-> Hz]]. cbn [asIndex]. lia.
Qed.

Lemma chunkCount_bound (fileBytes : Uint8Array) :
  Z.of_nat (chunkCount fileBytes) <= len fileBytes.
Proof.
  unfold chunkCount. pose proof (len_nonneg fileBytes) as H.
  rewrite MAX_PAYLOAD_value.
  destruct (Z.eq_dec (len fileBytes) 0) as [->|Hn]; [reflexivity|].
  rewrite Z2Nat.id by (apply Z.div_pos; lia).
  Z.div_mod_to_equations. lia.
Qed.

Lemma isRepair_source (i t : Z) (p : Uint8Array) :
  isRepair (entryOf i t p 0) = false.
Proof. reflexivity. Qed.

Lemma isRepair_repair (i t : Z) (p : Uint8Array) :
  isRepair (entryOf i t p FLAG_REPAIR) = true.
Proof. reflexivity. Qed.

Lemma readMetadata_entryOf (i t : Z) (p : Uint8Array) (f : Z) :
  readMetadata (Some (entryOf i t p f)) = decodeMetadata p.
Proof. reflexivity. Qed.

Lemma collect_cons {A : Type} (m : outcome A) (ms : list (outcome A)) :
  collect (m :: ms) = (a <- m ;; l <- collect ms ;; Ok (a :: l)).
Proof. reflexivity. Qed.

(** The whole of [#decode] on entries laid out as [#encode] lays frames
    out: a valid metadata entry, [n] valid source entries, then repair
    entries, with nothing missing. *)
Lemma decodeFrames_layout
    (decrypt : Uint8Array -> Text.jsstring -> outcome Uint8Array)
    (fuel passes : nat) (frames : list (option Uint8Array))
    (password : option Text.jsstring)
    (name mime : Text.jsstring) (fileBytes : Uint8Array)
    (m : nat) (rdata : nat -> Uint8Array) (meta : Uint8Array) :
  let n := chunkCount fileBytes in
  let total := 1 + Z.of_nat n + Z.of_nat m in
  collect (map decodeFrame frames)
  = Ok (Some (entryOf 0 total meta 0)
        :: map (fun k => Some (entryOf (Z.of_nat k + 1) total (piece fileBytes k) 0))
             (seq 0 n)
        ++ map (fun r => Some (entryOf (Z.of_nat n + Z.of_nat r + 1) total
                                 (rdata r) FLAG_REPAIR))
             (seq 0 m)) ->
  decodeMetadata meta
  = Ok {| filename := name; fileSize := len fileBytes; mimeType := mime;
          isEncrypted := false |} ->
  total < 2 ^ 32 ->
  (forall r, (r < m)%nat ->
     exists l, getRepairSources fuel (Z.of_nat r) (Z.of_nat n) = Ok l /\
               Forall (fun j => (j < n)%nat) (map asIndex l)) ->
  decodeFrames decrypt fuel (S passes) frames password = Ok (name, fileBytes).
Proof.
  intros n total Hdp Hmeta Htot Hsets.
  unfold decodeFrames. rewrite Hdp, bind_Ok.
  set (dp := Some (entryOf 0 total meta 0) :: _) in *.
  assert (Hf : forallb (fun e : option DecodedFrame =>
                          match e with Some _ => false | None => true end) dp
               = false) by reflexivity.
  rewrite Hf.
  assert (H0 : getEntry dp 0 = Some (entryOf 0 total meta 0)) by reflexivity.
  rewrite H0, readMetadata_entryOf, Hmeta, bind_Ok.
  assert (Ht : totalPackets (header (entryOf 0 total meta 0)) = total).
  { change (totalPackets (header (entryOf 0 total meta 0))) with (total mod 2 ^ 32).
    apply Z.mod_small. unfold total in *. lia. }
  rewrite Ht.
  destruct (getEntry_layout (Some (entryOf 0 total meta 0))
              (fun k => entryOf (Z.of_nat k + 1) total (piece fileBytes k) 0)
              (fun r => entryOf (Z.of_nat n + Z.of_nat r + 1) total (rdata r)
                          FLAG_REPAIR) n m) as [Hs Hr].
  fold dp in Hs, Hr.
  assert (Hlen : Z.to_nat (total - 1) = (n + m)%nat) by (unfold total; lia).
  assert (Hc : countFrames dp total = (Z.of_nat n, Z.of_nat m)).
  { unfold countFrames. rewrite Hlen, seq_app, fold_left_app.
    rewrite count_sources.
    - rewrite count_repairs; [reflexivity|].
      intros i Hi. replace i with (1 + n + (i - 1 - n))%nat by lia.
      rewrite Hr by lia. eexists. split; [reflexivity|apply isRepair_repair].
    - intros i Hi. replace i with (1 + (i - 1))%nat by lia.
      rewrite Hs by lia. apply isRepair_source. }
  rewrite Hc, Hlen, seq_app, Nat2Z.id.
  set (ps := map (piece fileBytes) (seq 0 n)).
  assert (Hps : List.length ps = n)
    by (unfold ps; now rewrite length_map, length_seq).
  pose proof (populate_sources fuel dp ps 1 [] 0 (seq (1 + n) m)) as Hp1.
  rewrite Hps in Hp1. specialize (fun H => Hp1 H n 0%nat eq_refl).
  cbn [firstn map app] in Hp1. rewrite Nat.sub_0_r, Nat.add_0_r in Hp1.
  change (Z.of_nat 0) with 0 in Hp1.
  rewrite Hp1.
  2:{ intros k Hk. rewrite Hs by exact Hk. eexists.
      split; [reflexivity|]. split; [apply isRepair_source|].
      split; [reflexivity|]. unfold ps.
      rewrite (nth_indep _ [] (piece fileBytes 0%nat))
        by (rewrite length_map, length_seq; lia).
      rewrite (map_nth (piece fileBytes)), seq_nth by lia. reflexivity. }
  destruct (populate_repairs fuel dp (Z.of_nat n) n (map Some ps) (Z.of_nat n)
              (1 + n) m) with (d := m) (j := 0%nat) (reps := @nil RepairPacket)
    as [reps' [Hin Hp2]].
  { intros r Hr'. rewrite Hr by exact Hr'. eexists.
    split; [reflexivity|apply isRepair_repair]. }
  { exact Hsets. }
  { reflexivity. }
  { constructor. }
  rewrite Nat.add_0_r in Hp2. change (Z.of_nat 0) with 0 in Hp2.
  rewrite Hp2, bind_Ok.
  cbn [sourcePackets repairPacketsDecoded].
  rewrite <- Hps in Hin.
  rewrite (recoverPackets_complete passes ps reps' _ Hin), bind_Ok.
  rewrite checkRecovered_complete, bind_Ok.
  2:{ apply Forall_forall. intros i Hi. apply in_seq in Hi. lia. }
  rewrite packetsOf_complete, bind_Ok.
  cbn [isEncrypted fileSize filename].
  pose proof (copyOut_concat ps []) as Hco.
  unfold ps in Hco at 1 2 3 4. rewrite concat_pieces in Hco.
  cbn [app] in Hco. change (len []) with 0 in Hco. rewrite Z.add_0_l in Hco.
  unfold alloc, len at 1. rewrite Nat2Z.id. fold ps in Hco.
  rewrite Hco, bind_Ok. reflexivity.
Qed.
End RoundTrip.

Section RoundTripTheorems.
Import JS TypedArray Packets Fountain Handler Decoder Aux.

Lemma chunkCount_small (fileBytes : Uint8Array) :
  len fileBytes < 2 ^ 32 -> (chunkCount fileBytes <= 691)%nat.
Proof.
  intros H. unfold chunkCount. pose proof (len_nonneg fileBytes) as H0.
  rewrite MAX_PAYLOAD_value.
  assert ((len fileBytes + 6220781 - 1) / 6220781 <= 691)
    by (Z.div_mod_to_equations; lia).
  lia.
Qed.

Lemma repairCount_le (n : nat) :
  (Z.to_nat (Z.max 1 (ceil_mul (Z.of_nat n) d0_3)) <= Nat.max 1 n)%nat.
Proof.
  pose proof (ceil_mul_d0_3_le (Z.of_nat n) ltac:(lia)). lia.
Qed.

Lemma length_generateRepairPackets (fuel : nat) (s : list Uint8Array)
    (repairs : list RepairPacket) :
  generateRepairPackets fuel s d0_3 = Ok repairs ->
  List.length repairs
  = Z.to_nat (Z.max 1 (ceil_mul (Z.of_nat (List.length s)) d0_3)).
Proof.
  unfold generateRepairPackets. intros H.
  apply generateRepairs_sets in H. destruct H as [H _].
  now rewrite H, length_seq.
Qed.

Lemma length_collect {A : Type} (ms : list (outcome A)) (l : list A) :
  collect ms = Ok l -> List.length l = List.length ms.
Proof.
  revert l. induction ms as [|m ms IH]; intros l H.
  - injection H as <-. reflexivity.
  - apply collect_Ok_inv in H.
    destruct H as [a [l' [_ [H ->]]]]. cbn [List.length]. now rewrite (IH l' H).
Qed.

Lemma length_sourceSets (fuel : nat) (n : Z) (sets : list (list number)) :
  sourceSets fuel n = Ok sets ->
  List.length sets = Z.to_nat (Z.max 1 (ceil_mul n d0_3)).
Proof.
  unfold sourceSets. intros H. apply length_collect in H.
  now rewrite H, length_map, length_seq.
Qed.

(** Decoding what [encodeFrames] returned. *)
Lemma decode_encoded (decrypt : Uint8Array -> Text.jsstring -> outcome Uint8Array)
    (fuel passes : nat) (name : Text.jsstring) (fileBytes : Uint8Array)
    (mime : Text.jsstring) (frames : list Uint8Array)
    (password : option Text.jsstring) :
  Text.well_formed name -> Text.well_formed mime ->
  hd 0 name <> 0xFEFF -> hd 0 mime <> 0xFEFF ->
  bytes_ok fileBytes -> len fileBytes < 2 ^ 32 ->
  encodeFrames fuel name fileBytes mime = Ok frames ->
  decodeFrames decrypt fuel (S passes)
    (map (fun f => Some (bytesToPixels f)) frames) password
  = Ok (name, fileBytes).
Proof.
  intros Wn Wm Bn Bm Hb Hsz H.
  apply encodeFrames_inv in H; [|exact Hb]. cbv zeta in H.
  destruct H as [repairs [G [Hm ->]]].
  set (n := chunkCount fileBytes) in *.
  set (chunks := map (chunkOf fileBytes) (seq 0 n)) in *.
  set (meta := metadata_bytes (Text.encode name) (len fileBytes)
                 (Text.encode mime) false) in *.
  set (m := List.length repairs) in *.
  set (rd := fun r => data (nth r repairs {| repairIndex := 0; sourceIndices := [];
                                             data := [] |})).
  assert (Hclen : List.length chunks = n)
    by (unfold chunks; now rewrite length_map, length_seq).
  assert (Hne : chunks <> []).
  { intros E. rewrite E in G. rewrite generateRepairPackets_empty in G.
    discriminate. }
  pose proof (chunks_ok_chunks fileBytes n Hb) as Hck. fold chunks in Hck.
  pose proof G as G'. unfold generateRepairPackets in G'.
  pose proof (generateRepairs_inv _ _ _ _ G') as [Hrep _].
  pose proof (generateRepairs_sets _ _ _ _ G') as [Hlen Hsets].
  rewrite length_seq in Hlen. rewrite Hclen in Hlen, Hsets.
  pose proof (len_nonneg (Text.encode name)) as Hn0.
  pose proof (len_nonneg (Text.encode mime)) as Hm0.
  assert (Hml : len meta = 13 + len (Text.encode name) + len (Text.encode mime)).
  { unfold meta, len. rewrite length_metadata_bytes. lia. }
  rewrite MAX_PAYLOAD_value in Hm.
  apply (decodeFrames_layout decrypt fuel passes _ password name mime fileBytes
           m rd meta).
  - fold n. cbn [map]. repeat (rewrite map_map || rewrite map_app).
    rewrite collect_cons.
    rewrite decodeFrame_frameOf, bind_Ok.
    + erewrite collect_app; [rewrite bind_Ok; reflexivity| |].
      * apply collect_map_Ok. intros k _.
        apply decodeFrame_frameOf;
          [now apply bytes_ok_piece|apply length_piece_le].
      * apply collect_map_Ok. intros r Hr. apply in_seq in Hr.
        assert (Hr' : (r < List.length repairs)%nat) by (fold m; lia).
        rewrite Forall_forall in Hrep.
        pose proof (Hrep _ (nth_In repairs
                                 {| repairIndex := 0; sourceIndices := [];
                                    data := [] |} Hr')) as Hro.
        pose proof (repair_data_length _ _ _ Hne Hck Hro) as [Hl Hbo].
        apply decodeFrame_frameOf; [exact Hbo|].
        unfold len, rd. rewrite Hl, Z2Nat.id;
          [apply Z.le_refl | apply Z.lt_le_incl, MAX_PAYLOAD_pos].
    + apply bytes_ok_metadata_bytes;
        apply bytes_ok_encode, well_formed_code_points; assumption.
    + rewrite MAX_PAYLOAD_value. exact Hm.
  - apply decodeMetadata_metadata_bytes; try assumption; try lia.
    pose proof (len_nonneg fileBytes). lia.
  - fold n. pose proof (chunkCount_small fileBytes Hsz) as Hn. fold n in Hn.
    pose proof (repairCount_le n) as Hr. unfold m. rewrite Hlen. lia.
  - fold n. intros r Hr. apply Hsets. apply in_seq. unfold m in Hr. lia.
Qed.
End RoundTripTheorems.

Section HandlerExtras.
Import JS TypedArray Packets Fountain Handler Decoder Aux.

Lemma sourceSets_nonzero (fuel : nat) (sets : list (list number)) :
  sourceSets fuel 0 <> Ok sets.
Proof.
  unfold sourceSets. intros H.
  destruct (Z.to_nat (Z.max 1 (ceil_mul 0 d0_3))) as [|k] eqn:E; [lia|].
  cbn [seq map] in H. apply collect_Ok_inv in H.
  destruct H as [a [l' [H _]]]. cbn [Z.of_nat] in H.
  rewrite getRepairSources_zero in H. discriminate.
Qed.

(** [encodeFrames] returns once the source sets can be drawn and the
    metadata fits in one frame. *)
Lemma encodeFrames_returns (fuel : nat) (name : Text.jsstring)
    (fileBytes : Uint8Array) (mime : Text.jsstring) (sets : list (list number)) :
  bytes_ok fileBytes ->
  13 + len (Text.encode name) + len (Text.encode mime) <= MAX_PAYLOAD ->
  sourceSets fuel (Z.of_nat (chunkCount fileBytes)) = Ok sets ->
  let n := chunkCount fileBytes in
  exists repairs,
    generateRepairPackets fuel (map (chunkOf fileBytes) (seq 0 n)) d0_3
    = Ok repairs /\
    map sourceIndices repairs = map (map toIndex) sets /\
    List.length repairs = List.length sets /\
    let total := 1 + Z.of_nat n + Z.of_nat (List.length repairs) in
    encodeFrames fuel name fileBytes mime =
    Ok (frameOf 0 total
          (metadata_bytes (Text.encode name) (len fileBytes) (Text.encode mime)
             false) 0
        :: map (fun k => frameOf (Z.of_nat k + 1) total (piece fileBytes k) 0)
             (seq 0 n)
        ++ map (fun r => frameOf (Z.of_nat n + Z.of_nat r + 1) total
                           (data (nth r repairs
                                    {| repairIndex := 0; sourceIndices := [];
                                       data := [] |})) FLAG_REPAIR)
             (seq 0 (List.length repairs))).
Proof.
  intros Hb Hm Hs n.
  set (chunks := map (chunkOf fileBytes) (seq 0 n)).
  assert (Hclen : List.length chunks = n)
    by (unfold chunks; now rewrite length_map, length_seq).
  assert (Hne : chunks <> []).
  { intros E. rewrite E in Hclen. cbn [List.length] in Hclen.
    fold n in Hs. rewrite <- Hclen in Hs. now apply sourceSets_nonzero in Hs. }
  fold n in Hs. rewrite <- Hclen in Hs.
  destruct (generateRepairPackets_of_sets fuel fuel chunks sets Hne (le_n _) Hs)
    as [repairs [G Hmap]].
  exists repairs. split; [exact G|]. split; [exact Hmap|]. split.
  - apply (f_equal (@List.length _)) in Hmap. now rewrite !length_map in Hmap.
  - apply (encodeFrames_ok fuel name fileBytes mime repairs Hb G).
    unfold len. rewrite length_metadata_bytes. unfold len in Hm. lia.
Qed.

Lemma len_frameOf (i t : Z) (p : Uint8Array) (f : Z) :
  len p <= MAX_PAYLOAD -> len (frameOf i t p f) = FRAME_BYTES.
Proof.
  intros H. unfold frameOf. rewrite !len_app, len_header_bytes.
  unfold len at 2. rewrite repeat_length.
  rewrite MAX_PAYLOAD_value, FRAME_BYTES_value in *.
  change HEADER_SIZE with 19. pose proof (len_nonneg p). lia.
Qed.

Lemma decodePacket_frameOf (i t : Z) (p : Uint8Array) (f : Z) :
  len p <= MAX_PAYLOAD ->
  decodePacket (frameOf i t p f) = Ok (Some (header (entryOf i t p f), p)).
Proof.
  intros Hp. pose proof (len_nonneg p) as Hp0.
  pose proof (crc32_range p) as Hc.
  unfold frameOf. rewrite decodePacket_header_bytes.
  rewrite MAX_PAYLOAD_value in Hp.
  rewrite (Z.mod_small (len p)) by lia.
  rewrite (Z.mod_small (Crc32.crc32 p)) by lia.
  assert (Hs : slice (p ++ repeat 0 (Z.to_nat (MAX_PAYLOAD - len p))) 0 (len p) = p).
  { unfold slice, len.
    rewrite Z.sub_0_r, Nat2Z.id. cbn [Z.to_nat skipn].
    rewrite firstn_app, Nat.sub_diag, firstn_all. cbn [firstn].
    apply app_nil_r. }
  rewrite Hs. reflexivity.
Qed.
End HandlerExtras.

Section HandlerTheorems.
Import JS TypedArray Packets Fountain Handler Decoder Aux.





(** X21: how [#encode] splits a file.  [sourceChunksOf] never throws; it
    returns [ceil (length / MAX_PAYLOAD)] chunks of exactly [MAX_PAYLOAD] bytes,
    chunk [k] being the bytes of the file from [k * MAX_PAYLOAD] on, padded
    with zeros; cutting each chunk to the length the frame loop computes and
    joining the pieces gives the file back. *)
Theorem sourceChunksOf_splits (fileBytes : Uint8Array) :
  exists chunks,
    sourceChunksOf fileBytes = Ok chunks /\
    Z.of_nat (List.length chunks)
    = (len fileBytes + MAX_PAYLOAD - 1) / MAX_PAYLOAD /\
    (forall k, (k < List.length chunks)%nat ->
       len (nth k chunks []) = MAX_PAYLOAD /\
       exists pad,
         nth k chunks []
         = slice fileBytes (Z.of_nat k * MAX_PAYLOAD)
             (Z.of_nat k * MAX_PAYLOAD + MAX_PAYLOAD) ++ repeat 0 pad) /\
    List.concat
      (map (fun k => slice (nth k chunks []) 0
                       (Z.min MAX_PAYLOAD
                          (len fileBytes - Z.of_nat k * MAX_PAYLOAD)))
         (seq 0 (List.length chunks)))
    = fileBytes.
Proof.
  pose proof MAX_PAYLOAD_pos as Hmax. pose proof (len_nonneg fileBytes) as H0.
  exists (map (chunkOf fileBytes) (seq 0 (chunkCount fileBytes))).
  split; [apply sourceChunksOf_ok|].
  rewrite length_map, length_seq.
  assert (Hnth : forall k, (k < chunkCount fileBytes)%nat ->
            nth k (map (chunkOf fileBytes) (seq 0 (chunkCount fileBytes))) []
            = chunkOf fileBytes k).
  { intros k Hk.
    rewrite (nth_indep _ [] (chunkOf fileBytes 0%nat))
      by (rewrite length_map, length_seq; lia).
    now rewrite (map_nth (chunkOf fileBytes)), seq_nth by lia. }
  split; [|split].
  - unfold chunkCount. rewrite Z2Nat.id; [reflexivity|].
    apply Z.div_pos; lia.
  - intros k Hk. rewrite (Hnth k Hk). split.
    + unfold len. rewrite length_chunkOf. lia.
    + eexists. unfold chunkOf. f_equal.
      rewrite !piece_firstn. unfold slice.
      replace (Z.to_nat (Z.of_nat k * MAX_PAYLOAD + MAX_PAYLOAD
                         - Z.of_nat k * MAX_PAYLOAD))
        with (Z.to_nat MAX_PAYLOAD) by lia.
      f_equal. f_equal. rewrite Z2Nat.inj_mul, Nat2Z.id by lia. reflexivity.
  - rewrite <- (concat_pieces fileBytes) at 2. f_equal.
    apply map_ext_in. intros k Hk. apply in_seq in Hk.
    rewrite Hnth by lia. apply slice_chunkOf. lia.
Qed.
End HandlerTheorems.

Section DecodeErrors.
Import JS TypedArray Packets Fountain Handler Decoder Aux.

Lemma decodePacket_total (raw : Uint8Array) : exists r, decodePacket raw = Ok r.
Proof.
  destruct (Z.lt_ge_cases (len raw) HEADER_SIZE) as [Hlt|Hge].
  - exists None. unfold decodePacket. apply Z.ltb_lt in Hlt. now rewrite Hlt.
  - assert (Hg : getUint 2 raw 0 = Ok (le_value (firstn 2 (skipn 0 raw)))).
    { apply getUint_ok; [lia|]. change HEADER_SIZE with 19 in Hge. simpl. lia. }
    destruct (Z.eq_dec (le_value (firstn 2 (skipn 0 raw))) MAGIC) as [Em|Em].
    + rewrite Em in Hg. rewrite (decodePacket_ok raw Hge Hg). eauto.
    + exists None. unfold decodePacket. apply Z.ltb_ge in Hge. rewrite Hge, Hg.
      rewrite bind_Ok. apply Z.eqb_neq in Em. now rewrite Em.
Qed.

Lemma decodeFrame_total (x : option Uint8Array) : exists r, decodeFrame x = Ok r.
Proof.
  destruct x as [px|]; [|now exists None]. unfold decodeFrame.
  destruct (decodePacket_total (pixelsToBytes px)) as [[[h p]|] E];
    rewrite E, bind_Ok; eauto.
Qed.

Lemma collect_decodeFrame (frames : list (option Uint8Array)) :
  exists dp, collect (map decodeFrame frames) = Ok dp /\
             Forall2 (fun x e => decodeFrame x = Ok e) frames dp.
Proof.
  induction frames as [|x frames [dp [IH1 IH2]]].
  - exists []. split; [reflexivity|constructor].
  - destruct (decodeFrame_total x) as [e E]. exists (e :: dp).
    split; [|now constructor].
    cbn [map]. now rewrite collect_cons, E, bind_Ok, IH1, bind_Ok.
Qed.



Lemma forallb_entries (frames : list (option Uint8Array)) (dp : entries) :
  Forall2 (fun x e => decodeFrame x = Ok e) frames dp ->
  forallb (fun e : option DecodedFrame =>
             match e with Some _ => false | None => true end) dp
  = forallb (fun x => match decodeFrame x with
                      | Ok (Some _) => false
                      | _ => true
                      end) frames.
Proof.
  intros F. induction F as [|x e frames dp Hx F IH]; [reflexivity|].
  cbn [forallb]. rewrite Hx, IH. reflexivity.
Qed.


End DecodeErrors.

Section DecodeReceived.
Import JS TypedArray Packets Fountain Handler Decoder Aux.

Lemma assign_slot (tgt : slots) (j : nat) (p : Uint8Array) :
  (j < List.length tgt)%nat -> nth j tgt None = Some p ->
  assign (firstn j tgt ++ repeat None (List.length tgt - j)) j p
  = firstn (S j) tgt ++ repeat None (List.length tgt - S j).
Proof.
  intros Hj Hn. unfold assign. rewrite (firstn_succ_nth tgt j None Hj), Hn.
  assert (Hl : List.length (firstn j tgt) = j) by (rewrite length_firstn; lia).
  rewrite length_app, repeat_length, Hl.
  rewrite (proj2 (Nat.ltb_lt _ _)) by lia.
  rewrite firstn_app, Hl, Nat.sub_diag, firstn_all2 by lia.
  change (firstn 0 (repeat None (List.length tgt - j)))
    with (@nil (option Uint8Array)).
  rewrite app_nil_r.
  rewrite skipn_app, Hl, skipn_all2 by lia.
  replace (S j - j)%nat with 1%nat by lia.
  replace (List.length tgt - j)%nat with (S (List.length tgt - S j)) by lia.
  cbn [repeat skipn app]. now rewrite <- app_assoc.
Qed.

Lemma skip_slot (tgt : slots) (j : nat) :
  (j < List.length tgt)%nat -> nth j tgt None = None ->
  firstn j tgt ++ repeat None (List.length tgt - j)
  = firstn (S j) tgt ++ repeat None (List.length tgt - S j).
Proof.
  intros Hj Hn. rewrite (firstn_succ_nth tgt j None Hj), Hn.
  replace (List.length tgt - j)%nat with (S (List.length tgt - S j)) by lia.
  cbn [repeat]. now rewrite <- app_assoc.
Qed.

(** The source frames fill [sourcePackets] with what they deliver. *)
Lemma populate_slots (fuel : nat) (dp : entries) (tgt : slots)
    (a : nat) (reps : list RepairPacket) (ri : Z) (rest : list nat) :
  (forall k, (k < List.length tgt)%nat ->
     delivers (getEntry dp (a + k)) (nth k tgt None)) ->
  forall d j, List.length tgt = (j + d)%nat ->
  populate fuel dp (Z.of_nat (List.length tgt))
    {| sourcePackets := firstn j tgt ++ repeat None (List.length tgt - j);
       repairPacketsDecoded := reps;
       sourceIdx := Z.of_nat j; repairIdx := ri |}
    (seq (a + j) d ++ rest)
  = populate fuel dp (Z.of_nat (List.length tgt))
      {| sourcePackets := tgt; repairPacketsDecoded := reps;
         sourceIdx := Z.of_nat (List.length tgt); repairIdx := ri |} rest.
Proof.
  intros H. induction d as [|d IH]; intros j Hj.
  - cbn [seq app]. replace j with (List.length tgt) by lia.
    rewrite firstn_all, Nat.sub_diag. cbn [repeat]. now rewrite app_nil_r.
  - cbn [seq app populate]. unfold populateStep.
    pose proof (H j ltac:(lia)) as Hd. unfold delivers in Hd.
    replace (S (a + j)) with (a + S j)%nat by lia.
    destruct (nth j tgt None) as [p|] eqn:En.
    + destruct Hd as [e [E1 [E2 [E3 E4]]]].
      rewrite E1, E2, E3, E4.
      cbn [sourcePackets repairPacketsDecoded sourceIdx repairIdx].
      rewrite bind_Ok, Nat2Z.id, assign_slot by (assumption || lia).
      replace (Z.of_nat j + 1) with (Z.of_nat (S j)) by lia.
      apply IH. lia.
    + destruct (getEntry dp (a + j)) as [e|].
      * destruct Hd as [E2 E3]. rewrite E2, E3.
        cbn [sourcePackets repairPacketsDecoded sourceIdx repairIdx].
        rewrite bind_Ok, skip_slot by (assumption || lia).
        replace (Z.of_nat j + 1) with (Z.of_nat (S j)) by lia.
        apply IH. lia.
      * cbn [sourcePackets repairPacketsDecoded sourceIdx repairIdx].
        rewrite (proj2 (Z.ltb_lt _ _)) by lia.
        rewrite bind_Ok, skip_slot by (assumption || lia).
        replace (Z.of_nat j + 1) with (Z.of_nat (S j)) by lia.
        apply IH. lia.
Qed.

(** The valid repair frames give the repair packets, in order. *)
Lemma populate_repairs_exact (fuel : nat) (dp : entries) (n : Z)
    (sp : slots) (si : Z) (a : nat) (repairs : list RepairPacket)
    (d0 : RepairPacket) :
  (forall r, (r < List.length repairs)%nat ->
     exists e l, getEntry dp (a + r) = Some e /\ isRepair e = true /\
                 isValid e = true /\
                 deriveRepairSources fuel (Z.of_nat r) n = Ok l /\
                 nth r repairs d0
                 = {| repairIndex := Z.of_nat r; sourceIndices := map asIndex l;
                      data := payload e |}) ->
  forall d j, List.length repairs = (j + d)%nat ->
  populate fuel dp n
    {| sourcePackets := sp; repairPacketsDecoded := firstn j repairs;
       sourceIdx := si; repairIdx := Z.of_nat j |}
    (seq (a + j) d)
  = Ok {| sourcePackets := sp; repairPacketsDecoded := repairs;
          sourceIdx := si; repairIdx := Z.of_nat (List.length repairs) |}.
Proof.
  intros H. induction d as [|d IH]; intros j Hj.
  - cbn [seq populate]. replace j with (List.length repairs) by lia.
    now rewrite firstn_all.
  - cbn [seq populate]. unfold populateStep.
    destruct (H j ltac:(lia)) as [e [l [E1 [E2 [E3 [E4 E5]]]]]].
    rewrite E1, E2, E3. cbn [sourcePackets repairPacketsDecoded sourceIdx repairIdx].
    rewrite E4, !bind_Ok, <- E5.
    rewrite <- (firstn_succ_nth repairs j d0) by lia.
    replace (Z.of_nat j + 1) with (Z.of_nat (S j)) by lia.
    replace (S (a + j)) with (a + S j)%nat by lia.
    apply IH. lia.
Qed.

(** [#decode] after the frame loop, for entries that hold a valid metadata
    entry, then what fills the source slots [tgt], then valid repair
    entries: what is left is the recovery and the copy. *)
Lemma decodeFrames_received
    (decrypt : Uint8Array -> Text.jsstring -> outcome Uint8Array)
    (fuel passes : nat) (frames : list (option Uint8Array))
    (password : option Text.jsstring) (dp : entries) (e0 : DecodedFrame)
    (name mime : Text.jsstring) (size : Z) (tgt : slots)
    (repairs : list RepairPacket) (d0 : RepairPacket) :
  collect (map decodeFrame frames) = Ok dp ->
  getEntry dp 0 = Some e0 -> isValid e0 = true ->
  decodeMetadata (payload e0)
  = Ok {| filename := name; fileSize := size; mimeType := mime;
          isEncrypted := false |} ->
  totalPackets (header e0)
  = 1 + Z.of_nat (List.length tgt) + Z.of_nat (List.length repairs) ->
  (forall k, (k < List.length tgt)%nat ->
     delivers (getEntry dp (1 + k)) (nth k tgt None)) ->
  (forall r, (r < List.length repairs)%nat ->
     exists e l, getEntry dp (1 + List.length tgt + r) = Some e /\
                 isRepair e = true /\ isValid e = true /\
                 deriveRepairSources fuel (Z.of_nat r)
                   (Z.of_nat (List.length tgt)) = Ok l /\
                 nth r repairs d0
                 = {| repairIndex := Z.of_nat r; sourceIndices := map asIndex l;
                      data := payload e |}) ->
  decodeFrames decrypt fuel passes frames password
  = (recovered <- recoverPackets passes tgt repairs (packetSizeOf tgt) ;;
     _ <- checkRecovered recovered (seq 0 (List.length tgt)) ;;
     pkts <- packetsOf recovered ;;
     fileBytes <- copyOut pkts (alloc size) size 0 ;;
     Ok (name, fileBytes)).
Proof.
  intros Hdp H0 Hv Hmeta Htot Hs Hr.
  set (n := List.length tgt) in *. set (m := List.length repairs) in *.
  unfold decodeFrames. rewrite Hdp, bind_Ok.
  assert (Hf : forallb (fun e : option DecodedFrame =>
                          match e with Some _ => false | None => true end) dp
               = false).
  { destruct dp as [|[e|] dp]; try discriminate. reflexivity. }
  rewrite Hf, H0. unfold readMetadata. rewrite Hv, Hmeta, bind_Ok, Htot.
  assert (Hlen : Z.to_nat (1 + Z.of_nat n + Z.of_nat m - 1) = (n + m)%nat) by lia.
  assert (Hc : countFrames dp (1 + Z.of_nat n + Z.of_nat m)
               = (Z.of_nat n, Z.of_nat m)).
  { unfold countFrames. rewrite Hlen, seq_app, fold_left_app.
    rewrite count_sources.
    - rewrite count_repairs; [reflexivity|].
      intros i Hi. replace i with (1 + n + (i - 1 - n))%nat by lia.
      destruct (Hr (i - 1 - n)%nat ltac:(lia)) as [e [l [E1 [E2 _]]]]. eauto.
    - intros i Hi. replace i with (1 + (i - 1))%nat by lia.
      pose proof (Hs (i - 1)%nat ltac:(lia)) as Hd. unfold delivers in Hd.
      destruct (nth (i - 1) tgt None).
      + destruct Hd as [e [E1 [E2 _]]]. now rewrite E1.
      + destruct (getEntry dp (1 + (i - 1))); tauto. }
  rewrite Hc, Hlen, seq_app, Nat2Z.id.
  pose proof (populate_slots fuel dp tgt 1 [] 0 (seq (1 + n) m) Hs n 0%nat eq_refl)
    as Hp1.
  cbn [firstn app] in Hp1. rewrite Nat.sub_0_r, Nat.add_0_r in Hp1.
  change (Z.of_nat 0) with 0 in Hp1. fold n in Hp1.
  rewrite Hp1.
  pose proof (populate_repairs_exact fuel dp (Z.of_nat n) tgt (Z.of_nat n)
                (1 + n) repairs d0 Hr m 0%nat eq_refl) as Hp2.
  cbn [firstn] in Hp2. rewrite Nat.add_0_r in Hp2.
  change (Z.of_nat 0) with 0 in Hp2.
  rewrite Hp2, bind_Ok.
  cbn [sourcePackets repairPacketsDecoded isEncrypted fileSize filename].
  reflexivity.
Qed.
End DecodeReceived.

Section UnpaddedSources.
Import JS TypedArray Packets Fountain Handler Decoder Aux.

(** Zero padding of the second operand does not show in the XOR. *)
Lemma xorBytes_pad_r (d q : Uint8Array) (k : nat) :
  (List.length q + k <= List.length d)%nat ->
  xorBytes d (q ++ repeat 0 k) = xorBytes d q.
Proof.
  intros H. unfold xorBytes. rewrite length_app, repeat_length.
  replace (Nat.max (List.length d) (List.length q + k)) with (List.length d) by lia.
  replace (Nat.max (List.length d) (List.length q)) with (List.length d) by lia.
  apply map_ext. intros i. do 2 f_equal. unfold get0.
  destruct (Nat.lt_ge_cases i (List.length q)) as [Hi|Hi].
  - now rewrite app_nth1.
  - rewrite app_nth2, (nth_overflow q) by lia.
    destruct (Nat.lt_ge_cases (i - List.length q) k) as [Hk|Hk].
    + now rewrite nth_repeat_lt.
    + apply nth_overflow. rewrite repeat_length. lia.
Qed.

Lemma fold_xorBytes_padded (L : nat) (ps cs : list Uint8Array) (js : list nat)
    (d : Uint8Array) :
  List.length d = L ->
  Forall (fun j => List.length (nth j cs []) = L /\
                   exists k, nth j cs [] = nth j ps [] ++ repeat 0 k) js ->
  fold_left xorBytes (map (fun j => nth j ps []) js) d
  = fold_left xorBytes (map (fun j => nth j cs []) js) d.
Proof.
  intros Hd H. revert d Hd. induction H as [|j js [Hl [k Hk]] _ IH]; intros d Hd;
    [reflexivity|].
  cbn [map fold_left].
  assert (E : xorBytes d (nth j cs []) = xorBytes d (nth j ps [])).
  { rewrite Hk. apply xorBytes_pad_r. rewrite Hk, length_app, repeat_length in Hl.
    lia. }
  rewrite <- E. apply IH. rewrite length_xorBytes. lia.
Qed.

Lemma assign_withLoss_any (i : nat) (s : list Uint8Array) (d : Uint8Array) :
  (i < List.length s)%nat ->
  assign (withLoss i s) i d = map Some (firstn i s ++ d :: skipn (S i) s).
Proof.
  intros H. unfold assign. rewrite length_withLoss by exact H.
  rewrite (proj2 (Nat.ltb_lt _ _) H). unfold withLoss.
  rewrite firstn_app, length_map, length_firstn.
  replace (i - Nat.min i (List.length s))%nat with 0%nat by lia.
  rewrite firstn_all2 by (rewrite length_map, length_firstn; lia).
  change (firstn 0 (None :: map Some (skipn (S i) s)))
    with (@nil (option Uint8Array)).
  rewrite app_nil_r.
  rewrite skipn_app, length_map, length_firstn.
  rewrite skipn_all2 by (rewrite length_map, length_firstn; lia).
  replace (S i - Nat.min i (List.length s))%nat with 1%nat by lia.
  cbn [skipn app]. rewrite map_app. reflexivity.
Qed.

Lemma peel_covered_unpadded (L i : nat) (ps cs : list Uint8Array) (c : bool)
    (p : RepairPacket) :
  chunks_ok L cs -> padded_view ps cs -> repair_of cs p ->
  (i < List.length cs)%nat -> In i (sourceIndices p) ->
  peel (withLoss i ps, c) p
  = (map Some (firstn i ps ++ nth i cs [] :: skipn (S i) ps), true).
Proof.
  intros Hs [Hlen Hpad] Hp Hi Hin. pose proof Hp as [Hnd [Hidx Hdata]].
  unfold peel.
  rewrite filter_absent_withLoss by (rewrite Hlen; assumption).
  rewrite filter_eqb_NoDup by assumption.
  rewrite peel_fold_others by (rewrite Hlen; assumption).
  assert (Hne : cs <> []) by (intros ->; cbn in Hi; lia).
  destruct (repair_data_length L cs p Hne Hs Hp) as [Hdl _].
  rewrite (fold_xorBytes_padded L ps cs).
  - rewrite (recovered_data L) by assumption.
    rewrite assign_withLoss_any by (now rewrite Hlen). reflexivity.
  - exact Hdl.
  - apply Forall_forall. intros j Hj. apply filter_In in Hj. destruct Hj as [Hj _].
    rewrite Forall_forall in Hidx. specialize (Hidx j Hj).
    split; [now apply (chunks_ok_nth L cs j Hs)|now apply Hpad].
Qed.

Lemma pass_one_lost_unpadded (L i : nat) (ps cs : list Uint8Array) (c : bool)
    (repairs : list RepairPacket) :
  chunks_ok L cs -> padded_view ps cs -> Forall (repair_of cs) repairs ->
  (i < List.length cs)%nat ->
  fold_left peel repairs (withLoss i ps, c)
  = if covers i repairs
    then (map Some (firstn i ps ++ nth i cs [] :: skipn (S i) ps), true)
    else (withLoss i ps, c).
Proof.
  intros Hs Hv Hr Hi. pose proof Hv as [Hlen _].
  revert c. induction Hr as [|p ps' Hp Hps IH]; intros c; [reflexivity|].
  cbn [fold_left covers existsb].
  destruct (existsb (Nat.eqb i) (sourceIndices p)) eqn:E.
  - apply existsb_eqb_In in E. rewrite (peel_covered_unpadded L i ps cs) by assumption.
    cbn [orb]. apply pass_all_present.
    assert (Hl : List.length (firstn i ps ++ nth i cs [] :: skipn (S i) ps)
                 = List.length cs).
    { rewrite length_app, length_firstn. cbn [List.length]. rewrite length_skipn. lia. }
    rewrite Hl. apply repair_of_in_range, Hps.
  - cbn [orb]. rewrite peel_uncovered.
    + apply IH.
    + now rewrite Hlen.
    + rewrite Hlen. destruct Hp as [_ [Hp _]]. exact Hp.
    + intros Hin. assert (existsb (Nat.eqb i) (sourceIndices p) = true).
      { apply existsb_exists. exists i. split; [exact Hin|apply Nat.eqb_refl]. }
      congruence.
Qed.

Lemma recoverPackets_one_lost_unpadded (L i fuel : nat) (ps cs : list Uint8Array)
    (repairs : list RepairPacket) (packetSize : Z) :
  chunks_ok L cs -> padded_view ps cs -> Forall (repair_of cs) repairs ->
  (i < List.length cs)%nat ->
  recoverPackets (S (S fuel)) (withLoss i ps) repairs packetSize
  = Ok (if covers i repairs
        then map Some (firstn i ps ++ nth i cs [] :: skipn (S i) ps)
        else withLoss i ps).
Proof.
  intros Hs Hv Hr Hi. pose proof Hv as [Hlen _].
  unfold recoverPackets. cbn [peelLoop].
  rewrite (pass_one_lost_unpadded L i ps cs) by assumption.
  destruct (covers i repairs); [|reflexivity].
  rewrite pass_all_present; [reflexivity|].
  assert (Hl : List.length (firstn i ps ++ nth i cs [] :: skipn (S i) ps)
               = List.length cs).
  { rewrite length_app, length_firstn. cbn [List.length]. rewrite length_skipn. lia. }
  rewrite Hl. now apply repair_of_in_range.
Qed.

Lemma checkRecovered_present (rec : slots) (l1 l2 : list nat) :
  Forall (fun j => present rec j <> None) l1 ->
  checkRecovered rec (l1 ++ l2) = checkRecovered rec l2.
Proof.
  intros H. induction H as [|j l1 Hj _ IH]; [reflexivity|].
  cbn [app checkRecovered]. destruct (present rec j); [exact IH|congruence].
Qed.

Lemma checkRecovered_first_absent (rec : slots) (i n : nat) :
  (i < n)%nat -> (forall j, (j < i)%nat -> present rec j <> None) ->
  present rec i = None ->
  checkRecovered rec (seq 0 n)
  = Throw (Thrown ("Failed to recover source packet "
                     ++ DecimalString.NilEmpty.string_of_uint (Nat.to_uint i)
                     ++ ". Too many corrupted frames.")).
Proof.
  intros Hi Hp Ha. replace n with (i + (n - i))%nat by lia.
  rewrite seq_app, checkRecovered_present.
  - replace (n - i)%nat with (S (n - S i)) by lia. cbn [seq checkRecovered Nat.add].
    now rewrite Ha.
  - apply Forall_forall. intros j Hj. apply in_seq in Hj. apply Hp. lia.
Qed.

(** The copy loop when the last packet is longer than what is left of the
    file. *)
Lemma copyOut_concat_last (ps : list Uint8Array) (p extra done : Uint8Array) :
  copyOut (ps ++ [p ++ extra])
    (done ++ repeat 0 (List.length (List.concat ps ++ p)))
    (len done + len (List.concat ps ++ p)) (len done)
  = Ok (done ++ List.concat ps ++ p).
Proof.
  revert done. induction ps as [|q ps IH]; intros done.
  - cbn [List.concat app copyOut].
    pose proof (len_nonneg p) as Hp. pose proof (len_nonneg extra) as He.
    rewrite len_app.
    replace (Z.min (len p + len extra) (len done + len p - len done))
      with (len p) by lia.
    assert (Hs : slice (p ++ extra) 0 (len p) = p).
    { unfold slice, len. rewrite Z.sub_0_r, Nat2Z.id. cbn [Z.to_nat skipn].
      rewrite firstn_app, Nat.sub_diag, firstn_all. cbn [firstn].
      apply app_nil_r. }
    rewrite Hs.
    replace (List.length p) with (List.length p + 0)%nat at 1 by lia.
    rewrite set_zeros, bind_Ok. cbn [repeat]. rewrite app_nil_r.
    rewrite (proj2 (Z.leb_le _ _)) by lia. reflexivity.
  - cbn [List.concat app copyOut]. rewrite <- app_assoc.
    set (r := List.concat ps ++ p) in *.
    rewrite len_app, length_app.
    pose proof (len_nonneg q) as Hq. pose proof (len_nonneg r) as Hr.
    replace (Z.min (len q) (len done + (len q + len r) - len done))
      with (len q) by lia.
    rewrite slice_all, set_zeros, bind_Ok.
    destruct (Z.leb_spec (len done + (len q + len r)) (len done + len q)) as [H|H].
    + assert (E : r = []).
      { apply length_zero_iff_nil. unfold len in *. lia. }
      rewrite E. cbn [List.length repeat]. now rewrite <- app_assoc.
    + specialize (IH (done ++ q)). rewrite len_app in IH.
      replace (len done + len q + len r)
        with (len done + (len q + len r)) in IH by lia.
      rewrite IH. now rewrite <- app_assoc.
Qed.
End UnpaddedSources.

Section LostFrames.
Import JS TypedArray Packets Fountain Handler Decoder Aux.

Lemma getEntry_collect (frames : list (option Uint8Array)) (dp : entries)
    (j : nat) :
  Forall2 (fun x e => decodeFrame x = Ok e) frames dp ->
  match nth_error frames j with
  | Some x => decodeFrame x = Ok (getEntry dp j)
  | None => getEntry dp j = None
  end.
Proof.
  intros F. revert j. induction F as [|x e frames dp Hx F IH]; intros j.
  - destruct j; reflexivity.
  - destruct j as [|j].
    + cbn [nth_error]. rewrite Hx. unfold getEntry. cbn [nth_error].
      now destruct e.
    + cbn [nth_error]. apply IH.
Qed.

Lemma nth_error_replaced {A : Type} (l : list A) (k j : nat) (x : A) :
  (k < List.length l)%nat ->
  nth_error (firstn k l ++ x :: skipn (S k) l) j
  = if (j =? k)%nat then Some x else nth_error l j.
Proof.
  intros Hk.
  assert (Hl : List.length (firstn k l) = k) by (rewrite length_firstn; lia).
  destruct (Nat.lt_trichotomy j k) as [Hlt|[->|Hgt]].
  - rewrite (proj2 (Nat.eqb_neq j k)) by lia.
    rewrite nth_error_app1 by lia. rewrite nth_error_firstn.
    now rewrite (proj2 (Nat.ltb_lt j k)) by lia.
  - rewrite Nat.eqb_refl, nth_error_app2 by lia.
    now rewrite Hl, Nat.sub_diag.
  - rewrite (proj2 (Nat.eqb_neq j k)) by lia.
    rewrite nth_error_app2 by lia. rewrite Hl.
    replace (j - k)%nat with (S (j - S k)) by lia. cbn [nth_error].
    rewrite nth_error_skipn. f_equal. lia.
Qed.

Lemma nth_error_layout {A : Type} (x0 : A) (f g : nat -> A) (n m : nat) :
  let l := x0 :: map f (seq 0 n) ++ map g (seq 0 m) in
  nth_error l 0 = Some x0 /\
  (forall k, (k < n)%nat -> nth_error l (1 + k) = Some (f k)) /\
  (forall r, (r < m)%nat -> nth_error l (1 + n + r) = Some (g r)) /\
  List.length l = (1 + n + m)%nat.
Proof.
  intros l. split; [reflexivity|]. split; [|split].
  - intros k Hk. unfold l. cbn [Nat.add nth_error].
    rewrite nth_error_app1 by (rewrite length_map, length_seq; lia).
    rewrite nth_error_map, nth_error_seq.
    rewrite (proj2 (Nat.ltb_lt _ _) Hk). reflexivity.
  - intros r Hr. unfold l. cbn [Nat.add nth_error].
    rewrite nth_error_app2 by (rewrite length_map, length_seq; lia).
    rewrite length_map, length_seq.
    replace (n + r - n)%nat with r by lia.
    rewrite nth_error_map, nth_error_seq.
    rewrite (proj2 (Nat.ltb_lt _ _) Hr). reflexivity.
  - unfold l. cbn [List.length]. rewrite length_app, !length_map, !length_seq. lia.
Qed.

Lemma nth_withLoss (i k : nat) (s : list Uint8Array) :
  (i < List.length s)%nat -> (k < List.length s)%nat ->
  nth k (withLoss i s) None = if (k =? i)%nat then None else Some (nth k s []).
Proof.
  intros Hi Hk.
  pose proof (nth_error_withLoss i k s Hi) as H.
  rewrite (nth_error_nth' s [] Hk) in H. cbn [option_map] in H.
  destruct (k =? i)%nat; now apply nth_error_nth.
Qed.

Lemma generateRepairs_exact (fuel : nat) (s : list Uint8Array) (rs : list nat)
    (ps : list RepairPacket) :
  generateRepairs fuel s rs = Ok ps ->
  Forall2 (fun r p =>
             exists l,
               getRepairSources fuel (Z.of_nat r) (Z.of_nat (List.length s)) = Ok l /\
               repairIndex p = Z.of_nat r /\
               sourceIndices p = map asIndex l) rs ps.
Proof.
  revert ps. induction rs as [|r rs IH]; intros ps H.
  - injection H as <-. constructor.
  - cbn [generateRepairs] in H.
    destruct (generateRepair fuel s (Z.of_nat r)) as [p| |] eqn:G;
      try discriminate.
    rewrite bind_Ok in H.
    destruct (generateRepairs fuel s rs) as [ps'| |] eqn:G'; try discriminate.
    rewrite bind_Ok in H. injection H as <-.
    constructor; [|now apply IH].
    unfold generateRepair in G.
    destruct (getRepairSources fuel (Z.of_nat r) (Z.of_nat (List.length s)))
      as [l| |] eqn:E; try discriminate.
    exists l. split; [reflexivity|]. rewrite bind_Ok in G.
    destruct s as [|first rest]; [discriminate|].
    apply getRepairSources_inv in E; [|cbn [List.length]; lia].
    destruct E as [_ [E _]].
    rewrite xorSources_spec in G by exact E. rewrite bind_Ok in G.
    injection G as <-. split; reflexivity.
Qed.

Lemma Forall2_nth {A B : Type} (R : A -> B -> Prop) (l : list A) (l' : list B)
    (a : A) (b : B) (j : nat) :
  Forall2 R l l' -> (j < List.length l)%nat -> R (nth j l a) (nth j l' b).
Proof.
  intros F. revert j. induction F as [|x y l l' Hxy F IH]; intros j Hj.
  - cbn in Hj. lia.
  - destruct j as [|j]; [exact Hxy|]. cbn [nth]. apply IH. cbn in Hj. lia.
Qed.

Lemma padded_view_chunks (fileBytes : Uint8Array) (n : nat) :
  padded_view (map (piece fileBytes) (seq 0 n)) (map (chunkOf fileBytes) (seq 0 n)).
Proof.
  split; [now rewrite !length_map|].
  rewrite length_map, length_seq. intros j Hj.
  rewrite (nth_indep _ [] (chunkOf fileBytes 0%nat))
    by (rewrite length_map, length_seq; lia).
  rewrite (map_nth (chunkOf fileBytes)), seq_nth by lia.
  rewrite (nth_indep _ [] (piece fileBytes 0%nat))
    by (rewrite length_map, length_seq; lia).
  rewrite (map_nth (piece fileBytes)), seq_nth by lia.
  eexists. reflexivity.
Qed.

Lemma nth_map_seq {A : Type} (f : nat -> A) (n k : nat) (d : A) :
  (k < n)%nat -> nth k (map f (seq 0 n)) d = f k.
Proof.
  intros Hk. rewrite (nth_indep _ d (f 0%nat))
    by (rewrite length_map, length_seq; lia).
  now rewrite (map_nth f), seq_nth by lia.
Qed.

Lemma piece_full (fileBytes : Uint8Array) (k : nat) :
  (S k < chunkCount fileBytes)%nat -> chunkOf fileBytes k = piece fileBytes k.
Proof.
  intros Hk. unfold chunkOf.
  pose proof (length_piece fileBytes k) as Hl.
  pose proof (chunkCount_covers fileBytes) as [_ Hc].
  pose proof MAX_PAYLOAD_pos as Hm.
  destruct Hc as [Hc|Hc].
  2:{ subst. cbn in Hk. lia. }
  assert (E : List.length (piece fileBytes k) = Z.to_nat MAX_PAYLOAD).
  { unfold len in Hl. nia. }
  rewrite E, Nat.sub_diag. cbn [repeat]. apply app_nil_r.
Qed.

(** The packets after the recovery of source [i], as the copy loop sees
    them: all pieces, the last one possibly followed by padding. *)
Lemma recovered_as_pieces (fileBytes : Uint8Array) (i : nat) :
  let n := chunkCount fileBytes in
  let ps := map (piece fileBytes) (seq 0 n) in
  (i < n)%nat ->
  exists extra,
    firstn i ps ++ chunkOf fileBytes i :: skipn (S i) ps
    = map (piece fileBytes) (seq 0 (n - 1)) ++ [piece fileBytes (n - 1) ++ extra].
Proof.
  intros n ps Hi.
  assert (Hps : ps = map (piece fileBytes) (seq 0 (n - 1)) ++ [piece fileBytes (n - 1)]).
  { unfold ps. replace n with (n - 1 + 1)%nat at 1 by lia.
    rewrite seq_app, map_app. reflexivity. }
  assert (Hlen : List.length ps = n) by (unfold ps; now rewrite length_map, length_seq).
  destruct (Nat.eq_dec i (n - 1)) as [->|Hne].
  - eexists. rewrite skipn_all2 by lia.
    rewrite Hps at 1. rewrite firstn_app, length_map, length_seq, Nat.sub_diag.
    rewrite firstn_all2 by (rewrite length_map, length_seq; lia).
    cbn [firstn]. rewrite app_nil_r. unfold chunkOf. reflexivity.
  - exists []. rewrite app_nil_r. transitivity ps; [|exact Hps].
    rewrite piece_full by (fold n; lia).
    replace (piece fileBytes i) with (nth i ps []).
    + symmetry. apply split_at_nth. lia.
    + unfold ps. apply nth_map_seq. exact Hi.
Qed.
End LostFrames.

Section LostSourceFrame.
Import JS TypedArray Packets Fountain Handler Decoder Aux.

(** What [#decode] makes of the frames of [#encode] when the frame of source
    [i] is replaced by one that delivers nothing. *)
Lemma decode_lost_source
    (decrypt : Uint8Array -> Text.jsstring -> outcome Uint8Array)
    (fuel passes : nat) (name : Text.jsstring) (fileBytes : Uint8Array)
    (mime : Text.jsstring) (frames : list Uint8Array)
    (repairs : list RepairPacket)
    (password : option Text.jsstring) (i : nat) (x : option Uint8Array) :
  let n := chunkCount fileBytes in
  let chunks := map (chunkOf fileBytes) (seq 0 n) in
  let meta := metadata_bytes (Text.encode name) (len fileBytes)
                (Text.encode mime) false in
  let d0 := {| repairIndex := 0; sourceIndices := []; data := [] |} in
  let m := List.length repairs in
  let total := 1 + Z.of_nat n + Z.of_nat m in
  let received := map (fun f => Some (bytesToPixels f)) frames in
  Text.well_formed name -> Text.well_formed mime ->
  hd 0 name <> 0xFEFF -> hd 0 mime <> 0xFEFF ->
  bytes_ok fileBytes -> len fileBytes < 2 ^ 32 ->
  len meta <= MAX_PAYLOAD ->
  generateRepairPackets fuel chunks d0_3 = Ok repairs ->
  frames
  = frameOf 0 total meta 0
    :: map (fun k => frameOf (Z.of_nat k + 1) total (piece fileBytes k) 0) (seq 0 n)
    ++ map (fun r => frameOf (Z.of_nat n + Z.of_nat r + 1) total
                       (data (nth r repairs d0)) FLAG_REPAIR) (seq 0 m) ->
  (i < n)%nat ->
  (decodeFrame x = Ok None \/
   exists e, decodeFrame x = Ok (Some e) /\ isRepair e = false /\
             isValid e = false) ->
  decodeFrames decrypt fuel (S (S passes))
    (firstn (1 + i) received ++ x :: skipn (2 + i) received) password
  = if covers i repairs
    then Ok (name, fileBytes)
    else Throw (Thrown ("Failed to recover source packet "
                          ++ NilEmpty.string_of_uint (Nat.to_uint i)
                          ++ ". Too many corrupted frames.")).
Proof.
  intros n chunks meta d0 m total received Wn Wm Bn Bm Hb Hsz Hmeta G Hfr Hi Hx.
  set (ps := map (piece fileBytes) (seq 0 n)).
  assert (Hps : List.length ps = n) by (unfold ps; now rewrite length_map, length_seq).
  assert (Hclen : List.length chunks = n)
    by (unfold chunks; now rewrite length_map, length_seq).
  assert (Hne : chunks <> []).
  { intros E. rewrite E in G. rewrite generateRepairPackets_empty in G.
    discriminate. }
  pose proof (chunks_ok_chunks fileBytes n Hb) as Hck. fold chunks in Hck.
  pose proof G as G'. unfold generateRepairPackets in G'.
  pose proof (generateRepairs_inv _ _ _ _ G') as [Hrep _].
  pose proof (generateRepairs_sets _ _ _ _ G') as [Hlen _].
  pose proof (generateRepairs_exact _ _ _ _ G') as Hex.
  rewrite length_seq in Hlen. rewrite Hclen in Hlen, Hex. fold m in Hlen.
  pose proof (chunkCount_small fileBytes Hsz) as Hn. fold n in Hn.
  pose proof (repairCount_le n) as Hrc.
  assert (Htot : 0 <= total < 2 ^ 32) by (unfold total; lia).
  assert (Hrd : forall r, (r < m)%nat ->
            bytes_ok (data (nth r repairs d0)) /\
            len (data (nth r repairs d0)) <= MAX_PAYLOAD).
  { intros r Hr. rewrite Forall_forall in Hrep.
    pose proof (repair_data_length _ _ _ Hne Hck (Hrep _ (nth_In repairs d0 Hr)))
      as [Hl Hbo].
    split; [exact Hbo|]. unfold len. rewrite Hl, Z2Nat.id;
      [apply Z.le_refl | apply Z.lt_le_incl, MAX_PAYLOAD_pos]. }
  destruct (nth_error_layout (frameOf 0 total meta 0)
              (fun k => frameOf (Z.of_nat k + 1) total (piece fileBytes k) 0)
              (fun r => frameOf (Z.of_nat n + Z.of_nat r + 1) total
                          (data (nth r repairs d0)) FLAG_REPAIR) n m)
    as [L0 [LS [LR LL]]].
  rewrite <- Hfr in L0, LS, LR, LL.
  assert (Hrl : List.length received = (1 + n + m)%nat)
    by (unfold received; now rewrite length_map).
  set (got := firstn (1 + i) received ++ x :: skipn (2 + i) received).
  assert (Hgot : forall j, nth_error got j
                 = if (j =? 1 + i)%nat then Some x
                   else option_map (fun f => Some (bytesToPixels f))
                          (nth_error frames j)).
  { intros j. unfold got. change (2 + i)%nat with (S (1 + i)).
    rewrite nth_error_replaced by lia.
    destruct (j =? 1 + i)%nat; [reflexivity|].
    unfold received. apply nth_error_map. }
  destruct (collect_decodeFrame got) as [dp [E Ff]].
  assert (H0 : getEntry dp 0 = Some (entryOf 0 total meta 0)).
  { pose proof (getEntry_collect got dp 0 Ff) as H.
    rewrite Hgot, L0 in H. cbn [Nat.eqb Nat.add option_map] in H.
    rewrite decodeFrame_frameOf in H.
    - injection H as H. symmetry. exact H.
    - apply bytes_ok_metadata_bytes;
        apply bytes_ok_encode, well_formed_code_points; assumption.
    - exact Hmeta. }
  assert (HS : forall k, (k < n)%nat -> k <> i ->
            getEntry dp (1 + k)
            = Some (entryOf (Z.of_nat k + 1) total (piece fileBytes k) 0)).
  { intros k Hk Hki. pose proof (getEntry_collect got dp (1 + k) Ff) as H.
    rewrite Hgot, LS in H by exact Hk.
    rewrite (proj2 (Nat.eqb_neq (1 + k) (1 + i))) in H by lia.
    cbn [option_map] in H. rewrite decodeFrame_frameOf in H.
    - injection H as H. symmetry. exact H.
    - now apply bytes_ok_piece.
    - apply length_piece_le. }
  assert (HX : decodeFrame x = Ok (getEntry dp (1 + i))).
  { pose proof (getEntry_collect got dp (1 + i) Ff) as H.
    rewrite Hgot, Nat.eqb_refl in H. exact H. }
  assert (HR : forall r, (r < m)%nat ->
            getEntry dp (1 + n + r)
            = Some (entryOf (Z.of_nat n + Z.of_nat r + 1) total
                      (data (nth r repairs d0)) FLAG_REPAIR)).
  { intros r Hr. pose proof (getEntry_collect got dp (1 + n + r) Ff) as H.
    rewrite Hgot, LR in H by exact Hr.
    rewrite (proj2 (Nat.eqb_neq (1 + n + r) (1 + i))) in H by lia.
    cbn [option_map] in H. rewrite decodeFrame_frameOf in H.
    - injection H as H. symmetry. exact H.
    - now apply Hrd.
    - now apply Hrd. }
  assert (Htl : List.length (withLoss i ps) = n)
    by (rewrite length_withLoss; lia).
  pose proof (len_nonneg (Text.encode name)) as Hn0.
  pose proof (len_nonneg (Text.encode mime)) as Hm0.
  assert (Hml : len meta = 13 + len (Text.encode name) + len (Text.encode mime)).
  { unfold meta, len. rewrite length_metadata_bytes. lia. }
  rewrite MAX_PAYLOAD_value in Hmeta.
  rewrite (decodeFrames_received decrypt fuel (S (S passes)) got password dp
             (entryOf 0 total meta 0) name mime (len fileBytes)
             (withLoss i ps) repairs d0 E H0 eq_refl).
  - rewrite Htl.
    rewrite (recoverPackets_one_lost_unpadded (Z.to_nat MAX_PAYLOAD) i passes ps chunks).
    + destruct (covers i repairs).
      * rewrite bind_Ok.
        assert (Hl : List.length (firstn i ps ++ nth i chunks [] :: skipn (S i) ps) = n).
        { rewrite length_app, length_firstn. cbn [List.length].
          rewrite length_skipn. lia. }
        rewrite checkRecovered_complete, bind_Ok.
        2:{ apply Forall_forall. intros j Hj. apply in_seq in Hj. lia. }
        rewrite packetsOf_complete, bind_Ok.
        unfold chunks at 1. rewrite nth_map_seq by exact Hi.
        destruct (recovered_as_pieces fileBytes i Hi) as [extra Hr].
        fold n ps in Hr. rewrite Hr.
        pose proof (copyOut_concat_last (map (piece fileBytes) (seq 0 (n - 1)))
                      (piece fileBytes (n - 1)) extra []) as Hco.
        assert (Hcat : List.concat (map (piece fileBytes) (seq 0 (n - 1)))
                         ++ piece fileBytes (n - 1) = fileBytes).
        { rewrite <- (concat_pieces fileBytes) at 3. fold n.
          replace n with (n - 1 + 1)%nat at 3 by lia.
          rewrite seq_app, map_app, concat_app. cbn [seq map List.concat Nat.add].
          now rewrite app_nil_r. }
        rewrite Hcat in Hco. cbn [app] in Hco. change (len []) with 0 in Hco.
        rewrite Z.add_0_l in Hco.
        unfold alloc, len at 1. rewrite Nat2Z.id.
        rewrite Hco, bind_Ok. reflexivity.
      * rewrite bind_Ok.
        rewrite (checkRecovered_first_absent (withLoss i ps) i n Hi).
        -- reflexivity.
        -- intros j Hj. rewrite present_withLoss by lia.
           rewrite (proj2 (Nat.eqb_neq j i)) by lia. discriminate.
        -- rewrite present_withLoss by lia. now rewrite Nat.eqb_refl.
    + exact Hck.
    + apply padded_view_chunks.
    + exact Hrep.
    + lia.
  - apply decodeMetadata_metadata_bytes; try assumption; try lia.
    pose proof (len_nonneg fileBytes). lia.
  - rewrite Htl. change (totalPackets (header (entryOf 0 total meta 0)))
      with (total mod 2 ^ 32).
    rewrite Z.mod_small by lia. reflexivity.
  - rewrite Htl. intros k Hk. rewrite nth_withLoss by lia. unfold delivers.
    destruct (Nat.eqb_spec k i) as [->|Hki].
    + destruct Hx as [Hx|[e [Hx [Hx1 Hx2]]]].
      * assert (Hg : getEntry dp (1 + i) = None) by congruence.
        now rewrite Hg.
      * assert (Hg : getEntry dp (1 + i) = Some e) by congruence.
        rewrite Hg. tauto.
    + eexists. split; [apply HS; assumption|].
      split; [reflexivity|]. split; [reflexivity|].
      unfold ps. now rewrite nth_map_seq.
  - rewrite Htl. intros r Hr. fold m in Hr.
    pose proof (Forall2_nth _ _ _ 0%nat d0 r Hex) as Hq.
    rewrite length_seq, seq_nth in Hq by lia. specialize (Hq ltac:(lia)).
    cbn [Nat.add] in Hq. destruct Hq as [l [Q1 [Q2 Q3]]].
    exists (entryOf (Z.of_nat n + Z.of_nat r + 1) total
              (data (nth r repairs d0)) FLAG_REPAIR), l.
    split; [now apply HR|]. split; [reflexivity|]. split; [reflexivity|].
    split; [exact Q1|].
    destruct (nth r repairs d0) as [ri si da]. cbn [repairIndex sourceIndices data] in *.
    now subst.
Qed.
End LostSourceFrame.

Section LostRepairFrames.
Import JS TypedArray Packets Fountain Handler Decoder Aux.

Lemma recoverPackets_no_repairs (passes : nat) (tgt : slots) (size : Z) :
  recoverPackets (S passes) tgt [] size = Ok tgt.
Proof. reflexivity. Qed.

Lemma present_app_None (s : list Uint8Array) (k j : nat) :
  present (map Some s ++ repeat None k) j
  = if (j <? List.length s)%nat then Some (nth j s []) else None.
Proof.
  unfold present. destruct (Nat.ltb_spec j (List.length s)) as [H|H].
  - rewrite nth_error_app1 by (now rewrite length_map).
    rewrite nth_error_map. now rewrite (nth_error_nth' s [] H).
  - rewrite nth_error_app2 by (now rewrite length_map).
    rewrite length_map.
    destruct (nth_error (repeat None k) (j - List.length s)) as [v|] eqn:E;
      [|reflexivity].
    apply nth_error_In, repeat_spec in E. now subst.
Qed.

Lemma nth_app_None (s : list Uint8Array) (k j : nat) :
  nth j (map Some s ++ repeat None k) None
  = if (j <? List.length s)%nat then Some (nth j s []) else None.
Proof.
  destruct (Nat.ltb_spec j (List.length s)) as [H|H].
  - rewrite app_nth1 by (now rewrite length_map).
    apply nth_error_nth. now rewrite nth_error_map, (nth_error_nth' s [] H).
  - rewrite app_nth2 by (now rewrite length_map).
    rewrite length_map.
    destruct (Nat.lt_ge_cases (j - List.length s) k) as [Hk|Hk].
    + now rewrite nth_repeat_lt.
    + apply nth_overflow. now rewrite repeat_length.
Qed.

(** What [#decode] makes of the frames of [#encode] when nothing readable
    follows the source frames. *)
Lemma decode_lost_repairs
    (decrypt : Uint8Array -> Text.jsstring -> outcome Uint8Array)
    (fuel passes : nat) (name : Text.jsstring) (fileBytes : Uint8Array)
    (mime : Text.jsstring) (frames : list Uint8Array)
    (repairs : list RepairPacket)
    (password : option Text.jsstring) (xs : list (option Uint8Array)) :
  let n := chunkCount fileBytes in
  let chunks := map (chunkOf fileBytes) (seq 0 n) in
  let meta := metadata_bytes (Text.encode name) (len fileBytes)
                (Text.encode mime) false in
  let d0 := {| repairIndex := 0; sourceIndices := []; data := [] |} in
  let m := List.length repairs in
  let total := 1 + Z.of_nat n + Z.of_nat m in
  let received := map (fun f => Some (bytesToPixels f)) frames in
  Text.well_formed name -> Text.well_formed mime ->
  hd 0 name <> 0xFEFF -> hd 0 mime <> 0xFEFF ->
  bytes_ok fileBytes -> len fileBytes < 2 ^ 32 ->
  len meta <= MAX_PAYLOAD ->
  generateRepairPackets fuel chunks d0_3 = Ok repairs ->
  frames
  = frameOf 0 total meta 0
    :: map (fun k => frameOf (Z.of_nat k + 1) total (piece fileBytes k) 0) (seq 0 n)
    ++ map (fun r => frameOf (Z.of_nat n + Z.of_nat r + 1) total
                       (data (nth r repairs d0)) FLAG_REPAIR) (seq 0 m) ->
  Forall (fun x => decodeFrame x = Ok None) xs ->
  decodeFrames decrypt fuel (S passes) (firstn (1 + n) received ++ xs) password
  = Throw (Thrown ("Failed to recover source packet "
                     ++ NilEmpty.string_of_uint (Nat.to_uint n)
                     ++ ". Too many corrupted frames.")).
Proof.
  intros n chunks meta d0 m total received Wn Wm Bn Bm Hb Hsz Hmeta G Hfr Hxs.
  set (ps := map (piece fileBytes) (seq 0 n)).
  assert (Hps : List.length ps = n) by (unfold ps; now rewrite length_map, length_seq).
  assert (Hclen : List.length chunks = n)
    by (unfold chunks; now rewrite length_map, length_seq).
  pose proof G as G'. unfold generateRepairPackets in G'.
  pose proof (generateRepairs_sets _ _ _ _ G') as [Hlen _].
  rewrite length_seq in Hlen. rewrite Hclen in Hlen. fold m in Hlen.
  pose proof (chunkCount_small fileBytes Hsz) as Hn. fold n in Hn.
  pose proof (repairCount_le n) as Hrc.
  assert (Hm1 : (1 <= m)%nat) by lia.
  assert (Htot : 0 <= total < 2 ^ 32) by (unfold total; lia).
  destruct (nth_error_layout (frameOf 0 total meta 0)
              (fun k => frameOf (Z.of_nat k + 1) total (piece fileBytes k) 0)
              (fun r => frameOf (Z.of_nat n + Z.of_nat r + 1) total
                          (data (nth r repairs d0)) FLAG_REPAIR) n m)
    as [L0 [LS [_ LL]]].
  rewrite <- Hfr in L0, LS, LL.
  assert (Hrl : List.length received = (1 + n + m)%nat)
    by (unfold received; now rewrite length_map).
  set (got := firstn (1 + n) received ++ xs).
  assert (Hfl : List.length (firstn (1 + n) received) = (1 + n)%nat)
    by (rewrite length_firstn; lia).
  assert (Hgot1 : forall j, (j < 1 + n)%nat ->
            nth_error got j
            = option_map (fun f => Some (bytesToPixels f)) (nth_error frames j)).
  { intros j Hj. unfold got. rewrite nth_error_app1 by lia.
    rewrite nth_error_firstn, (proj2 (Nat.ltb_lt _ _) Hj).
    unfold received. apply nth_error_map. }
  assert (Hgot2 : forall j, (1 + n <= j)%nat ->
            nth_error got j = nth_error xs (j - (1 + n))).
  { intros j Hj. unfold got. rewrite nth_error_app2 by lia. now rewrite Hfl. }
  destruct (collect_decodeFrame got) as [dp [E Ff]].
  assert (H0 : getEntry dp 0 = Some (entryOf 0 total meta 0)).
  { pose proof (getEntry_collect got dp 0 Ff) as H.
    rewrite Hgot1, L0 in H by lia. cbn [option_map] in H.
    rewrite decodeFrame_frameOf in H.
    - injection H as H. symmetry. exact H.
    - apply bytes_ok_metadata_bytes;
        apply bytes_ok_encode, well_formed_code_points; assumption.
    - exact Hmeta. }
  assert (HS : forall k, (k < n)%nat ->
            getEntry dp (1 + k)
            = Some (entryOf (Z.of_nat k + 1) total (piece fileBytes k) 0)).
  { intros k Hk. pose proof (getEntry_collect got dp (1 + k) Ff) as H.
    rewrite Hgot1, LS in H by lia.
    cbn [option_map] in H. rewrite decodeFrame_frameOf in H.
    - injection H as H. symmetry. exact H.
    - now apply bytes_ok_piece.
    - apply length_piece_le. }
  assert (HN : forall k, (n <= k)%nat -> getEntry dp (1 + k) = None).
  { intros k Hk. pose proof (getEntry_collect got dp (1 + k) Ff) as H.
    rewrite Hgot2 in H by lia.
    destruct (nth_error xs (1 + k - (1 + n))) as [x|] eqn:Ex; [|exact H].
    apply nth_error_In in Ex. rewrite Forall_forall in Hxs.
    rewrite (Hxs x Ex) in H. congruence. }
  set (tgt := map Some ps ++ repeat None m).
  assert (Htl : List.length tgt = (n + m)%nat)
    by (unfold tgt; rewrite length_app, length_map, repeat_length; lia).
  pose proof (len_nonneg (Text.encode name)) as Hn0.
  pose proof (len_nonneg (Text.encode mime)) as Hm0.
  assert (Hml : len meta = 13 + len (Text.encode name) + len (Text.encode mime)).
  { unfold meta, len. rewrite length_metadata_bytes. lia. }
  rewrite MAX_PAYLOAD_value in Hmeta.
  rewrite (decodeFrames_received decrypt fuel (S passes) got password dp
             (entryOf 0 total meta 0) name mime (len fileBytes)
             tgt [] d0 E H0 eq_refl).
  - rewrite recoverPackets_no_repairs, bind_Ok, Htl.
    rewrite (checkRecovered_first_absent tgt n (n + m)).
    + reflexivity.
    + lia.
    + intros j Hj. unfold tgt. rewrite present_app_None, Hps.
      rewrite (proj2 (Nat.ltb_lt _ _) Hj). discriminate.
    + unfold tgt. rewrite present_app_None, Hps.
      now rewrite (proj2 (Nat.ltb_ge _ _)) by lia.
  - apply decodeMetadata_metadata_bytes; try assumption; try lia.
    pose proof (len_nonneg fileBytes). lia.
  - rewrite Htl. change (totalPackets (header (entryOf 0 total meta 0)))
      with (total mod 2 ^ 32).
    rewrite Z.mod_small by lia. cbn [List.length]. unfold total. lia.
  - rewrite Htl. intros k Hk. unfold tgt. rewrite nth_app_None, Hps.
    unfold delivers. destruct (Nat.ltb_spec k n) as [Hkn|Hkn].
    + eexists. split; [apply HS; assumption|].
      split; [reflexivity|]. split; [reflexivity|].
      unfold ps. now rewrite nth_map_seq.
    + now rewrite HN.
  - cbn [List.length]. intros r Hr. lia.
Qed.
End LostRepairFrames.

Section LossTheorems.
Import JS TypedArray Packets Fountain Handler Decoder Aux.




End LossTheorems.

Section DamagedRepairFrames.
Import JS TypedArray Packets Fountain Handler Decoder Aux.

(** [#decode] when every source frame is intact and each frame after them
    holds some repair packet. *)
Lemma decodeFrames_intact_sources
    (decrypt : Uint8Array -> Text.jsstring -> outcome Uint8Array)
    (fuel passes : nat) (frames : list (option Uint8Array))
    (password : option Text.jsstring) (dp : entries) (e0 : DecodedFrame)
    (name mime : Text.jsstring) (size : Z) (ps : list Uint8Array) (m : nat) :
  collect (map decodeFrame frames) = Ok dp ->
  getEntry dp 0 = Some e0 -> isValid e0 = true ->
  decodeMetadata (payload e0)
  = Ok {| filename := name; fileSize := size; mimeType := mime;
          isEncrypted := false |} ->
  totalPackets (header e0) = 1 + Z.of_nat (List.length ps) + Z.of_nat m ->
  (forall k, (k < List.length ps)%nat ->
     delivers (getEntry dp (1 + k)) (Some (nth k ps []))) ->
  (forall r, (r < m)%nat ->
     exists e, getEntry dp (1 + List.length ps + r) = Some e /\
               isRepair e = true) ->
  (forall r, (r < m)%nat ->
     exists l, deriveRepairSources fuel (Z.of_nat r)
                 (Z.of_nat (List.length ps)) = Ok l /\
               Forall (fun j => (j < List.length ps)%nat) (map asIndex l)) ->
  decodeFrames decrypt fuel (S passes) frames password
  = (fileBytes <- copyOut ps (alloc size) size 0 ;; Ok (name, fileBytes)).
Proof.
  intros Hdp H0 Hv Hmeta Htot Hs Hr Hl.
  set (n := List.length ps) in *.
  unfold decodeFrames. rewrite Hdp, bind_Ok.
  assert (Hf : forallb (fun e : option DecodedFrame =>
                          match e with Some _ => false | None => true end) dp
               = false).
  { destruct dp as [|[e|] dp]; try discriminate. reflexivity. }
  rewrite Hf, H0. unfold readMetadata. rewrite Hv, Hmeta, bind_Ok, Htot.
  assert (Hlen : Z.to_nat (1 + Z.of_nat n + Z.of_nat m - 1) = (n + m)%nat) by lia.
  assert (Hc : countFrames dp (1 + Z.of_nat n + Z.of_nat m)
               = (Z.of_nat n, Z.of_nat m)).
  { unfold countFrames. rewrite Hlen, seq_app, fold_left_app.
    rewrite count_sources.
    - rewrite count_repairs; [reflexivity|].
      intros i Hi. replace i with (1 + n + (i - 1 - n))%nat by lia.
      apply Hr. lia.
    - intros i Hi. replace i with (1 + (i - 1))%nat by lia.
      destruct (Hs (i - 1)%nat ltac:(lia)) as [e [E1 [E2 _]]]. now rewrite E1. }
  rewrite Hc, Hlen, seq_app, Nat2Z.id.
  assert (Hs' : forall k, (k < List.length (map Some ps))%nat ->
            delivers (getEntry dp (1 + k)) (nth k (map Some ps) None)).
  { rewrite length_map. intros k Hk.
    replace (nth k (map Some ps) None) with (Some (nth k ps [])); [now apply Hs|].
    symmetry. apply nth_error_nth.
    now rewrite nth_error_map, (nth_error_nth' ps [] Hk). }
  pose proof (populate_slots fuel dp (map Some ps) 1 [] 0 (seq (1 + n) m) Hs'
                n 0%nat) as Hp1.
  rewrite length_map in Hp1. fold n in Hp1. specialize (Hp1 eq_refl).
  cbn [firstn app] in Hp1. rewrite Nat.sub_0_r, Nat.add_0_r in Hp1.
  change (Z.of_nat 0) with 0 in Hp1.
  rewrite Hp1.
  destruct (populate_repairs fuel dp (Z.of_nat n) n (map Some ps) (Z.of_nat n)
              (1 + n) m Hr Hl m 0%nat [] eq_refl (Forall_nil _))
    as [reps' [Hin Hp2]].
  rewrite Nat.add_0_r in Hp2. change (Z.of_nat 0) with 0 in Hp2.
  rewrite Hp2, bind_Ok.
  cbn [sourcePackets repairPacketsDecoded].
  rewrite (recoverPackets_complete passes ps reps' _ Hin), bind_Ok.
  rewrite checkRecovered_complete, bind_Ok.
  2:{ apply Forall_forall. intros i Hi. apply in_seq in Hi. fold n. lia. }
  rewrite packetsOf_complete, bind_Ok.
  cbn [isEncrypted fileSize filename]. reflexivity.
Qed.


End DamagedRepairFrames.

Section GeneratorBits.
Import JS Fountain.

Lemma testbit_negative_high (v k n : Z) :
  0 <= k -> - 2 ^ k <= v < 0 -> k <= n -> Z.testbit v n = true.
Proof.
  intros Hk Hv Hn. destruct (Z.eq_dec v (-1)) as [->|E].
  - apply Z.bits_m1. lia.
  - apply Z.bits_above_log2_neg; [lia|].
    apply Z.lt_le_trans with k; [|exact Hn].
    apply Z.log2_lt_pow2; lia.
Qed.

(** Above bit 30 an int32 repeats its sign bit. *)
Lemma testbit_toInt32_high (a n : Z) :
  31 <= n -> Z.testbit (toInt32 a) n = Z.testbit a 31.
Proof.
  intros Hn. rewrite <- (testbit_toInt32_low a 31) by lia.
  pose proof (toInt32_range a) as Hr.
  destruct (Z.lt_ge_cases (toInt32 a) 0) as [Hneg|Hpos].
  - rewrite !(testbit_negative_high (toInt32 a) 31) by lia. reflexivity.
  - rewrite !(testbit_high 31 (toInt32 a)) by lia. reflexivity.
Qed.

Lemma xor32_bit (a b n : Z) :
  0 <= n < 32 ->
  Z.testbit (xor32 a b) n = xorb (Z.testbit a n) (Z.testbit b n).
Proof.
  intros Hn. unfold xor32. now rewrite Z.lxor_spec, !testbit_toInt32_low.
Qed.

Lemma shl32_bit (a k n : Z) :
  0 <= k < 32 -> 0 <= n < 32 ->
  Z.testbit (shl32 a k) n = if k <=? n then Z.testbit a (n - k) else false.
Proof.
  intros Hk Hn. unfold shl32. rewrite testbit_toInt32_low by lia.
  rewrite Z.mod_small by lia. rewrite Z.shiftl_spec by lia.
  destruct (Z.leb_spec k n) as [H|H].
  - apply testbit_toInt32_low. lia.
  - apply Z.testbit_neg_r. lia.
Qed.

Lemma sar32_bit (a k n : Z) :
  0 <= k < 32 -> 0 <= n < 32 ->
  Z.testbit (sar32 a k) n
  = if n + k <? 32 then Z.testbit a (n + k) else Z.testbit a 31.
Proof.
  intros Hk Hn. unfold sar32. rewrite Z.mod_small by lia.
  rewrite Z.shiftr_spec by lia.
  destruct (Z.ltb_spec (n + k) 32) as [H|H].
  - apply testbit_toInt32_low. lia.
  - apply testbit_toInt32_high. lia.
Qed.

Lemma u32_shiftl_bit (x k n : Z) :
  0 <= k -> 0 <= n ->
  Z.testbit (FountainSpec.u32 (Z.shiftl x k)) n
  = if n <? 32 then (if k <=? n then Z.testbit x (n - k) else false) else false.
Proof.
  intros Hk Hn. unfold FountainSpec.u32.
  destruct (Z.ltb_spec n 32) as [H|H].
  - rewrite Z.mod_pow2_bits_low by lia. rewrite Z.shiftl_spec by lia.
    destruct (Z.leb_spec k n) as [H'|H']; [reflexivity|].
    apply Z.testbit_neg_r. lia.
  - apply Z.mod_pow2_bits_high. lia.
Qed.

Lemma mask_bit (n : Z) :
  0 <= n -> Z.testbit 0xF8000 n = (15 <=? n) && (n <? 20).
Proof.
  intros Hn. change 0xF8000 with (Z.shiftl (Z.ones 5) 15).
  rewrite Z.shiftl_spec by lia.
  destruct (Z.leb_spec 15 n) as [H|H]; cbn [andb].
  - destruct (Z.ltb_spec n 20) as [H'|H'].
    + apply Z.ones_spec_low. lia.
    + apply Z.ones_spec_high. lia.
  - apply Z.testbit_neg_r. lia.
Qed.

Ltac tests :=
  repeat match goal with
  | |- context [?a <=? ?b] =>
      first [ rewrite (proj2 (Z.leb_le a b)) by lia
            | rewrite (proj2 (Z.leb_gt a b)) by lia ]
  | |- context [?a <? ?b] =>
      first [ rewrite (proj2 (Z.ltb_lt a b)) by lia
            | rewrite (proj2 (Z.ltb_ge a b)) by lia ]
  end; cbv beta iota.

Ltac bits_step :=
  first [ rewrite xor32_bit by lia
        | rewrite shl32_bit by lia
        | rewrite sar32_bit by lia
        | rewrite Z.lxor_spec
        | rewrite u32_shiftl_bit by lia
        | rewrite Z.shiftr_spec by lia
        | rewrite testbit_toUint32_low by lia
        | rewrite testbit_toUint32_high by lia
        | rewrite mask_bit by lia
        | rewrite Z.testbit_0_l ].

Ltac bits := repeat (bits_step; tests).

Ltac atoms s :=
  repeat match goal with
  | |- context [Z.testbit s ?e] => destruct (Z.testbit s e)
  end.

Lemma xorshift32_next_bits (s n : Z) :
  0 <= n ->
  Z.testbit (toUint32 (xorshift32_next s)) n
  = Z.testbit
      (Z.lxor (FountainSpec.next (toUint32 s))
         (if xorb (Z.testbit s 31) (Z.testbit s 18) then 0xF8000 else 0)) n.
Proof.
  intros Hn. unfold xorshift32_next, FountainSpec.next. cbv zeta.
  assert (R : n < 5 \/ 5 <= n < 13 \/ 13 <= n < 15 \/ 15 <= n < 18 \/
              18 <= n < 20 \/ 20 <= n < 32 \/ 32 <= n) by lia.
  destruct (xorb (Z.testbit s 31) (Z.testbit s 18)) eqn:Ec;
    destruct R as [R|[R|[R|[R|[R|[R|R]]]]]];
    bits; change (31 - 13) with 18; cbn [andb];
    revert Ec; atoms s; cbn [xorb]; intros Ec;
    first [reflexivity | discriminate].
Qed.
End GeneratorBits.

Section GeneratorTheorems.
Import JS Fountain.

(** X27: the generator against the unsigned xorshift32.  Because the code
    shifts right with [>>], which repeats the sign bit, the value a call
    returns is the xorshift32 successor (shifts 13, 17, 5 on unsigned 32-bit
    words) of the value the call before returned, with bits 15 to 19 flipped
    when bits 31 and 18 of that value differ.  The two agree exactly when
    these bits are equal. *)
Theorem xorshift32_against_unsigned (state : Z) :
  xorshift32_out (xorshift32_next state)
  = Z.lxor (FountainSpec.next (xorshift32_out state))
      (if xorb (Z.testbit state 31) (Z.testbit state 18) then 0xF8000 else 0) /\
  (xorshift32_out (xorshift32_next state)
   = FountainSpec.next (xorshift32_out state)
   <-> Z.testbit state 31 = Z.testbit state 18).
Proof.
  assert (E : xorshift32_out (xorshift32_next state)
              = Z.lxor (FountainSpec.next (xorshift32_out state))
                  (if xorb (Z.testbit state 31) (Z.testbit state 18)
                   then 0xF8000 else 0)).
  { unfold xorshift32_out. rewrite !shr32_0. apply Z.bits_inj'.
    intros n Hn. now apply xorshift32_next_bits. }
  split; [exact E|]. rewrite E.
  destruct (Z.testbit state 31), (Z.testbit state 18); cbn [xorb];
    rewrite ?Z.lxor_0_r; split; intros H; try reflexivity; exfalso;
    try discriminate.
  - apply (f_equal (Z.lxor (FountainSpec.next (xorshift32_out state)))) in H.
    rewrite <- Z.lxor_assoc, Z.lxor_nilpotent, Z.lxor_0_l in H. discriminate.
  - apply (f_equal (Z.lxor (FountainSpec.next (xorshift32_out state)))) in H.
    rewrite <- Z.lxor_assoc, Z.lxor_nilpotent, Z.lxor_0_l in H. discriminate.
Qed.

Lemma toUint32_lor (a b : Z) :
  toUint32 (Z.lor a b) = Z.lor (toUint32 a) (toUint32 b).
Proof. rewrite !toUint32_land_ones. apply Z.land_lor_distr_l. Qed.

(** X28: the seed.  For a repair index from 0 to 3393263 the product
    [repairIndex * 2654435761 + 1] is exact in double arithmetic, so the first
    state of the generator, read as an unsigned word, is the product reduced
    modulo [2 ^ 32] with its lowest bit set. *)
Theorem seed_is_wrapped_product (repairIndex : Z) :
  0 <= repairIndex <= 3393263 ->
  xorshift32_out (xorshift32 (seedOf repairIndex)) = FountainSpec.seed repairIndex.
Proof.
  intros Hr. unfold seedOf, xorshift32, xorshift32_out, FountainSpec.seed.
  rewrite (roundToDouble_nonneg_small (repairIndex * 2654435761))
    by (change (2 ^ 53) with 9007199254740992; lia).
  rewrite roundToDouble_nonneg_small
    by (change (2 ^ 53) with 9007199254740992; lia).
  unfold doubleToInt32.
  assert (Hbig : (2 ^ 1024 <=? repairIndex * 2654435761 + 1) = false).
  { apply Z.leb_gt. apply Z.lt_le_trans with (2 ^ 53).
    - change (2 ^ 53) with 9007199254740992. lia.
    - apply Z.pow_le_mono_r; lia. }
  rewrite Hbig. rewrite shr32_0. unfold or32.
  rewrite toUint32_lor, !toUint32_toInt32.
  unfold FountainSpec.u32, toUint32.
  rewrite Zplus_mod_idemp_l. reflexivity.
Qed.

Lemma seed_is_wrapped_product_witness :
  xorshift32_out (xorshift32 (seedOf 207)) = FountainSpec.seed 207.
Proof.
  apply (seed_is_wrapped_product 207). lia.
Defined.
End GeneratorTheorems.
